(** * Rs-guided melanoma therapy: resistance entropy, greedy targeting, REGO

    A shallow embedding of [src/calculate_Rs.py], [clinical_analysis.py] and
    [src/rego_optimizer.py].

    - Python floats are read as real numbers ([R]); [+inf], [-inf] and [nan]
      have no counterpart, so an operation that would produce one
      ([np.log] at a non-positive argument) is an explicit failure of the model.
    - networkx graphs are insertion-ordered adjacency dictionaries; they are
      modelled as association lists [node -> neighbour list], and the
      networkx calls the sources make are modelled in [Module NX].
    - [np.linalg.pinv] and [random.sample] are external: they are section
      variables, constrained only by the shape of what they return.
    - Graph objects live in a heap of references, so that [G.copy()],
      [copy.deepcopy] and the in-place [remove_edge]/[add_edge] of the two
      searches keep their aliasing.
    - The sources raise [ValueError] where the specification speaks of
      DisconnectedGraphError. Printing, and with it the [verbose] flag, is
      left out. *)

From Stdlib Require Import String.
From Stdlib Require Import List Arith Bool ZArith Lia Permutation.
From Stdlib Require Import Reals Lra.
Import ListNotations.

(* ------------------------------------------------------------------ *)
(** ** Exceptions and results *)

Inductive exn : Type :=
| ValueError (msg : string)
| NetworkXPointlessConcept
| NetworkXError
| KeyError
| IndexError
| NotAReal.

Inductive result (A : Type) : Type :=
| Ok (a : A)
| Raise (e : exn).

Arguments Ok {A} a.
Arguments Raise {A} e.

Definition rbind {A B} (m : result A) (k : A -> result B) : result B :=
  match m with
  | Ok a => k a
  | Raise e => Raise e
  end.

Declare Scope result_scope.
Delimit Scope result_scope with result.
Notation "x <- m ;; k" := (rbind m (fun x => k))
  (at level 61, m at next level, right associativity) : result_scope.

Definition of_option {A} (e : exn) (o : option A) : result A :=
  match o with
  | Some a => Ok a
  | None => Raise e
  end.

(* ------------------------------------------------------------------ *)
(** ** Python dictionaries: insertion-ordered association lists *)

Section Dict.
Variables K V : Type.
Variable eqb : K -> K -> bool.

Definition dict := list (K * V).

Fixpoint dict_get (d : dict) (k : K) : option V :=
  match d with
  | [] => None
  | (k', v) :: d' => if eqb k k' then Some v else dict_get d' k
  end.

(** [d[k] = v]: an existing key keeps its position. *)
Fixpoint dict_set (d : dict) (k : K) (v : V) : dict :=
  match d with
  | [] => [(k, v)]
  | (k', v') :: d' =>
      if eqb k k' then (k', v) :: d' else (k', v') :: dict_set d' k v
  end.

Definition dict_values (d : dict) : list V := map snd d.
Definition dict_keys (d : dict) : list K := map fst d.

(** [{k: v for k, v in items}] *)
Definition dict_of_list (items : list (K * V)) : dict :=
  fold_left (fun d kv => dict_set d (fst kv) (snd kv)) items [].
End Dict.

Arguments dict_get {K V} eqb d k.
Arguments dict_set {K V} eqb d k v.
Arguments dict_values {K V} d.
Arguments dict_keys {K V} d.
Arguments dict_of_list {K V} eqb items.

(* ------------------------------------------------------------------ *)
(** ** networkx graphs *)

Definition node := nat.
Definition edge := (node * node)%type.

Definition edge_eqb (e1 e2 : edge) : bool :=
  (fst e1 =? fst e2) && (snd e1 =? snd e2).

(** [G._adj]: every node, in insertion order, with its neighbours in
    insertion order. *)
Definition Graph := list (node * list node).

Definition mem (x : node) (l : list node) : bool := existsb (Nat.eqb x) l.

Module NX.

Definition nodes (G : Graph) : list node := map fst G.

Definition adj (G : Graph) (u : node) : option (list node) :=
  dict_get Nat.eqb G u.

Definition has_node (G : Graph) (u : node) : bool := mem u (nodes G).

Definition has_edge (G : Graph) (u v : node) : bool :=
  match adj G u with
  | Some nbrs => mem v nbrs
  | None => false
  end.

Definition number_of_nodes (G : Graph) : nat := length G.

(** [len(nbrs) + (n in nbrs)]: a self-loop counts twice. *)
Definition degree_of (n : node) (nbrs : list node) : nat :=
  length nbrs + (if mem n nbrs then 1 else 0).

(** [dict(G.degree())] *)
Definition degree (G : Graph) : dict node nat :=
  map (fun '(n, nbrs) => (n, degree_of n nbrs)) G.

(** [G.edges()]: each node in turn reports the neighbours that have not
    been reported from yet. *)
Fixpoint edges_from (seen : list node) (G : Graph) : list edge :=
  match G with
  | [] => []
  | (n, nbrs) :: rest =>
      map (pair n) (filter (fun m => negb (mem m seen)) nbrs)
        ++ edges_from (n :: seen) rest
  end.

Definition edges (G : Graph) : list edge := edges_from [] G.

(** [G.number_of_edges()]: the number of edges [G.edges()] reports. *)
Definition number_of_edges (G : Graph) : nat := length (edges G).

Definition drop (v : node) (l : list node) : list node :=
  filter (fun m => negb (m =? v)) l.

(** [G.remove_edge(u, v)] *)
Definition remove_edge (G : Graph) (u v : node) : result Graph :=
  if has_edge G u v then
    Ok (map (fun '(n, nbrs) =>
               (n, if n =? u then drop v nbrs
                   else if n =? v then drop u nbrs
                   else nbrs)) G)
  else Raise NetworkXError.

Definition add_node (G : Graph) (u : node) : Graph :=
  if has_node G u then G else G ++ [(u, [])].

Definition add_nbr (G : Graph) (u v : node) : Graph :=
  map (fun '(n, nbrs) =>
         (n, if (n =? u) && negb (mem v nbrs) then nbrs ++ [v] else nbrs)) G.

(** [G.add_edge(u, v)] *)
Definition add_edge (G : Graph) (u v : node) : Graph :=
  add_nbr (add_nbr (add_node (add_node G u) v) u v) v u.

(** One round of the breadth-first search: everything visited so far and
    all its neighbours, as a duplicate-free list. *)
Definition nbrs_of (G : Graph) (u : node) : list node :=
  match adj G u with
  | Some l => l
  | None => []
  end.

Definition expand (G : Graph) (visited : list node) : list node :=
  nodup Nat.eq_dec (visited ++ flat_map (nbrs_of G) visited).

Fixpoint reach (rounds : nat) (G : Graph) (visited : list node) : list node :=
  match rounds with
  | O => visited
  | S r => reach r G (expand G visited)
  end.

(** The nodes visited by a search from [s]. *)
Definition component (G : Graph) (s : node) : list node :=
  reach (length G) G [s].

(** [nx.is_connected(G)]: undefined on the null graph, otherwise the
    search from the first node has to visit [len(G)] nodes. *)
Definition is_connected (G : Graph) : result bool :=
  match G with
  | [] => Raise NetworkXPointlessConcept
  | (s, _) :: _ => Ok (length (component G s) =? length G)
  end.

(** [nx.connected_components(G)] *)
Fixpoint components_from (G : Graph) (todo : list node) (seen : list node)
  : list (list node) :=
  match todo with
  | [] => []
  | v :: todo' =>
      if mem v seen then components_from G todo' seen
      else let c := component G v in
           c :: components_from G todo' (c ++ seen)
  end.

Definition connected_components (G : Graph) : list (list node) :=
  components_from G (nodes G) [].

(** [max(cs, key=len)]: the first of the longest ones; [ValueError] on an
    empty sequence. *)
Fixpoint max_by_len (cs : list (list node)) : option (list node) :=
  match cs with
  | [] => None
  | c :: cs' =>
      match max_by_len cs' with
      | Some c' => if length c <? length c' then Some c' else Some c
      | None => Some c
      end
  end.

(** [G.subgraph(ns)]: the induced subgraph (a read-only view), its nodes
    and neighbours listed in the order [G] has them. *)
Definition subgraph (G : Graph) (ns : list node) : Graph :=
  map (fun '(n, nbrs) => (n, filter (fun m => mem m ns) nbrs))
      (filter (fun '(n, _) => mem n ns) G).

End NX.

(* ------------------------------------------------------------------ *)
(** ** Matrices (numpy arrays of floats) *)

Definition Matrix := list (list R).

(** [M[i, j]] for non-negative indices. *)
Definition mget (M : Matrix) (i j : nat) : result R :=
  match nth_error M i with
  | Some row => of_option IndexError (nth_error row j)
  | None => Raise IndexError
  end.

Definition is_square (n : nat) (M : Matrix) : Prop :=
  length M = n /\ Forall (fun row => length row = n) M.

(** [sum(xs)] *)
Definition py_sum (xs : list R) : R := fold_left Rplus xs 0%R.

Definition sum_nat (xs : list nat) : nat := fold_left Nat.add xs 0.

Module NXL.

Definition A (G : Graph) (u v : node) : R :=
  if NX.has_edge G u v then 1%R else 0%R.

(** [nx.laplacian_matrix(G).toarray()]: [D - A] over [list(G)], [D] the
    diagonal of the row sums of [A]. *)
Definition laplacian_matrix (G : Graph) : Matrix :=
  let ns := NX.nodes G in
  map (fun u =>
         map (fun v =>
                ((if u =? v then py_sum (map (A G u) ns) else 0) - A G u v)%R)
             ns)
      ns.

End NXL.

(** [np.log] on the reals: numpy answers [-inf] at 0 and [nan] below. *)
Definition np_log (x : R) : result R :=
  if Rlt_dec 0 x then Ok (ln x) else Raise NotAReal.

(* ------------------------------------------------------------------ *)
(** ** src/calculate_Rs.py *)

Section ResistanceMetric.

(** [np.linalg.pinv] *)
Variable pinv : Matrix -> Matrix.

Local Open Scope result_scope.

Definition calculate_laplacian_pseudoinverse (G : Graph) : result Matrix :=
  c <- NX.is_connected G ;;
  if negb c then
    Raise (ValueError
      "Graph must be connected to calculate its Laplacian pseudoinverse.")
  else
    let L := NXL.laplacian_matrix G in
    Ok (pinv L).

(** [{node: i for i, node in enumerate(nodes)}] *)
Definition make_node_map (nodes : list node) : dict node nat :=
  dict_of_list Nat.eqb (combine nodes (seq 0 (length nodes))).

Fixpoint resistance_loop (L_plus : Matrix) (node_map : dict node nat)
         (es : list edge) (resistances : dict edge R)
  : result (dict edge R) :=
  match es with
  | [] => Ok resistances
  | (u, v) :: es' =>
      i <- of_option KeyError (dict_get Nat.eqb node_map u) ;;
      j <- of_option KeyError (dict_get Nat.eqb node_map v) ;;
      a <- mget L_plus i i ;;
      b <- mget L_plus j j ;;
      c <- mget L_plus i j ;;
      let omega_uv := (a + b - 2 * c)%R in
      resistance_loop L_plus node_map es'
        (dict_set edge_eqb resistances (u, v) (Rmax 0 omega_uv))
  end.

Definition calculate_all_pairs_effective_resistance
           (G : Graph) (L_plus : option Matrix) : result (dict edge R) :=
  L_plus <- match L_plus with
            | None => calculate_laplacian_pseudoinverse G
            | Some L => Ok L
            end ;;
  let nodes := NX.nodes G in
  let node_map := make_node_map nodes in
  resistance_loop L_plus node_map (NX.edges G) [].

Fixpoint weights_loop (degrees : dict node nat) (d_bar denominator : R)
         (es : list edge) (weights : dict edge R) : result (dict edge R) :=
  match es with
  | [] => Ok weights
  | (u, v) :: es' =>
      du <- of_option KeyError (dict_get Nat.eqb degrees u) ;;
      dv <- of_option KeyError (dict_get Nat.eqb degrees v) ;;
      let numerator := (Rabs (INR du - d_bar) + Rabs (INR dv - d_bar))%R in
      let w_uv := (1 - numerator / denominator)%R in
      weights_loop degrees d_bar denominator es'
        (dict_set edge_eqb weights (u, v) w_uv)
  end.

Definition calculate_structural_penalty_weights (G : Graph)
  : result (dict edge R) :=
  let N := NX.number_of_nodes G in
  if (N =? 0) || (NX.number_of_edges G =? 0) then Ok []
  else
    let degrees := NX.degree G in
    let d_bar := (INR (sum_nat (dict_values degrees)) / INR N)%R in
    if Req_dec_T d_bar 0 then
      Ok (dict_of_list edge_eqb (map (fun e => (e, 1%R)) (NX.edges G)))
    else
      let denominator := (2 * INR N * d_bar)%R in
      if Req_dec_T denominator 0 then
        Ok (dict_of_list edge_eqb (map (fun e => (e, 1%R)) (NX.edges G)))
      else weights_loop degrees d_bar denominator (NX.edges G) [].

(** Lines 128-135. Next to [Rs_value] the loop records, in order, the
    arguments it passes to [np.log]. *)
Fixpoint Rs_loop (edge_probabilities structural_weights : dict edge R)
         (es : list edge) (Rs_value : R) (log_calls : list R)
  : result (R * list R) :=
  match es with
  | [] => Ok (Rs_value, log_calls)
  | e :: es' =>
      match dict_get edge_eqb edge_probabilities e,
            dict_get edge_eqb structural_weights e with
      | Some p_uv, Some w_uv =>
          if Rgt_dec p_uv 0 then
            l <- np_log (1 / p_uv) ;;
            let spectral_flow_term := (p_uv * l)%R in
            Rs_loop edge_probabilities structural_weights es'
                    (Rs_value + spectral_flow_term * w_uv)%R
                    (log_calls ++ [(1 / p_uv)%R])
          else Rs_loop edge_probabilities structural_weights es'
                       Rs_value log_calls
      | _, _ => Rs_loop edge_probabilities structural_weights es'
                        Rs_value log_calls
      end
  end.

(** [calculate_Rs] with the record of its [np.log] calls. *)
Definition calculate_Rs_traced (G : Graph) : result (R * list R) :=
  c <- NX.is_connected G ;;
  if negb c then
    Raise (ValueError "Rs calculation requires a connected graph.")
  else if NX.number_of_edges G =? 0 then Ok (0%R, [])
  else
    edge_resistances <- calculate_all_pairs_effective_resistance G None ;;
    let total_resistance := py_sum (dict_values edge_resistances) in
    if Req_dec_T total_resistance 0 then Ok (0%R, [])
    else
      let edge_probabilities :=
        dict_of_list edge_eqb
          (map (fun '(e, res) => (e, (res / total_resistance)%R))
               edge_resistances) in
      structural_weights <- calculate_structural_penalty_weights G ;;
      Rs_loop edge_probabilities structural_weights (NX.edges G) 0%R [].

Definition calculate_Rs (G : Graph) : result R :=
  r <- calculate_Rs_traced G ;; Ok (fst r).

End ResistanceMetric.

(* ------------------------------------------------------------------ *)
(** ** Graph objects on the heap *)

Definition ref := nat.
Definition Heap := list Graph.

(** A computation that reads and mutates graph objects and may raise. *)
Definition M (A : Type) : Type := Heap -> result (A * Heap).

Definition mret {A} (a : A) : M A := fun h => Ok (a, h).

Definition mbind {A B} (m : M A) (k : A -> M B) : M B :=
  fun h =>
    match m h with
    | Ok (a, h') => k a h'
    | Raise e => Raise e
    end.

Definition mraise {A} (e : exn) : M A := fun _ => Raise e.

Definition lift {A} (r : result A) : M A :=
  fun h =>
    match r with
    | Ok a => Ok (a, h)
    | Raise e => Raise e
    end.

Declare Scope heap_scope.
Delimit Scope heap_scope with heap.
Notation "x <- m ;; k" := (mbind m (fun x => k))
  (at level 61, m at next level, right associativity) : heap_scope.
Notation "m ;;; k" := (mbind m (fun _ => k))
  (at level 61, right associativity) : heap_scope.

Definition deref (h : Heap) (r : ref) : Graph := nth r h [].

Fixpoint update (h : Heap) (r : ref) (g : Graph) : Heap :=
  match h, r with
  | [], _ => []
  | _ :: h', O => g :: h'
  | g0 :: h', S r' => g0 :: update h' r' g
  end.

Definition read (r : ref) : M Graph := fun h => Ok (deref h r, h).
Definition write (r : ref) (g : Graph) : M unit := fun h => Ok (tt, update h r g).
Definition alloc (g : Graph) : M ref := fun h => Ok (length h, h ++ [g]).

Local Open Scope heap_scope.

(** [G.copy()] and [copy.deepcopy(G)]: a new object with the same nodes and
    edges, reported in the same order by [nodes()] and [edges()]. *)
Definition G_copy (G : ref) : M ref :=
  g <- read G ;; alloc g.

Definition G_remove_edge (G : ref) (u v : node) : M unit :=
  g <- read G ;;
  g' <- lift (NX.remove_edge g u v) ;;
  write G g'.

Definition G_add_edge (G : ref) (u v : node) : M unit :=
  g <- read G ;;
  write G (NX.add_edge g u v).

Local Close Scope heap_scope.

(** [-np.inf] next to the finite floats. *)
Inductive ext_real : Type :=
| NegInf
| Fin (r : R).

(** [x > m] *)
Definition ext_gt (x : R) (m : ext_real) : bool :=
  match m with
  | NegInf => true
  | Fin y => if Rgt_dec x y then true else false
  end.

(** [int(budget)] on a float: truncation towards zero. *)
Definition py_int (b : R) : Z :=
  if Rle_dec 0 b then Int_part b else (- Int_part (- b))%Z.

(** [math.floor] *)
Definition floor (b : R) : Z := Int_part b.

(* ------------------------------------------------------------------ *)
(** ** src/clinical_analysis.py: find_optimal_targets_greedy *)

Section GreedyTargetSearch.

Variable pinv : Matrix -> Matrix.

Record candidate_state : Type := mkCand {
  best_edge_to_remove : option edge;
  max_delta_rs : ext_real;
  next_rs : R
}.

Record greedy_state : Type := mkGreedy {
  initial_rs : R;
  best_targets : list edge;
  delta_rs_history : list ext_real
}.

(** Lines 100-104: the graph itself when it is connected, else the subgraph
    on its largest component. *)
Definition largest_cc (temp_G : Graph) : result Graph :=
  (c <- NX.is_connected temp_G ;;
   if negb c then
     largest_cc_nodes <-
       of_option (ValueError "max() arg is an empty sequence")
                 (NX.max_by_len (NX.connected_components temp_G)) ;;
     Ok (NX.subgraph temp_G largest_cc_nodes)
   else Ok temp_G)%result.

(** Lines 107-114: [None] is the [continue] of the [except ValueError]. *)
Definition rs_after (largest_cc_graph : Graph) : result (option R) :=
  if NX.number_of_edges largest_cc_graph =? 0 then Ok (Some 0%R)
  else
    match calculate_Rs pinv largest_cc_graph with
    | Ok r => Ok (Some r)
    | Raise (ValueError _) => Ok None
    | Raise e => Raise e
    end.

Local Open Scope heap_scope.

(** Lines 93-121. *)
Fixpoint candidates_loop (current_G : ref) (initial_rs : R)
         (candidate_edges : list edge) (st : candidate_state)
  : M candidate_state :=
  match candidate_edges with
  | [] => mret st
  | edge :: rest =>
      temp_G <- G_copy current_G ;;
      G_remove_edge temp_G (fst edge) (snd edge) ;;;
      temp <- read temp_G ;;
      largest_cc_graph <- lift (largest_cc temp) ;;
      r <- lift (rs_after largest_cc_graph) ;;
      match r with
      | None => candidates_loop current_G initial_rs rest st
      | Some rs_after_removal =>
          let delta_rs := (rs_after_removal - initial_rs)%R in
          if ext_gt delta_rs (max_delta_rs st) then
            candidates_loop current_G initial_rs rest
              (mkCand (Some edge) (Fin delta_rs) rs_after_removal)
          else candidates_loop current_G initial_rs rest st
      end
  end.

(** Lines 82-133; [iterations] is the length of [range(iterations)]. *)
Fixpoint greedy_loop (iterations : nat) (current_G : ref) (st : greedy_state)
  : M greedy_state :=
  match iterations with
  | O => mret st
  | S iterations' =>
      g <- read current_G ;;
      let candidate_edges := NX.edges g in
      match candidate_edges with
      | [] => mret st
      | _ :: _ =>
          c <- candidates_loop current_G (initial_rs st) candidate_edges
                 (mkCand None NegInf (initial_rs st)) ;;
          match best_edge_to_remove c with
          | None => mret st
          | Some best =>
              G_remove_edge current_G (fst best) (snd best) ;;;
              greedy_loop iterations' current_G
                (mkGreedy (next_rs c)
                          (best_targets st ++ [best])
                          (delta_rs_history st ++ [max_delta_rs c]))
          end
      end
  end.

Definition find_optimal_targets_greedy
           (G : ref) (num_targets : Z) (budget : option R)
  : M (list edge * list ext_real * ref) :=
  g <- read G ;;
  c <- lift (NX.is_connected g) ;;
  if negb c then mraise (ValueError "Input graph must be connected.")
  else
    current_G <- G_copy G ;;
    cur <- read current_G ;;
    match calculate_Rs pinv cur with
    | Raise (ValueError _) => mret ([], [], G)
    | Raise e => mraise e
    | Ok initial_rs =>
        let iterations :=
          match budget with
          | None => num_targets
          | Some b => Z.min num_targets (py_int b)
          end in
        st <- greedy_loop (Z.to_nat iterations) current_G
                (mkGreedy initial_rs [] []) ;;
        mret (best_targets st, delta_rs_history st, current_G)
    end.

End GreedyTargetSearch.

(* ------------------------------------------------------------------ *)
(** ** src/rego_optimizer.py: rego_optimizer *)

Section RewireOptimizer.

Variable pinv : Matrix -> Matrix.

(** [sample2 k n]: what the [k]-th call of [random.sample(range(n), 2)]
    draws. *)
Variable sample2 : nat -> nat -> nat * nat.

Definition random_sample2 (k n : nat) : result (nat * nat) :=
  if n <? 2 then
    Raise (ValueError "Sample larger than population or is negative")
  else Ok (sample2 k n).

Record rego_state : Type := mkRego {
  current_rs : R;
  rs_history : list R;
  edges : list edge;
  n_edges : nat;
  accepted_swaps : nat;
  draws : nat
}.

(** Lines 58-71: at most [attempts_left] draws; [None] is the [else] of
    the [while]. *)
Fixpoint draw_loop (attempts_left : nat) (edges : list edge) (n_edges : nat)
         (k : nat) : result (option (node * node * node * node) * nat) :=
  match attempts_left with
  | O => Ok (None, k)
  | S a =>
      (idx <- random_sample2 k n_edges ;;
       e1 <- of_option IndexError (nth_error edges (fst idx)) ;;
       e2 <- of_option IndexError (nth_error edges (snd idx)) ;;
       let '(u, v) := e1 in
       let '(x, y) := e2 in
       if length (nodup Nat.eq_dec [u; v; x; y]) =? 4
       then Ok (Some (u, v, x, y), S k)
       else draw_loop a edges n_edges (S k))%result
  end.

Local Open Scope heap_scope.

Definition apply_swap (G : ref) (u v x y : node) : M unit :=
  G_remove_edge G u v ;;;
  G_remove_edge G x y ;;;
  G_add_edge G u y ;;;
  G_add_edge G v x.

Definition revert_swap (G : ref) (u v x y : node) : M unit :=
  G_remove_edge G u y ;;;
  G_remove_edge G v x ;;;
  G_add_edge G u v ;;;
  G_add_edge G x y.

Definition with_draws (st : rego_state) (k : nat) : rego_state :=
  mkRego (current_rs st) (rs_history st) (edges st) (n_edges st)
         (accepted_swaps st) k.

(** Lines 52-116. *)
Fixpoint rego_loop (n_iter : nat) (G : ref) (st : rego_state) : M rego_state :=
  match n_iter with
  | O => mret st
  | S n_iter' =>
      if n_edges st <? 2 then mret st
      else
        d <- lift (draw_loop 100 (edges st) (n_edges st) (draws st)) ;;
        let st := with_draws st (snd d) in
        match fst d with
        | None => rego_loop n_iter' G st
        | Some (u, v, x, y) =>
            g <- read G ;;
            if NX.has_edge g u y || NX.has_edge g v x then rego_loop n_iter' G st
            else
              apply_swap G u v x y ;;;
              g1 <- read G ;;
              c <- lift (NX.is_connected g1) ;;
              if negb c then
                revert_swap G u v x y ;;;
                rego_loop n_iter' G st
              else
                match calculate_Rs pinv g1 with
                | Raise (ValueError _) =>
                    revert_swap G u v x y ;;;
                    rego_loop n_iter' G st
                | Raise e => mraise e
                | Ok new_rs =>
                    if Rgt_dec new_rs (current_rs st) then
                      let edges := NX.edges g1 in
                      rego_loop n_iter' G
                        (mkRego new_rs (rs_history st ++ [new_rs]) edges
                                (length edges) (S (accepted_swaps st))
                                (draws st))
                    else
                      revert_swap G u v x y ;;;
                      rego_loop n_iter' G st
                end
        end
  end.

(** [rego_optimizer] together with its local [accepted_swaps] counter
    (0 where the source has not introduced it yet). *)
Definition rego_run (G_initial : ref) (n_iter : Z)
  : M (ref * list R * nat) :=
  g0 <- read G_initial ;;
  c <- lift (NX.is_connected g0) ;;
  if negb c then
    mraise (ValueError "Initial graph must be connected for REGO optimization.")
  else
    G <- G_copy G_initial ;;
    g <- read G ;;
    match calculate_Rs pinv g with
    | Raise (ValueError _) => mret (G_initial, [], 0)
    | Raise e => mraise e
    | Ok rs0 =>
        let history0 := [rs0] in
        let edges0 := NX.edges g in
        if length edges0 <? 2 then mret (G, history0, 0)
        else
          st <- rego_loop (Z.to_nat n_iter) G
                  (mkRego rs0 history0 edges0 (length edges0) 0 0) ;;
          mret (G, rs_history st, accepted_swaps st)
    end.

Definition rego_optimizer (G_initial : ref) (n_iter : Z) : M (ref * list R) :=
  r <- rego_run G_initial n_iter ;;
  mret (fst r).

End RewireOptimizer.

(* ------------------------------------------------------------------ *)
(** ** Well-formed graphs

    What networkx maintains for every simple undirected graph: node keys
    are unique, neighbour keys are unique, there is no self-loop, and
    [v in adj[u]] goes with [u in adj[v]]. *)

Fixpoint nodupb (l : list node) : bool :=
  match l with
  | [] => true
  | x :: l' => negb (mem x l') && nodupb l'
  end.

Definition wf_entry (G : Graph) (e : node * list node) : bool :=
  nodupb (snd e) && negb (mem (fst e) (snd e))
    && forallb (fun v => NX.has_edge G v (fst e)) (snd e).

Definition wfb (G : Graph) : bool :=
  nodupb (NX.nodes G) && forallb (wf_entry G) G.

Definition wf (G : Graph) : Prop := wfb G = true.

(** Some small graphs. *)
Definition single_edge : Graph := [(0, [1]); (1, [0])].
Definition path3 : Graph := [(0, [1]); (1, [0; 2]); (2, [1])].
Definition cycle4 : Graph :=
  [(0, [1; 3]); (1, [0; 2]); (2, [1; 3]); (3, [2; 0])].
Definition edge_and_isolated : Graph := [(0, [1]); (1, [0]); (2, [])].
Definition path6 : Graph :=
  [(0, [1]); (1, [0; 2]); (2, [1; 3]); (3, [2; 4]); (4, [3; 5]); (5, [4])].

(** The working graphs of a greedy run: each target is reported by
    [edges()] of the graph it is removed from. *)
Inductive removal_chain : Graph -> list edge -> Graph -> Prop :=
| chain_done : forall G, removal_chain G [] G
| chain_step : forall G e G1 es G',
    In e (NX.edges G) ->
    NX.remove_edge G (fst e) (snd e) = Ok G1 ->
    removal_chain G1 es G' ->
    removal_chain G (e :: es) G'.

(** Same nodes in the same order, same adjacency relation. *)
Definition graph_equiv (G1 G2 : Graph) : Prop :=
  NX.nodes G1 = NX.nodes G2 /\
  forall u v, NX.has_edge G1 u v = NX.has_edge G2 u v.

Fixpoint strictly_increasing (l : list R) : Prop :=
  match l with
  | [] => True
  | x :: l' =>
      match l' with
      | [] => True
      | y :: _ => (x < y)%R /\ strictly_increasing l'
      end
  end.

Fixpoint non_decreasing (l : list R) : Prop :=
  match l with
  | [] => True
  | x :: l' =>
      match l' with
      | [] => True
      | y :: _ => (x <= y)%R /\ non_decreasing l'
      end
  end.

(* ------------------------------------------------------------------ *)
(** ** The metric as the specification words it *)

Definition Rsum (xs : list R) : R := fold_right Rplus 0%R xs.

Fixpoint index_of (ns : list node) (u : node) : nat :=
  match ns with
  | [] => 0
  | n :: ns' => if u =? n then 0 else S (index_of ns' u)
  end.

Definition entry (M : Matrix) (i j : nat) : R := nth j (nth i M []) 0%R.

(** Degree of a node and mean degree over all nodes. *)
Definition deg (G : Graph) (u : node) : nat :=
  match dict_get Nat.eqb (NX.degree G) u with
  | Some d => d
  | None => 0
  end.

Definition mean_degree (G : Graph) : R :=
  (Rsum (map (fun u => INR (deg G u)) (NX.nodes G)) / INR (length (NX.nodes G)))%R.

(** [w_uv = 1 - (|d_u - d_bar| + |d_v - d_bar|) / (2 N d_bar)] *)
Definition penalty_formula (G : Graph) (e : edge) : R :=
  let d_bar := mean_degree G in
  let N := INR (length (NX.nodes G)) in
  (1 - (Rabs (INR (deg G (fst e)) - d_bar) + Rabs (INR (deg G (snd e)) - d_bar))
       / (2 * N * d_bar))%R.

Definition spec_weight (G : Graph) (e : edge) : R :=
  if Req_dec_T (mean_degree G) 0 then 1%R else penalty_formula G e.

Definition spec_structuralPenaltyWeights (G : Graph) : dict edge R :=
  match NX.nodes G, NX.edges G with
  | [], _ => []
  | _, [] => []
  | _, es => map (fun e => (e, spec_weight G e)) es
  end.

(** [Omega_uv = L+_uu + L+_vv - 2 L+_uv], clamped to [>= 0]. *)
Definition spec_omega (L_plus : Matrix) (G : Graph) (e : edge) : R :=
  let i := index_of (NX.nodes G) (fst e) in
  let j := index_of (NX.nodes G) (snd e) in
  Rmax 0 (entry L_plus i i + entry L_plus j j - 2 * entry L_plus i j).

(** [p ln(1/p) w], and [0] at [p = 0]. *)
Definition spec_term (p w : R) : R :=
  if Req_dec_T p 0 then 0%R else (p * ln (1 / p) * w)%R.

Definition spec_rs (pinv : Matrix -> Matrix) (G : Graph) : R :=
  match NX.edges G with
  | [] => 0%R
  | es =>
      let L_plus := pinv (NXL.laplacian_matrix G) in
      let T := Rsum (map (spec_omega L_plus G) es) in
      if Req_dec_T T 0 then 0%R
      else Rsum (map (fun e => spec_term (spec_omega L_plus G e / T)
                                          (spec_weight G e)) es)
  end.

(* ------------------------------------------------------------------ *)
(** ** Notions used in the proofs *)

(** Graphs obtained by rewriting every neighbour list in place. *)
Definition rewrite_adj (f : node -> list node -> list node) (G : Graph) : Graph :=
  map (fun e => (fst e, f (fst e) (snd e))) G.

Definition rm (a b : node) (n : node) (l : list node) : list node :=
  if n =? a then NX.drop b l else if n =? b then NX.drop a l else l.

Definition ad (a b : node) (n : node) (l : list node) : list node :=
  if (n =? a) && negb (mem b l) then l ++ [b] else l.

(** The edges that [remove_edge a b] leaves. *)
Definition keeps (a b : node) (e : edge) : bool :=
  negb (edge_eqb e (a, b) || edge_eqb e (b, a)).

(** A run that leaves every object but [cur] as it was. *)
Definition frame_except (cur : ref) (h h' : Heap) : Prop :=
  length h <= length h' /\
  forall r, r < length h -> r <> cur -> deref h' r = deref h r.

Definition len (G : Graph) (n : node) : nat := length (NX.nbrs_of G n).

Definition inc (a b n : node) : nat := if (n =? a) || (n =? b) then 1 else 0.

Definition rewire (g : Graph) (a1 b1 a2 b2 c1 d1 c2 d2 : node) : result Graph :=
  (g1 <- NX.remove_edge g a1 b1 ;;
   g2 <- NX.remove_edge g1 a2 b2 ;;
   Ok (NX.add_edge (NX.add_edge g2 c1 d1) c2 d2))%result.

Definition history_ok (rs0 : R) (st : rego_state) : Prop :=
  hd_error (rs_history st) = Some rs0
  /\ last (rs_history st) rs0 = current_rs st
  /\ strictly_increasing (rs_history st)
  /\ length (rs_history st) = S (accepted_swaps st).

(** What every iteration of the loop re-establishes for the working graph
    [g] and the loop variables. *)
Definition rego_inv (degrees : dict node nat) (rs0 : R)
           (g : Graph) (st : rego_state) : Prop :=
  wf g
  /\ NX.is_connected g = Ok true
  /\ NX.degree g = degrees
  /\ (forall e, In e (edges st) -> NX.has_edge g (fst e) (snd e) = true)
  /\ n_edges st = length (edges st)
  /\ history_ok rs0 st.

(** The loop variables of [rego_optimizer] when its [for] loop starts
    (lines 39-51). *)
Definition rego_initial_state (rs0 : R) (g : Graph) : rego_state :=
  mkRego rs0 [rs0] (NX.edges g) (length (NX.edges g)) 0 0.

(** The pseudoinverse of the Laplacian [[1, -1], [-1, 1]] of a single edge
    is a quarter of it; dividing every entry by 4 keeps any shape. *)
Definition quarter (M : Matrix) : Matrix :=
  map (map (fun x => (x / 4)%R)) M.

(** The pseudoinverse of the Laplacian of [edge_and_isolated]. *)
Definition pinv_edge_and_isolated : Matrix :=
  [[(1/4)%R; (-1/4)%R; 0%R]; [(-1/4)%R; (1/4)%R; 0%R]; [0%R; 0%R; 0%R]].

(** A random source that always draws the first and the last index. *)
Definition first_and_last (k n : nat) : nat * nat := (0, n - 1).

(* ------------------------------------------------------------------ *)
(** ** src/clinical_analysis.py: reconstruct_vascular_network *)

(** The pairs zipped from [A.nonzero()]: the positions of the non-zero
    entries, row by row. *)
Definition nonzero_row (i : nat) (row : list R) : list (nat * nat) :=
  map (fun jx => (i, fst jx))
      (filter (fun jx => if Req_dec_T (snd jx) 0 then false else true)
              (combine (seq 0 (length row)) row)).

Definition nonzero (A : Matrix) : list (nat * nat) :=
  flat_map (fun ir => nonzero_row (fst ir) (snd ir))
           (combine (seq 0 (length A)) A).

(** [nx.from_numpy_array(A)] for a 2-dimensional array of floats, given as
    the list of its rows: an array that is not square is refused; the nodes
    are [range(n)], and every non-zero entry adds its edge. *)
Definition from_numpy_array (A : Matrix) : result Graph :=
  let n := length A in
  if forallb (fun row => length row =? n) A then
    let G := map (fun i => (i, @nil node)) (seq 0 n) in
    Ok (fold_left (fun G e => NX.add_edge G (fst e) (snd e)) (nonzero A) G)
  else Raise NetworkXError.

(** Lines 23-34. Both the graph built from the matrix and the copy of its
    largest component are new objects. *)
Definition reconstruct_vascular_network (adj_matrix : Matrix) : M ref :=
  (g0 <- lift (from_numpy_array adj_matrix) ;;
   G <- alloc g0 ;;
   g <- read G ;;
   c <- lift (NX.is_connected g) ;;
   if negb c then
     cc <- lift (of_option (ValueError "max() arg is an empty sequence")
                           (NX.max_by_len (NX.connected_components g))) ;;
     alloc (NX.subgraph g cc)
   else mret G)%heap.

(* ------------------------------------------------------------------ *)
(** ** Undirected graphs and reachability *)

(** [wf] without the ban on self-loops: what networkx maintains for every
    [Graph]. *)
Definition undirected_entry (G : Graph) (e : node * list node) : bool :=
  nodupb (snd e) && forallb (fun v => NX.has_edge G v (fst e)) (snd e).

Definition undirectedb (G : Graph) : bool :=
  nodupb (NX.nodes G) && forallb (undirected_entry G) G.

Definition undirected (G : Graph) : Prop := undirectedb G = true.

(** [sum(f(n) for n in ns)] *)
Definition total (f : node -> nat) (ns : list node) : nat :=
  fold_right Nat.add 0 (map f ns).

(** A set of nodes that no edge leaves. *)
Definition closed (G : Graph) (S : list node) : Prop :=
  forall u v, In u S -> NX.has_edge G u v = true -> In v S.

(** There is a walk from [s] along edges of [G]. *)
Inductive reachable (G : Graph) (s : node) : node -> Prop :=
| reach_here : reachable G s s
| reach_step : forall u v,
    reachable G s u -> NX.has_edge G u v = true -> reachable G s v.

(* ------------------------------------------------------------------ *)
(** ** The distribution over the edges *)

(** Lines 117 and 121 of [calculate_Rs]: the total of the clamped
    resistances and the share that an edge has in it. *)
Definition omega_total (pinv : Matrix -> Matrix) (G : Graph) : R :=
  Rsum (map (spec_omega (pinv (NXL.laplacian_matrix G)) G) (NX.edges G)).

Definition omega_share (pinv : Matrix -> Matrix) (G : Graph) (e : edge) : R :=
  (spec_omega (pinv (NXL.laplacian_matrix G)) G e / omega_total pinv G)%R.

(* ------------------------------------------------------------------ *)
(** ** Further examples *)

(** [path3] with the neighbours of node 1 inserted in the other order. *)
Definition path3_reordered : Graph := [(0, [1]); (1, [2; 0]); (2, [1])].

Definition identity2 : Matrix := [[1%R; 0%R]; [0%R; 1%R]].

(** An adjacency matrix with the edge 0-1 and the isolated node 2, and a
    matrix with two rows and three columns. *)
Definition adjacency3 : Matrix :=
  [[0%R; 1%R; 0%R]; [1%R; 0%R; 0%R]; [0%R; 0%R; 0%R]].

Definition two_by_three : Matrix := [[0%R; 1%R; 0%R]; [1%R; 0%R; 0%R]].

(** A star: the centre 0 and four leaves. *)
Definition star5 : Graph :=
  [(0, [1; 2; 3; 4]); (1, [0]); (2, [0]); (3, [0]); (4, [0])].

(** The two edges have an endpoint in common. *)
Definition share_node (e1 e2 : edge) : Prop :=
  fst e1 = fst e2 \/ fst e1 = snd e2 \/ snd e1 = fst e2 \/ snd e1 = snd e2.

(* ------------------------------------------------------------------ *)
(** ** One round of the greedy search *)

(** Lines 96-114 for one candidate [edge] of the working graph: the score
    of the largest component that its removal leaves; [None] where the
    source skips the candidate. *)
Definition score_without (pinv : Matrix -> Matrix) (g : Graph) (edge : edge)
  : result (option R) :=
  (temp <- NX.remove_edge g (fst edge) (snd edge) ;;
   largest_cc_graph <- largest_cc temp ;;
   rs_after pinv largest_cc_graph)%result.

(** The rounds of a run that starts from the score [base] on the graph [g]:
    the target of a round is the first candidate in [edges()] order whose
    score is the highest, its gain is measured against the score selected in
    the round before, and the target is removed from the working graph. *)
Inductive greedy_trace (pinv : Matrix -> Matrix)
  : R -> Graph -> list edge -> list ext_real -> Graph -> Prop :=
| trace_done : forall base g, greedy_trace pinv base g [] [] g
| trace_step : forall base g pre e post r g1 ts ds g',
    NX.edges g = pre ++ e :: post ->
    score_without pinv g e = Ok (Some r) ->
    (forall e', In e' pre ->
       exists r', score_without pinv g e' = Ok (Some r') /\ (r' < r)%R) ->
    (forall e', In e' post ->
       exists r', score_without pinv g e' = Ok (Some r') /\ (r' <= r)%R) ->
    NX.remove_edge g (fst e) (snd e) = Ok g1 ->
    greedy_trace pinv r g1 ts ds g' ->
    greedy_trace pinv base g (e :: ts) (Fin (r - base) :: ds) g'.

(** What the inner loop has selected from [cands], started in state [st]. *)
Definition selected (pinv : Matrix -> Matrix) (g : Graph) (irs : R)
           (cands : list edge) (st st' : candidate_state) : Prop :=
  (st' = st
   /\ forall e, In e cands ->
        exists r, score_without pinv g e = Ok (Some r)
                  /\ ext_gt (r - irs) (max_delta_rs st) = false)
  \/ exists pre e post r,
       cands = pre ++ e :: post
       /\ st' = mkCand (Some e) (Fin (r - irs)) r
       /\ score_without pinv g e = Ok (Some r)
       /\ ext_gt (r - irs) (max_delta_rs st) = true
       /\ (forall e', In e' pre ->
             exists r', score_without pinv g e' = Ok (Some r') /\ (r' < r)%R)
       /\ (forall e', In e' post ->
             exists r', score_without pinv g e' = Ok (Some r') /\ (r' <= r)%R).

(* ------------------------------------------------------------------ *)
(** ** Lists, membership and dictionaries *)

Lemma mem_In x l : mem x l = true <-> In x l.
Proof.
  unfold mem. rewrite existsb_exists. split.
  - intros [y [Hy E]]. apply Nat.eqb_eq in E. now subst.
  - intros H. exists x. split; [assumption | apply Nat.eqb_refl].
Qed.

Lemma mem_false x l : mem x l = false <-> ~ In x l.
Proof.
  rewrite <- mem_In. destruct (mem x l); split; congruence.
Qed.

Lemma nodupb_NoDup l : nodupb l = true <-> NoDup l.
Proof.
  induction l as [|x l IH]; simpl.
  - split; [constructor | reflexivity].
  - rewrite andb_true_iff, negb_true_iff, mem_false, IH. split.
    + intros [H1 H2]. now constructor.
    + intros H. inversion H. now split.
Qed.

Lemma edge_eqb_eq e1 e2 : edge_eqb e1 e2 = true <-> e1 = e2.
Proof.
  destruct e1 as [a b], e2 as [c d]. unfold edge_eqb. simpl.
  rewrite andb_true_iff, !Nat.eqb_eq. split.
  - intros [-> ->]. reflexivity.
  - intros E. inversion E. now split.
Qed.

Section DictFacts.
Variables K V : Type.
Variable eqb : K -> K -> bool.
Hypothesis eqb_eq : forall a b, eqb a b = true <-> a = b.

Lemma eqb_refl' a : eqb a a = true.
Proof. now apply eqb_eq. Qed.

Lemma eqb_neq a b : a <> b -> eqb a b = false.
Proof.
  intros N. destruct (eqb a b) eqn:E; [|reflexivity].
  apply eqb_eq in E. contradiction.
Qed.

Lemma dict_set_fresh (d : dict K V) k v :
  ~ In k (dict_keys d) -> dict_set eqb d k v = d ++ [(k, v)].
Proof.
  induction d as [|[k' v'] d IH]; simpl; intros N; [reflexivity|].
  rewrite eqb_neq by (intros ->; apply N; now left).
  f_equal. apply IH. intros H. apply N. now right.
Qed.

Lemma dict_fill (items acc : dict K V) :
  NoDup (dict_keys acc ++ dict_keys items) ->
  fold_left (fun d kv => dict_set eqb d (fst kv) (snd kv)) items acc
  = acc ++ items.
Proof.
  revert acc. induction items as [|[k v] items IH]; simpl; intros acc ND.
  - now rewrite app_nil_r.
  - rewrite dict_set_fresh.
    + rewrite IH.
      * now rewrite <- app_assoc.
      * unfold dict_keys in *. rewrite map_app. simpl.
        rewrite <- app_assoc. exact ND.
    + intros H. apply NoDup_remove_2 in ND. apply ND.
      apply in_or_app. now left.
Qed.

Lemma dict_of_list_nodup (items : list (K * V)) :
  NoDup (map fst items) -> dict_of_list eqb items = items.
Proof.
  intros ND. unfold dict_of_list. now rewrite dict_fill.
Qed.

Lemma dict_get_map (f : K -> V) (l : list K) k :
  In k l -> dict_get eqb (map (fun x => (x, f x)) l) k = Some (f k).
Proof.
  induction l as [|x l IH]; simpl; intros H; [contradiction|].
  destruct (eqb k x) eqn:E.
  - apply eqb_eq in E. now subst.
  - destruct H as [-> | H]; [|now apply IH].
    rewrite eqb_refl' in E. discriminate.
Qed.

Lemma dict_get_In (d : dict K V) k v :
  NoDup (dict_keys d) -> In (k, v) d -> dict_get eqb d k = Some v.
Proof.
  induction d as [|[k' v'] d IH]; simpl; intros ND H; [contradiction|].
  inversion ND as [|? ? N ND']; subst.
  destruct H as [E | H].
  - inversion E; subst. now rewrite eqb_refl'.
  - destruct (eqb k k') eqn:E.
    + apply eqb_eq in E. subst. exfalso. apply N.
      change k' with (fst (k', v)). now apply in_map.
    + now apply IH.
Qed.

Lemma dict_get_Some_In (d : dict K V) k v :
  dict_get eqb d k = Some v -> In (k, v) d.
Proof.
  induction d as [|[k' v'] d IH]; simpl; [discriminate|].
  destruct (eqb k k') eqn:E.
  - apply eqb_eq in E. intros [= ->]. subst. now left.
  - intros H. right. now apply IH.
Qed.

Lemma dict_get_None (d : dict K V) k :
  dict_get eqb d k = None <-> ~ In k (dict_keys d).
Proof.
  induction d as [|[k' v'] d IH]; simpl.
  - split; [tauto | reflexivity].
  - destruct (eqb k k') eqn:E.
    + apply eqb_eq in E. subst. split; [discriminate | intros N; exfalso; apply N; now left].
    + rewrite IH. split.
      * intros N [H | H]; [|contradiction]. subst. rewrite eqb_refl' in E. discriminate.
      * intros N H. apply N. now right.
Qed.

End DictFacts.

(* ------------------------------------------------------------------ *)
(** ** The graph model on small graphs *)

Example edges_cycle4 : NX.edges cycle4 = [(0, 1); (0, 3); (1, 2); (2, 3)].
Proof. reflexivity. Qed.

Example cycle4_connected : NX.is_connected cycle4 = Ok true.
Proof. reflexivity. Qed.

Example edge_and_isolated_disconnected :
  NX.is_connected edge_and_isolated = Ok false.
Proof. reflexivity. Qed.

Example null_graph_connectivity :
  NX.is_connected [] = Raise NetworkXPointlessConcept.
Proof. reflexivity. Qed.

Example cycle4_less_an_edge :
  NX.remove_edge cycle4 0 3
  = Ok [(0, [1]); (1, [0; 2]); (2, [1; 3]); (3, [2])].
Proof. reflexivity. Qed.

Example remove_absent_edge : NX.remove_edge cycle4 0 2 = Raise NetworkXError.
Proof. reflexivity. Qed.

Example path3_closed :
  NX.add_edge path3 0 2 = [(0, [1; 2]); (1, [0; 2]); (2, [1; 0])].
Proof. reflexivity. Qed.

Example components_after_cut :
  NX.connected_components [(0, []); (1, [2]); (2, [1])] = [[0]; [1; 2]]
  /\ NX.max_by_len [[0]; [1; 2]] = Some [1; 2]
  /\ NX.subgraph [(0, []); (1, [2]); (2, [1])] [1; 2] = [(1, [2]); (2, [1])].
Proof. repeat split. Qed.

Example degrees_cycle4 : NX.degree cycle4 = [(0, 2); (1, 2); (2, 2); (3, 2)].
Proof. reflexivity. Qed.

Example laplacian_edge_and_isolated :
  NXL.laplacian_matrix edge_and_isolated
  = [[1%R; (-1)%R; 0%R]; [(-1)%R; 1%R; 0%R]; [0%R; 0%R; 0%R]].
Proof.
  unfold NXL.laplacian_matrix, NXL.A, py_sum. simpl.
  repeat (f_equal; try lra).
Qed.

Example small_graphs_wf :
  wf single_edge /\ wf path3 /\ wf cycle4 /\ wf edge_and_isolated /\ wf path6.
Proof. repeat split. Qed.

(* ------------------------------------------------------------------ *)
(** ** Adjacency *)

Lemma adj_In G u l : NoDup (NX.nodes G) -> In (u, l) G -> NX.adj G u = Some l.
Proof. intros ND H. apply (@dict_get_In _ _ Nat.eqb Nat.eqb_eq); assumption. Qed.

Lemma adj_Some_In G u l : NX.adj G u = Some l -> In (u, l) G.
Proof. apply (@dict_get_Some_In _ _ Nat.eqb Nat.eqb_eq). Qed.

Lemma adj_None G u : NX.adj G u = None <-> ~ In u (NX.nodes G).
Proof. apply (@dict_get_None _ _ Nat.eqb Nat.eqb_eq). Qed.

Lemma adj_node G u l : NX.adj G u = Some l -> In u (NX.nodes G).
Proof.
  intros H. apply adj_Some_In in H. change u with (fst (u, l)). now apply in_map.
Qed.

Lemma has_edge_adj G u v :
  NX.has_edge G u v = true <-> exists l, NX.adj G u = Some l /\ In v l.
Proof.
  unfold NX.has_edge. destruct (NX.adj G u) as [l|].
  - rewrite mem_In. split; [intros H; now exists l | intros [l' [[= ->] H]]; exact H].
  - split; [discriminate | intros [l [E _]]; discriminate].
Qed.

Lemma has_edge_node G u v : NX.has_edge G u v = true -> In u (NX.nodes G).
Proof. rewrite has_edge_adj. intros [l [E _]]. eapply adj_node; eauto. Qed.

Lemma nbrs_of_In G u v : In v (NX.nbrs_of G u) <-> NX.has_edge G u v = true.
Proof.
  unfold NX.nbrs_of, NX.has_edge. destruct (NX.adj G u).
  - now rewrite mem_In.
  - simpl. split; [contradiction | discriminate].
Qed.

Lemma rewrite_adj_nodes f G : NX.nodes (rewrite_adj f G) = NX.nodes G.
Proof.
  unfold NX.nodes, rewrite_adj. rewrite map_map. reflexivity.
Qed.

Lemma rewrite_adj_adj f G u :
  NX.adj (rewrite_adj f G) u = option_map (f u) (NX.adj G u).
Proof.
  unfold NX.adj. induction G as [|[n l] G IH]; simpl; [reflexivity|].
  destruct (u =? n) eqn:E.
  - apply Nat.eqb_eq in E. now subst.
  - exact IH.
Qed.

Lemma rewrite_adj_length f G : length (rewrite_adj f G) = length G.
Proof. unfold rewrite_adj. apply length_map. Qed.

Lemma remove_edge_eq G a b G' :
  NX.remove_edge G a b = Ok G' ->
  NX.has_edge G a b = true /\ G' = rewrite_adj (rm a b) G.
Proof.
  unfold NX.remove_edge. destruct (NX.has_edge G a b); [|discriminate].
  intros [= <-]. split; [reflexivity|].
  unfold rewrite_adj, rm. apply map_ext. intros [n l]. reflexivity.
Qed.

Lemma remove_edge_ok G a b :
  NX.has_edge G a b = true -> NX.remove_edge G a b = Ok (rewrite_adj (rm a b) G).
Proof.
  intros H. unfold NX.remove_edge. rewrite H. f_equal.
  unfold rewrite_adj, rm. apply map_ext. intros [n l]. reflexivity.
Qed.

Lemma add_nbr_eq G a b : NX.add_nbr G a b = rewrite_adj (ad a b) G.
Proof.
  unfold NX.add_nbr, rewrite_adj, ad. apply map_ext. intros [n l]. reflexivity.
Qed.

Lemma add_node_old G a : In a (NX.nodes G) -> NX.add_node G a = G.
Proof.
  intros H. unfold NX.add_node, NX.has_node.
  apply mem_In in H. now rewrite H.
Qed.

Lemma add_edge_eq G a b :
  In a (NX.nodes G) -> In b (NX.nodes G) ->
  NX.add_edge G a b = rewrite_adj (ad b a) (rewrite_adj (ad a b) G).
Proof.
  intros Ha Hb. unfold NX.add_edge.
  rewrite (add_node_old G a Ha), (add_node_old G b Hb).
  now rewrite !add_nbr_eq.
Qed.

Lemma mem_drop v b l : mem v (NX.drop b l) = mem v l && negb (v =? b).
Proof.
  unfold NX.drop. induction l as [|x l IH]; simpl; [reflexivity|].
  destruct (x =? b) eqn:E; simpl.
  - rewrite IH. apply Nat.eqb_eq in E. subst x.
    destruct (v =? b) eqn:E2; simpl.
    + now rewrite andb_false_r.
    + reflexivity.
  - rewrite IH. destruct (v =? x) eqn:E2; simpl; [|reflexivity].
    apply Nat.eqb_eq in E2. subst x. now rewrite E.
Qed.

Lemma mem_app x l1 l2 : mem x (l1 ++ l2) = mem x l1 || mem x l2.
Proof. unfold mem. apply existsb_app. Qed.

Lemma mem_rm a b n v l :
  mem v (rm a b n l)
  = mem v l && negb (((n =? a) && (v =? b)) || ((n =? b) && (v =? a))).
Proof.
  unfold rm. destruct (n =? a) eqn:Ea; simpl.
  - rewrite mem_drop. destruct (v =? b) eqn:Eb; simpl; [reflexivity|].
    destruct (n =? b) eqn:Enb; simpl; [|reflexivity].
    apply Nat.eqb_eq in Ea, Enb. subst.
    rewrite Eb. reflexivity.
  - destruct (n =? b) eqn:Eb; simpl.
    + now rewrite mem_drop.
    + now rewrite andb_true_r.
Qed.

Lemma mem_ad a b n v l :
  mem v (ad a b n l) = mem v l || ((n =? a) && (v =? b)).
Proof.
  unfold ad. destruct (n =? a) eqn:Ea; simpl.
  - destruct (mem b l) eqn:Eb; simpl.
    + destruct (v =? b) eqn:Evb; [|now rewrite orb_false_r].
      apply Nat.eqb_eq in Evb. subst. rewrite Eb. reflexivity.
    + rewrite mem_app. simpl. now rewrite orb_false_r.
  - now rewrite orb_false_r.
Qed.

Lemma has_edge_remove G a b G' u v :
  NX.remove_edge G a b = Ok G' ->
  NX.has_edge G' u v
  = NX.has_edge G u v
    && negb (((u =? a) && (v =? b)) || ((u =? b) && (v =? a))).
Proof.
  intros H. apply remove_edge_eq in H. destruct H as [_ ->].
  unfold NX.has_edge. rewrite rewrite_adj_adj.
  destruct (NX.adj G u) as [l|]; simpl; [apply mem_rm | reflexivity].
Qed.

Lemma has_edge_add G a b u v :
  In a (NX.nodes G) -> In b (NX.nodes G) ->
  NX.has_edge (NX.add_edge G a b) u v
  = NX.has_edge G u v || ((u =? a) && (v =? b)) || ((u =? b) && (v =? a)).
Proof.
  intros Ha Hb. rewrite add_edge_eq by assumption.
  unfold NX.has_edge. rewrite !rewrite_adj_adj.
  destruct (NX.adj G u) as [l|] eqn:E; simpl.
  - now rewrite !mem_ad.
  - apply adj_None in E.
    destruct (u =? a) eqn:Ea; [apply Nat.eqb_eq in Ea; subst; contradiction|].
    destruct (u =? b) eqn:Eb; [apply Nat.eqb_eq in Eb; subst; contradiction|].
    reflexivity.
Qed.

Lemma nodes_remove G a b G' :
  NX.remove_edge G a b = Ok G' -> NX.nodes G' = NX.nodes G.
Proof.
  intros H. apply remove_edge_eq in H. destruct H as [_ ->].
  apply rewrite_adj_nodes.
Qed.

Lemma nodes_add G a b :
  In a (NX.nodes G) -> In b (NX.nodes G) ->
  NX.nodes (NX.add_edge G a b) = NX.nodes G.
Proof.
  intros Ha Hb. rewrite add_edge_eq by assumption.
  now rewrite !rewrite_adj_nodes.
Qed.

(* ------------------------------------------------------------------ *)
(** ** Well-formedness is kept by the edge operations *)

Lemma wf_nodes G : wf G -> NoDup (NX.nodes G).
Proof.
  unfold wf, wfb. rewrite andb_true_iff, nodupb_NoDup. tauto.
Qed.

Lemma wf_entry_facts G n l :
  wf G -> In (n, l) G ->
  NoDup l /\ ~ In n l /\ forall v, In v l -> NX.has_edge G v n = true.
Proof.
  unfold wf, wfb. rewrite andb_true_iff, forallb_forall.
  intros [_ H] Hin. specialize (H _ Hin). unfold wf_entry in H. simpl in H.
  rewrite !andb_true_iff, nodupb_NoDup, negb_true_iff, mem_false,
    forallb_forall in H.
  tauto.
Qed.

Lemma wf_intro G :
  NoDup (NX.nodes G) ->
  (forall n l, In (n, l) G ->
     NoDup l /\ ~ In n l /\ forall v, In v l -> NX.has_edge G v n = true) ->
  wf G.
Proof.
  intros ND H. unfold wf, wfb. rewrite andb_true_iff, nodupb_NoDup.
  split; [assumption|]. rewrite forallb_forall. intros [n l] Hin.
  unfold wf_entry. simpl.
  rewrite !andb_true_iff, nodupb_NoDup, negb_true_iff, mem_false,
    forallb_forall.
  specialize (H _ _ Hin). tauto.
Qed.

Lemma wf_sym G u v : wf G -> NX.has_edge G u v = true -> NX.has_edge G v u = true.
Proof.
  intros W H. apply has_edge_adj in H. destruct H as [l [E Hin]].
  apply adj_Some_In in E.
  destruct (wf_entry_facts _ _ _ W E) as [_ [_ S]]. now apply S.
Qed.

Lemma wf_irrefl G u : wf G -> NX.has_edge G u u = false.
Proof.
  intros W. destruct (NX.has_edge G u u) eqn:H; [|reflexivity].
  apply has_edge_adj in H. destruct H as [l [E Hin]].
  apply adj_Some_In in E.
  destruct (wf_entry_facts _ _ _ W E) as [_ [N _]]. contradiction.
Qed.

Lemma rewrite_adj_In f G n l' :
  In (n, l') (rewrite_adj f G) -> exists l, In (n, l) G /\ l' = f n l.
Proof.
  unfold rewrite_adj. rewrite in_map_iff. intros [[n0 l] [E H]].
  simpl in E. inversion E; subst. now exists l.
Qed.

Lemma NoDup_drop b l : NoDup l -> NoDup (NX.drop b l).
Proof. apply NoDup_filter. Qed.

Lemma In_drop v b l : In v (NX.drop b l) <-> In v l /\ v <> b.
Proof.
  unfold NX.drop. rewrite filter_In, negb_true_iff, Nat.eqb_neq. tauto.
Qed.

Lemma In_rm a b n v l :
  In v (rm a b n l) <->
  In v l /\ ~ ((n = a /\ v = b) \/ (n = b /\ v = a)).
Proof.
  rewrite <- !mem_In, mem_rm, andb_true_iff, negb_true_iff, orb_false_iff,
    !andb_false_iff, !Nat.eqb_neq.
  tauto.
Qed.

Lemma In_ad a b n v l :
  In v (ad a b n l) <-> In v l \/ (n = a /\ v = b).
Proof.
  rewrite <- !mem_In, mem_ad, orb_true_iff, andb_true_iff, !Nat.eqb_eq.
  tauto.
Qed.

Lemma NoDup_rm a b n l : NoDup l -> NoDup (rm a b n l).
Proof.
  intros H. unfold rm.
  destruct (n =? a); [now apply NoDup_drop|].
  destruct (n =? b); [now apply NoDup_drop | assumption].
Qed.

Lemma NoDup_ad a b n l : NoDup l -> NoDup (ad a b n l).
Proof.
  intros H. unfold ad.
  destruct (n =? a); simpl; [|assumption].
  destruct (mem b l) eqn:E; simpl; [assumption|].
  apply mem_false in E.
  apply NoDup_rev in H. rewrite <- (rev_involutive (l ++ [b])).
  apply NoDup_rev. rewrite rev_app_distr. simpl. constructor; [|assumption].
  now rewrite <- in_rev.
Qed.

Lemma wf_remove_edge G a b G' :
  wf G -> NX.remove_edge G a b = Ok G' -> wf G'.
Proof.
  intros W H. pose proof (fun u v => has_edge_remove G a b G' u v H) as HE.
  pose proof (nodes_remove G a b G' H) as HN.
  apply remove_edge_eq in H. destruct H as [_ EG].
  apply wf_intro.
  - rewrite HN. now apply wf_nodes.
  - intros n l' Hin. rewrite EG in Hin.
    apply rewrite_adj_In in Hin. destruct Hin as [l [Hin ->]].
    destruct (wf_entry_facts _ _ _ W Hin) as [ND [NI S]].
    split; [now apply NoDup_rm|]. split.
    + rewrite In_rm. tauto.
    + intros v Hv. apply In_rm in Hv. destruct Hv as [Hv N].
      rewrite HE, (S _ Hv). simpl.
      rewrite negb_true_iff, orb_false_iff, !andb_false_iff, !Nat.eqb_neq.
      assert (v <> n) by (intros ->; contradiction).
      destruct (Nat.eq_dec n a), (Nat.eq_dec n b), (Nat.eq_dec v a),
        (Nat.eq_dec v b); subst; try tauto; try congruence.
Qed.

Lemma wf_add_edge G a b :
  wf G -> a <> b -> In a (NX.nodes G) -> In b (NX.nodes G) ->
  wf (NX.add_edge G a b).
Proof.
  intros W Hab Ha Hb.
  pose proof (fun u v => has_edge_add G a b u v Ha Hb) as HE.
  pose proof (nodes_add G a b Ha Hb) as HN.
  apply wf_intro.
  - rewrite HN. now apply wf_nodes.
  - intros n l' Hin. rewrite add_edge_eq in Hin by assumption.
    apply rewrite_adj_In in Hin. destruct Hin as [l1 [Hin ->]].
    apply rewrite_adj_In in Hin. destruct Hin as [l [Hin ->]].
    destruct (wf_entry_facts _ _ _ W Hin) as [ND [NI S]].
    split; [now apply NoDup_ad, NoDup_ad|]. split.
    + rewrite !In_ad. intros [[H | [-> ->]] | [-> ->]]; congruence.
    + intros v Hv. rewrite !In_ad in Hv. rewrite HE.
      rewrite !orb_true_iff, !andb_true_iff, !Nat.eqb_eq.
      destruct Hv as [[H | [-> ->]] | [-> ->]]; auto.
Qed.

(* ------------------------------------------------------------------ *)
(** ** The edge enumeration *)

Lemma edges_from_In seen G u v :
  In (u, v) (NX.edges_from seen G) ->
  exists l, In (u, l) G /\ In v l /\ ~ In v seen.
Proof.
  revert seen. induction G as [|[n l] G IH]; simpl; intros seen H;
    [contradiction|].
  apply in_app_or in H. destruct H as [H | H].
  - apply in_map_iff in H. destruct H as [m [E H]]. inversion E; subst.
    apply filter_In in H. destruct H as [H1 H2].
    apply negb_true_iff, mem_false in H2.
    exists l. repeat split; auto.
  - apply IH in H. destruct H as [l' [H1 [H2 H3]]].
    exists l'. repeat split; auto. intros N. apply H3. now right.
Qed.

Lemma edges_has_edge G u v :
  NoDup (NX.nodes G) -> In (u, v) (NX.edges G) -> NX.has_edge G u v = true.
Proof.
  intros ND H. apply edges_from_In in H. destruct H as [l [H1 [H2 _]]].
  apply has_edge_adj. exists l. split; [now apply adj_In | assumption].
Qed.

Lemma edges_endpoints G u v :
  wf G -> In (u, v) (NX.edges G) -> In u (NX.nodes G) /\ In v (NX.nodes G).
Proof.
  intros W H. apply edges_has_edge in H; [|now apply wf_nodes].
  split.
  - eapply has_edge_node; eauto.
  - apply wf_sym in H; [|assumption]. eapply has_edge_node; eauto.
Qed.

Lemma edges_distinct G u v : wf G -> In (u, v) (NX.edges G) -> u <> v.
Proof.
  intros W H E. subst. apply edges_has_edge in H; [|now apply wf_nodes].
  rewrite wf_irrefl in H by assumption. discriminate.
Qed.

Lemma edges_from_first seen G u v :
  In (u, v) (NX.edges_from seen G) -> In u (NX.nodes G).
Proof.
  intros H. apply edges_from_In in H. destruct H as [l [H _]].
  change u with (fst (u, l)). now apply in_map.
Qed.

Lemma edges_from_NoDup seen G :
  NoDup (NX.nodes G) -> (forall n l, In (n, l) G -> NoDup l) ->
  NoDup (NX.edges_from seen G).
Proof.
  revert seen. induction G as [|[n l] G IH]; simpl; intros seen ND HL.
  - constructor.
  - inversion ND as [|? ? Nn ND']; subst.
    apply NoDup_app.
    + apply Finite.Injective_map_NoDup.
      * intros x y E. now inversion E.
      * apply NoDup_filter. apply (HL n l). now left.
    + apply IH; [assumption|]. intros n' l' H. apply (HL n' l'). now right.
    + intros [a b] H1 H2. apply in_map_iff in H1.
      destruct H1 as [m [E _]]. inversion E; subst.
      apply edges_from_first in H2. contradiction.
Qed.

Lemma edges_NoDup G : wf G -> NoDup (NX.edges G).
Proof.
  intros W. apply edges_from_NoDup; [now apply wf_nodes|].
  intros n l H. now destruct (wf_entry_facts _ _ _ W H).
Qed.

Lemma edges_from_orient seen G u v :
  In (u, v) (NX.edges_from seen G) -> In (v, u) (NX.edges_from seen G) ->
  u = v.
Proof.
  revert seen. induction G as [|[n l] G IH]; simpl; intros seen H1 H2;
    [contradiction|].
  apply in_app_or in H1. apply in_app_or in H2.
  destruct H1 as [H1 | H1], H2 as [H2 | H2].
  - apply in_map_iff in H1. destruct H1 as [m [E _]].
    apply in_map_iff in H2. destruct H2 as [m' [E' _]].
    inversion E; inversion E'; subst. congruence.
  - apply in_map_iff in H1. destruct H1 as [m [E _]]. inversion E; subst.
    apply edges_from_In in H2. destruct H2 as [_ [_ [_ N]]].
    exfalso. apply N. now left.
  - apply in_map_iff in H2. destruct H2 as [m [E _]]. inversion E; subst.
    apply edges_from_In in H1. destruct H1 as [_ [_ [_ N]]].
    exfalso. apply N. now left.
  - eapply IH; eauto.
Qed.

Lemma rm_nil a b n : rm a b n [] = [].
Proof. unfold rm. destruct (n =? a), (n =? b); reflexivity. Qed.

Lemma rm_cons a b n m l :
  rm a b n (m :: l)
  = if keeps a b (n, m) then m :: rm a b n l else rm a b n l.
Proof.
  unfold rm, keeps, edge_eqb, NX.drop. simpl.
  destruct (n =? a) eqn:Ea; simpl.
  - destruct (m =? b) eqn:Eb; simpl; [reflexivity|].
    destruct (n =? b) eqn:Enb; simpl; [|reflexivity].
    apply Nat.eqb_eq in Ea, Enb. subst. now rewrite Eb.
  - destruct (n =? b) eqn:Eb; simpl; [|reflexivity].
    now destruct (m =? a).
Qed.

Lemma reported_rm a b n seen l :
  map (pair n) (filter (fun m => negb (mem m seen)) (rm a b n l))
  = filter (keeps a b)
           (map (pair n) (filter (fun m => negb (mem m seen)) l)).
Proof.
  induction l as [|m l IHl]; [now rewrite rm_nil|].
  rewrite rm_cons. simpl.
  destruct (keeps a b (n, m)) eqn:Ek; simpl;
    destruct (negb (mem m seen)); simpl; rewrite ?Ek, IHl; reflexivity.
Qed.

Lemma edges_from_rewrite_rm a b seen G :
  NX.edges_from seen (rewrite_adj (rm a b) G)
  = filter (keeps a b) (NX.edges_from seen G).
Proof.
  revert seen. induction G as [|[n l] G IH]; simpl; intros seen;
    [reflexivity|].
  now rewrite filter_app, IH, reported_rm.
Qed.

Lemma edges_remove G a b G' :
  NX.remove_edge G a b = Ok G' ->
  NX.edges G' = filter (keeps a b) (NX.edges G).
Proof.
  intros H. apply remove_edge_eq in H. destruct H as [_ ->].
  apply edges_from_rewrite_rm.
Qed.

(* ------------------------------------------------------------------ *)
(** ** Sums, node indices and matrix entries *)

Lemma fold_left_Rplus xs a : fold_left Rplus xs a = (a + Rsum xs)%R.
Proof.
  revert a. induction xs as [|x xs IH]; simpl; intros a.
  - lra.
  - rewrite IH. lra.
Qed.

Lemma py_sum_Rsum xs : py_sum xs = Rsum xs.
Proof. unfold py_sum. rewrite fold_left_Rplus. lra. Qed.

Lemma fold_left_add xs a : fold_left Nat.add xs a = a + fold_right Nat.add 0 xs.
Proof.
  revert a. induction xs as [|x xs IH]; simpl; intros a.
  - lia.
  - rewrite IH. lia.
Qed.

Lemma INR_sum_nat xs : INR (sum_nat xs) = Rsum (map INR xs).
Proof.
  unfold sum_nat. rewrite fold_left_add. simpl.
  induction xs as [|x xs IH]; simpl; [reflexivity|].
  now rewrite plus_INR, IH.
Qed.

Lemma Rsum_nonneg xs : Forall (fun x => (0 <= x)%R) xs -> (0 <= Rsum xs)%R.
Proof.
  induction 1 as [|x xs Hx _ IH]; simpl; lra.
Qed.

Lemma index_of_lt ns u : In u ns -> index_of ns u < length ns.
Proof.
  induction ns as [|n ns IH]; simpl; intros H; [contradiction|].
  destruct (u =? n) eqn:E; [lia|].
  apply Nat.eqb_neq in E. destruct H as [H | H]; [congruence|].
  apply IH in H. lia.
Qed.

Lemma combine_seq_get ns s u :
  In u ns ->
  dict_get Nat.eqb (combine ns (seq s (length ns))) u = Some (s + index_of ns u).
Proof.
  revert s. induction ns as [|n ns IH]; simpl; intros s H; [contradiction|].
  destruct (u =? n) eqn:E.
  - f_equal. lia.
  - apply Nat.eqb_neq in E. destruct H as [H | H]; [congruence|].
    rewrite IH by assumption. f_equal. lia.
Qed.

Lemma combine_seq_keys (ns : list node) s :
  map fst (combine ns (seq s (length ns))) = ns.
Proof.
  revert s. induction ns as [|n ns IH]; simpl; intros s; [reflexivity|].
  now rewrite IH.
Qed.

Lemma make_node_map_get ns u :
  NoDup ns -> In u ns ->
  dict_get Nat.eqb (make_node_map ns) u = Some (index_of ns u).
Proof.
  intros ND H. unfold make_node_map.
  rewrite (@dict_of_list_nodup _ _ Nat.eqb Nat.eqb_eq)
    by (now rewrite combine_seq_keys).
  now rewrite combine_seq_get.
Qed.

Lemma mget_entry M n i j :
  is_square n M -> i < n -> j < n -> mget M i j = Ok (entry M i j).
Proof.
  intros [HL HR] Hi Hj. unfold mget, entry.
  destruct (nth_error M i) as [row|] eqn:E.
  - assert (Hrow : length row = n).
    { rewrite Forall_forall in HR. apply HR. eapply nth_error_In; eauto. }
    rewrite (nth_error_nth _ _ [] E).
    destruct (nth_error row j) as [x|] eqn:E2.
    + simpl. now rewrite (nth_error_nth _ _ 0%R E2).
    + apply nth_error_None in E2. lia.
  - apply nth_error_None in E. lia.
Qed.

Lemma laplacian_square G : is_square (length G) (NXL.laplacian_matrix G).
Proof.
  unfold is_square, NXL.laplacian_matrix, NX.nodes. split.
  - now rewrite !length_map.
  - rewrite Forall_forall. intros row H. apply in_map_iff in H.
    destruct H as [u [<- _]]. now rewrite !length_map.
Qed.

Lemma degree_keys G : dict_keys (NX.degree G) = NX.nodes G.
Proof.
  unfold dict_keys, NX.degree, NX.nodes. rewrite map_map.
  apply map_ext. now intros [n l].
Qed.

Lemma degree_get G u :
  In u (NX.nodes G) -> dict_get Nat.eqb (NX.degree G) u = Some (deg G u).
Proof.
  intros H. unfold deg.
  destruct (dict_get Nat.eqb (NX.degree G) u) eqn:E; [reflexivity|].
  apply (@dict_get_None _ _ Nat.eqb Nat.eqb_eq) in E.
  rewrite degree_keys in E. contradiction.
Qed.

Lemma degree_values G :
  NoDup (NX.nodes G) -> dict_values (NX.degree G) = map (deg G) (NX.nodes G).
Proof.
  intros ND. unfold dict_values.
  assert (H : forall e, In e (NX.degree G) -> snd e = deg G (fst e)).
  { intros [n d] H. simpl. unfold deg.
    rewrite (@dict_get_In _ _ Nat.eqb Nat.eqb_eq _ n d); auto.
    now rewrite degree_keys. }
  rewrite <- degree_keys. unfold dict_keys. rewrite map_map.
  apply map_ext_in. exact H.
Qed.

Lemma mean_degree_eq G :
  NoDup (NX.nodes G) ->
  (INR (sum_nat (dict_values (NX.degree G))) / INR (NX.number_of_nodes G))%R
  = mean_degree G.
Proof.
  intros ND. unfold mean_degree, NX.number_of_nodes.
  rewrite INR_sum_nat, degree_values, map_map by assumption.
  unfold NX.nodes. now rewrite length_map.
Qed.

(* ------------------------------------------------------------------ *)
(** ** The metric computes what the specification words *)

Lemma keys_map_pair (f : edge -> R) (es : list edge) :
  dict_keys (map (fun e => (e, f e)) es) = es.
Proof.
  unfold dict_keys. rewrite map_map. simpl. apply map_id.
Qed.

Lemma resistance_loop_spec G L es acc :
  wf G -> is_square (length G) L ->
  incl es (NX.edges G) ->
  NoDup (dict_keys acc ++ es) ->
  resistance_loop L (make_node_map (NX.nodes G)) es acc
  = Ok (acc ++ map (fun e => (e, spec_omega L G e)) es).
Proof.
  intros W SQ. revert acc.
  induction es as [|[u v] es IH]; simpl; intros acc HI ND.
  - now rewrite app_nil_r.
  - assert (Hin : In (u, v) (NX.edges G)) by (apply HI; now left).
    destruct (edges_endpoints G u v W Hin) as [Hu Hv].
    pose proof (wf_nodes G W) as NDn.
    rewrite !make_node_map_get by assumption. simpl.
    assert (LN : length (NX.nodes G) = length G)
      by (unfold NX.nodes; apply length_map).
    pose proof (index_of_lt _ _ Hu) as Li. pose proof (index_of_lt _ _ Hv) as Lj.
    rewrite LN in Li, Lj.
    rewrite !(mget_entry L (length G)) by assumption. simpl.
    rewrite (@dict_set_fresh _ _ edge_eqb edge_eqb_eq).
    + rewrite IH.
      * rewrite <- app_assoc. reflexivity.
      * intros e He. apply HI. now right.
      * unfold dict_keys in *. rewrite map_app. simpl.
        rewrite <- app_assoc. exact ND.
    + apply NoDup_remove_2 in ND. intros N. apply ND.
      apply in_or_app. now left.
Qed.

Lemma weights_loop_spec G d_bar denominator es acc :
  wf G ->
  incl es (NX.edges G) ->
  NoDup (dict_keys acc ++ es) ->
  weights_loop (NX.degree G) d_bar denominator es acc
  = Ok (acc ++ map (fun e =>
                      (e, (1 - (Rabs (INR (deg G (fst e)) - d_bar)
                                + Rabs (INR (deg G (snd e)) - d_bar))
                               / denominator)%R)) es).
Proof.
  intros W. revert acc.
  induction es as [|[u v] es IH]; simpl; intros acc HI ND.
  - now rewrite app_nil_r.
  - assert (Hin : In (u, v) (NX.edges G)) by (apply HI; now left).
    destruct (edges_endpoints G u v W Hin) as [Hu Hv].
    rewrite !degree_get by assumption. simpl.
    rewrite (@dict_set_fresh _ _ edge_eqb edge_eqb_eq).
    + rewrite IH.
      * rewrite <- app_assoc. reflexivity.
      * intros e He. apply HI. now right.
      * unfold dict_keys in *. rewrite map_app. simpl.
        rewrite <- app_assoc. exact ND.
    + apply NoDup_remove_2 in ND. intros N. apply ND.
      apply in_or_app. now left.
Qed.

Lemma ones_dict (es : list edge) :
  NoDup es ->
  dict_of_list edge_eqb (map (fun e => (e, 1%R)) es)
  = map (fun e => (e, 1%R)) es.
Proof.
  intros ND. apply (@dict_of_list_nodup _ _ edge_eqb edge_eqb_eq).
  rewrite map_map. simpl. now rewrite map_id.
Qed.

Lemma structural_weights_refine G :
  wf G ->
  calculate_structural_penalty_weights G
  = Ok (spec_structuralPenaltyWeights G).
Proof.
  intros W. unfold calculate_structural_penalty_weights,
    spec_structuralPenaltyWeights, NX.number_of_edges.
  pose proof (wf_nodes G W) as NDn. pose proof (edges_NoDup G W) as NDe.
  rewrite mean_degree_eq by assumption.
  destruct G as [|[n0 l0] G0] eqn:EG; [reflexivity|]. rewrite <- EG in *.
  assert (EN : NX.nodes G = n0 :: NX.nodes G0) by (now rewrite EG).
  rewrite EN.
  replace (NX.number_of_nodes G =? 0) with false
    by (now rewrite EG).
  simpl orb.
  destruct (NX.edges G) as [|e0 es0] eqn:EE; [reflexivity|].
  simpl length. simpl Nat.eqb. cbv iota.
  unfold spec_weight.
  destruct (Req_dec_T (mean_degree G) 0) as [Z | NZ].
  - rewrite ones_dict by assumption. reflexivity.
  - destruct (Req_dec_T (2 * INR (NX.number_of_nodes G) * mean_degree G) 0)
      as [Z2 | NZ2].
    + exfalso. apply Rmult_integral in Z2. destruct Z2 as [Z2 | Z2];
        [|contradiction].
      apply Rmult_integral in Z2. destruct Z2 as [Z2 | Z2]; [lra|].
      rewrite EG in Z2. unfold NX.number_of_nodes in Z2.
      change 0%R with (INR 0) in Z2.
      apply INR_eq in Z2. simpl in Z2. discriminate.
    + rewrite weights_loop_spec; [| assumption | rewrite EE; apply incl_refl
                                 | exact NDe ].
      cbn [app]. apply f_equal. apply map_ext. intros e.
      unfold penalty_formula, NX.number_of_nodes.
      replace (length (NX.nodes G)) with (length G)
        by (unfold NX.nodes; now rewrite length_map).
      reflexivity.
Qed.

Lemma values_map_pair (f : edge -> R) (es : list edge) :
  dict_values (map (fun e => (e, f e)) es) = map f es.
Proof.
  unfold dict_values. rewrite map_map. reflexivity.
Qed.

Lemma spec_omega_nonneg L G e : (0 <= spec_omega L G e)%R.
Proof. unfold spec_omega. apply Rmax_l. Qed.

Lemma np_log_pos x : (0 < x)%R -> np_log x = Ok (ln x).
Proof.
  intros H. unfold np_log. destruct (Rlt_dec 0 x); [reflexivity | contradiction].
Qed.

Lemma np_log_defined x y : np_log x = Ok y -> (0 < x)%R.
Proof.
  unfold np_log. destruct (Rlt_dec 0 x); [trivial | discriminate].
Qed.

Lemma inv_pos p : (0 < p)%R -> (0 < 1 / p)%R.
Proof.
  intros H. unfold Rdiv. rewrite Rmult_1_l. now apply Rinv_0_lt_compat.
Qed.

Lemma Rs_loop_spec (P W : edge -> R) all es acc log :
  incl es all ->
  (forall e, In e es -> (0 <= P e)%R) ->
  exists log',
    Rs_loop (map (fun e => (e, P e)) all) (map (fun e => (e, W e)) all)
            es acc log
    = Ok ((acc + Rsum (map (fun e => spec_term (P e) (W e)) es))%R,
          log ++ log')
    /\ Forall (fun x => (0 < x)%R) log'.
Proof.
  revert acc log. induction es as [|e es IH]; intros acc log HI HP.
  - exists []. simpl. rewrite app_nil_r, Rplus_0_r. split; [reflexivity | constructor].
  - assert (He : In e all) by (apply HI; now left).
    assert (HI' : incl es all) by (intros x Hx; apply HI; now right).
    assert (HP' : forall x, In x es -> (0 <= P x)%R)
      by (intros x Hx; apply HP; now right).
    simpl.
    rewrite !(@dict_get_map _ _ edge_eqb edge_eqb_eq) by assumption.
    unfold spec_term at 1.
    destruct (Rgt_dec (P e) 0) as [Hgt | Hle].
    + rewrite np_log_pos by (now apply inv_pos). simpl.
      destruct (IH (acc + P e * ln (1 / P e) * W e)%R
                   (log ++ [(1 / P e)%R]) HI' HP') as [log' [E F]].
      exists ((1 / P e)%R :: log'). rewrite E. split.
      * destruct (Req_dec_T (P e) 0) as [Z | _]; [lra|].
        rewrite <- app_assoc. simpl. f_equal. f_equal. lra.
      * constructor; [now apply inv_pos | assumption].
    + destruct (IH acc log HI' HP') as [log' [E F]].
      exists log'. rewrite E. split; [|assumption].
      destruct (Req_dec_T (P e) 0) as [_ | NZ].
      * f_equal. f_equal. lra.
      * exfalso. specialize (HP e (or_introl eq_refl)). lra.
Qed.

Section MetricFacts.

Variable pinv : Matrix -> Matrix.
Hypothesis pinv_shape : forall n M, is_square n M -> is_square n (pinv M).

Lemma effective_resistance_supplied G L :
  wf G -> is_square (length G) L ->
  calculate_all_pairs_effective_resistance pinv G (Some L)
  = Ok (map (fun e => (e, spec_omega L G e)) (NX.edges G)).
Proof.
  intros W SQ. unfold calculate_all_pairs_effective_resistance. simpl.
  rewrite (resistance_loop_spec G L (NX.edges G) []); auto.
  - apply incl_refl.
  - simpl. now apply edges_NoDup.
Qed.

Lemma effective_resistance_refine G :
  wf G -> NX.is_connected G = Ok true ->
  calculate_all_pairs_effective_resistance pinv G None
  = Ok (map (fun e => (e, spec_omega (pinv (NXL.laplacian_matrix G)) G e))
            (NX.edges G)).
Proof.
  intros W C. unfold calculate_all_pairs_effective_resistance,
    calculate_laplacian_pseudoinverse.
  rewrite C. simpl.
  rewrite (resistance_loop_spec G _ (NX.edges G) []); auto.
  - apply pinv_shape, laplacian_square.
  - apply incl_refl.
  - simpl. now apply edges_NoDup.
Qed.

Lemma calculate_Rs_traced_refine G :
  wf G -> NX.is_connected G = Ok true ->
  exists calls,
    calculate_Rs_traced pinv G = Ok (spec_rs pinv G, calls)
    /\ Forall (fun x => (0 < x)%R) calls.
Proof.
  intros W C. unfold calculate_Rs_traced, spec_rs, NX.number_of_edges.
  rewrite C. cbn [negb rbind].
  rewrite effective_resistance_refine by assumption.
  rewrite structural_weights_refine by assumption.
  unfold spec_structuralPenaltyWeights.
  pose proof (edges_NoDup G W) as NDe.
  assert (NN : NX.nodes G <> []).
  { destruct G; [discriminate|]. discriminate. }
  destruct (NX.nodes G) as [|n0 ns0] eqn:EN; [contradiction|].
  cbn [rbind].
  rewrite values_map_pair, py_sum_Rsum, map_map.
  rewrite (@dict_of_list_nodup _ _ edge_eqb edge_eqb_eq)
    by (rewrite map_map; simpl; now rewrite map_id).
  cbv zeta.
  remember (pinv (NXL.laplacian_matrix G)) as L eqn:EL.
  remember (Rsum (map (spec_omega L G) (NX.edges G))) as T eqn:ET.
  assert (HT : (0 <= T)%R).
  { rewrite ET. apply Rsum_nonneg.
    rewrite Forall_forall. intros x Hx. apply in_map_iff in Hx.
    destruct Hx as [e [<- _]]. apply spec_omega_nonneg. }
  assert (HL : T <> 0%R ->
    exists calls,
      Rs_loop (map (fun e => (e, (spec_omega L G e / T)%R)) (NX.edges G))
              (map (fun e => (e, spec_weight G e)) (NX.edges G))
              (NX.edges G) 0%R []
      = Ok (Rsum (map (fun e => spec_term (spec_omega L G e / T)
                                          (spec_weight G e)) (NX.edges G)),
            calls)
      /\ Forall (fun x => (0 < x)%R) calls).
  { intros NZ.
    destruct (Rs_loop_spec (fun e => (spec_omega L G e / T)%R) (spec_weight G)
                (NX.edges G) (NX.edges G) 0%R [] (incl_refl _))
      as [calls [E F]].
    - intros e _. apply Rmult_le_pos; [apply spec_omega_nonneg|].
      left. apply Rinv_0_lt_compat. lra.
    - exists calls. split; [|assumption].
      rewrite E. simpl. now rewrite Rplus_0_l. }
  clear NDe.
  destruct (NX.edges G) as [|e0 es0] eqn:EE.
  - exists []. split; [reflexivity | constructor].
  - cbn [length Nat.eqb]. cbv iota. rewrite <- ET.
    destruct (Req_dec_T T 0) as [Z | NZ].
    + exists []. split; [reflexivity | constructor].
    + exact (HL NZ).
Qed.

Lemma calculate_Rs_refine G :
  wf G -> NX.is_connected G = Ok true ->
  calculate_Rs pinv G = Ok (spec_rs pinv G).
Proof.
  intros W C. unfold calculate_Rs.
  destruct (calculate_Rs_traced_refine G W C) as [calls [E _]].
  now rewrite E.
Qed.

End MetricFacts.

(* ------------------------------------------------------------------ *)
(** ** Connectivity depends on the adjacency relation only *)

Lemma expand_In G S x :
  In x (NX.expand G S) <->
  In x S \/ exists u, In u S /\ NX.has_edge G u x = true.
Proof.
  unfold NX.expand. rewrite nodup_In, in_app_iff, in_flat_map.
  split; intros [H | [u [H1 H2]]]; auto; right; exists u;
    (split; [assumption|]); now apply nbrs_of_In.
Qed.

Lemma expand_equiv G1 G2 S1 S2 :
  (forall u v, NX.has_edge G1 u v = NX.has_edge G2 u v) ->
  (forall x, In x S1 <-> In x S2) ->
  forall x, In x (NX.expand G1 S1) <-> In x (NX.expand G2 S2).
Proof.
  intros HE HS x. rewrite !expand_In, HS.
  split; intros [H | [u [H1 H2]]]; auto; right; exists u.
  - rewrite <- HS, <- HE. now split.
  - rewrite HS, HE. now split.
Qed.

Lemma reach_equiv k G1 G2 S1 S2 :
  (forall u v, NX.has_edge G1 u v = NX.has_edge G2 u v) ->
  (forall x, In x S1 <-> In x S2) ->
  forall x, In x (NX.reach k G1 S1) <-> In x (NX.reach k G2 S2).
Proof.
  intros HE. revert S1 S2. induction k as [|k IH]; simpl; intros S1 S2 HS.
  - exact HS.
  - apply IH. now apply expand_equiv.
Qed.

Lemma reach_NoDup k G S : NoDup S -> NoDup (NX.reach k G S).
Proof.
  revert S. induction k as [|k IH]; simpl; intros S ND; [assumption|].
  apply IH. unfold NX.expand. apply NoDup_nodup.
Qed.

Lemma nodes_length G1 G2 : NX.nodes G1 = NX.nodes G2 -> length G1 = length G2.
Proof.
  intros H. apply (f_equal (@length node)) in H.
  unfold NX.nodes in H. now rewrite !length_map in H.
Qed.

Lemma component_equiv G1 G2 s :
  graph_equiv G1 G2 ->
  length (NX.component G1 s) = length (NX.component G2 s).
Proof.
  intros [HN HE]. unfold NX.component.
  rewrite (nodes_length _ _ HN).
  apply Permutation_length, NoDup_Permutation.
  - apply reach_NoDup. repeat constructor. simpl. tauto.
  - apply reach_NoDup. repeat constructor. simpl. tauto.
  - apply reach_equiv; [assumption | tauto].
Qed.

Lemma is_connected_equiv G1 G2 :
  graph_equiv G1 G2 -> NX.is_connected G1 = NX.is_connected G2.
Proof.
  intros HEq. pose proof HEq as [HN HE].
  pose proof (nodes_length _ _ HN) as HL.
  destruct G1 as [|[s1 l1] G1], G2 as [|[s2 l2] G2]; try discriminate;
    [reflexivity|].
  unfold NX.is_connected. simpl in HN. inversion HN; subst s2.
  now rewrite (component_equiv _ _ s1 HEq), HL.
Qed.

Lemma is_connected_nonempty G b : NX.is_connected G = Ok b -> G <> [].
Proof. destruct G; [discriminate | discriminate]. Qed.

Lemma is_connected_total G : G <> [] -> exists b, NX.is_connected G = Ok b.
Proof.
  destruct G as [|[s l] G]; [contradiction|]. intros _.
  unfold NX.is_connected. eauto.
Qed.

(* ------------------------------------------------------------------ *)
(** ** Induced subgraphs and largest components *)

Lemma subgraph_adj G ns v :
  NX.adj (NX.subgraph G ns) v
  = if mem v ns
    then option_map (filter (fun m => mem m ns)) (NX.adj G v)
    else None.
Proof.
  unfold NX.subgraph, NX.adj.
  induction G as [|[n l] G IH]; simpl.
  - now destruct (mem v ns).
  - destruct (mem n ns) eqn:En; simpl.
    + destruct (v =? n) eqn:E.
      * apply Nat.eqb_eq in E. subst. now rewrite En.
      * exact IH.
    + destruct (v =? n) eqn:E.
      * apply Nat.eqb_eq in E. subst. rewrite En in IH. now rewrite En.
      * exact IH.
Qed.

Lemma subgraph_nodes_NoDup G ns :
  NoDup (NX.nodes G) -> NoDup (NX.nodes (NX.subgraph G ns)).
Proof.
  unfold NX.subgraph, NX.nodes. intros ND. rewrite map_map.
  induction G as [|[n l] G IH]; simpl; [constructor|].
  simpl in ND. inversion ND as [|? ? N ND']; subst.
  destruct (mem n ns); simpl.
  - constructor; [|now apply IH].
    intros H. apply N. apply in_map_iff in H.
    destruct H as [[n' l'] [E H]]. simpl in E. subst.
    apply filter_In in H. destruct H as [H _].
    change n with (fst (n, l')). now apply in_map.
  - now apply IH.
Qed.

Lemma wf_subgraph G ns : wf G -> wf (NX.subgraph G ns).
Proof.
  intros W. apply wf_intro.
  - apply subgraph_nodes_NoDup. now apply wf_nodes.
  - intros n l' Hin. unfold NX.subgraph in Hin.
    apply in_map_iff in Hin. destruct Hin as [[n0 l] [E Hin]].
    inversion E; subst. clear E.
    apply filter_In in Hin. destruct Hin as [Hin Hn].
    destruct (wf_entry_facts _ _ _ W Hin) as [ND [NI S]].
    split; [now apply NoDup_filter|]. split.
    + intros H. apply filter_In in H. tauto.
    + intros v Hv. apply filter_In in Hv. destruct Hv as [Hv Hvn].
      specialize (S v Hv). apply has_edge_adj in S.
      destruct S as [lv [Ev Hnv]].
      apply has_edge_adj. rewrite subgraph_adj, Hvn, Ev. simpl.
      eexists. split; [reflexivity|]. apply filter_In. now split.
Qed.

Lemma components_nonempty G n ns seen :
  ~ In n seen -> NX.components_from G (n :: ns) seen <> [].
Proof.
  intros N. simpl. apply mem_false in N. rewrite N. discriminate.
Qed.

Lemma max_by_len_Some cs : cs <> [] -> exists c, NX.max_by_len cs = Some c.
Proof.
  destruct cs as [|c cs]; [contradiction|]. intros _. simpl.
  destruct (NX.max_by_len cs) as [c'|]; [|eauto].
  destruct (length c <? length c'); eauto.
Qed.

(* ------------------------------------------------------------------ *)
(** ** The heap *)

Lemma update_length h r g : length (update h r g) = length h.
Proof.
  revert r. induction h as [|g0 h IH]; intros [|r]; simpl; auto.
Qed.

Lemma deref_update_eq h r g : r < length h -> deref (update h r g) r = g.
Proof.
  unfold deref. revert r. induction h as [|g0 h IH]; intros [|r]; simpl;
    intros H; try lia; [reflexivity|].
  apply IH. lia.
Qed.

Lemma deref_update_neq h r r' g : r' <> r -> deref (update h r g) r' = deref h r'.
Proof.
  unfold deref. revert r r'.
  induction h as [|g0 h IH]; intros [|r] [|r']; simpl; intros H;
    try reflexivity; try congruence.
  apply IH. congruence.
Qed.

Lemma deref_app_old h ext r : r < length h -> deref (h ++ ext) r = deref h r.
Proof. intros H. unfold deref. now apply app_nth1. Qed.

Lemma deref_app_new h g : deref (h ++ [g]) (length h) = g.
Proof. unfold deref. apply nth_middle. Qed.

Lemma update_app_new h g g' : update (h ++ [g]) (length h) g' = h ++ [g'].
Proof. induction h as [|g0 h IH]; simpl; [reflexivity | now rewrite IH]. Qed.

Lemma update_app_old h ext r g :
  r < length h -> update (h ++ ext) r g = update h r g ++ ext.
Proof.
  revert r. induction h as [|g0 h IH]; intros [|r]; simpl; intros H;
    try lia; [reflexivity|].
  rewrite IH by lia. reflexivity.
Qed.

Lemma frame_except_refl cur h : frame_except cur h h.
Proof. split; [lia | reflexivity]. Qed.

Lemma frame_except_trans cur h1 h2 h3 :
  frame_except cur h1 h2 -> frame_except cur h2 h3 -> frame_except cur h1 h3.
Proof.
  intros [L1 F1] [L2 F2]. split; [lia|].
  intros r Hr N. rewrite F2 by (auto; lia). now apply F1.
Qed.

Lemma frame_except_app cur h ext : frame_except cur h (h ++ ext).
Proof.
  split; [rewrite length_app; lia|].
  intros r Hr _. now apply deref_app_old.
Qed.

Lemma frame_except_update cur h g : frame_except cur h (update h cur g).
Proof.
  split; [rewrite update_length; lia|].
  intros r _ N. now apply deref_update_neq.
Qed.

(* ------------------------------------------------------------------ *)
(** ** Chains of removals *)

Lemma keeps_iff a b e : keeps a b e = true <-> e <> (a, b) /\ e <> (b, a).
Proof.
  unfold keeps. rewrite negb_true_iff, orb_false_iff.
  split; intros [H1 H2].
  - split; intros E; apply edge_eqb_eq in E; congruence.
  - split.
    + destruct (edge_eqb e (a, b)) eqn:E; [|reflexivity].
      apply edge_eqb_eq in E. contradiction.
    + destruct (edge_eqb e (b, a)) eqn:E; [|reflexivity].
      apply edge_eqb_eq in E. contradiction.
Qed.

Lemma chain_nodes G ts G' : removal_chain G ts G' -> NX.nodes G' = NX.nodes G.
Proof.
  induction 1 as [|G e G1 es G' _ HR _ IH]; [reflexivity|].
  rewrite IH. eapply nodes_remove; eauto.
Qed.

Lemma chain_wf G ts G' : removal_chain G ts G' -> wf G -> wf G'.
Proof.
  induction 1 as [|G e G1 es G' _ HR _ IH]; [trivial|].
  intros W. apply IH. eapply wf_remove_edge; eauto.
Qed.

Lemma chain_edges G ts G' :
  removal_chain G ts G' ->
  forall x, In x (NX.edges G') <->
            In x (NX.edges G)
            /\ forall t, In t ts -> keeps (fst t) (snd t) x = true.
Proof.
  induction 1 as [|G e G1 es G' _ HR _ IH]; intros x.
  - simpl. tauto.
  - rewrite IH, (edges_remove _ _ _ _ HR), filter_In. simpl. split.
    + intros [[H1 H2] H3]. split; [assumption|].
      intros t [<- | Ht]; auto.
    + intros [H1 H2]. repeat split; auto.
Qed.

Lemma chain_targets G ts G' :
  removal_chain G ts G' -> forall t, In t ts -> In t (NX.edges G).
Proof.
  induction 1 as [|G e G1 es G' Hin HR _ IH]; intros t; simpl; [tauto|].
  intros [<- | Ht]; [assumption|].
  apply IH in Ht. rewrite (edges_remove _ _ _ _ HR) in Ht.
  apply filter_In in Ht. tauto.
Qed.

Lemma chain_NoDup G ts G' : removal_chain G ts G' -> NoDup ts.
Proof.
  induction 1 as [|G e G1 es G' Hin HR HC IH]; constructor; [|assumption].
  intros Hes. apply (chain_targets _ _ _ HC) in Hes.
  rewrite (edges_remove _ _ _ _ HR) in Hes.
  apply filter_In in Hes. destruct Hes as [_ K].
  apply keeps_iff in K. destruct e as [a b]. simpl in K. tauto.
Qed.

Lemma chain_edges_minus G ts G' :
  removal_chain G ts G' ->
  forall x, In x (NX.edges G') <-> In x (NX.edges G) /\ ~ In x ts.
Proof.
  intros HC x. rewrite (chain_edges _ _ _ HC). split.
  - intros [H1 H2]. split; [assumption|]. intros Hx.
    specialize (H2 x Hx). apply keeps_iff in H2.
    destruct x as [a b]. simpl in H2. tauto.
  - intros [H1 H2]. split; [assumption|]. intros [a b] Ht. simpl.
    apply keeps_iff. split.
    + intros ->. contradiction.
    + intros ->. pose proof (chain_targets _ _ _ HC _ Ht) as Ht'.
      assert (a = b) by (eapply edges_from_orient; [exact Ht' | exact H1]).
      subst. apply H2. exact Ht.
Qed.

(* ------------------------------------------------------------------ *)
(** ** The greedy search *)

Section GreedyFacts.

Variable pinv : Matrix -> Matrix.
Hypothesis pinv_shape : forall n M, is_square n M -> is_square n (pinv M).

Lemma calculate_Rs_outcome G :
  wf G -> G <> [] ->
  (exists r, calculate_Rs pinv G = Ok r)
  \/ (exists msg, calculate_Rs pinv G = Raise (ValueError msg)).
Proof.
  intros W NE. destruct (is_connected_total G NE) as [[|] C].
  - left. eexists. now apply calculate_Rs_refine.
  - right. unfold calculate_Rs, calculate_Rs_traced. rewrite C. simpl. eauto.
Qed.

Lemma edges_nil_graph : NX.edges [] = [].
Proof. reflexivity. Qed.

Lemma rs_after_total g : wf g -> exists o, rs_after pinv g = Ok o.
Proof.
  intros W. unfold rs_after.
  destruct (NX.number_of_edges g =? 0) eqn:E; [eauto|].
  assert (NE : g <> []) by (intros ->; discriminate).
  destruct (calculate_Rs_outcome g W NE) as [[r ->] | [msg ->]]; eauto.
Qed.

Lemma largest_cc_total g :
  wf g -> g <> [] -> exists g', largest_cc g = Ok g' /\ wf g'.
Proof.
  intros W NE. unfold largest_cc.
  destruct (is_connected_total g NE) as [[|] C]; rewrite C; simpl.
  - eauto.
  - destruct (max_by_len_Some (NX.connected_components g)) as [c Hc].
    + unfold NX.connected_components.
      destruct g as [|[n l] g]; [contradiction|]. simpl NX.nodes.
      apply components_nonempty. simpl. tauto.
    + rewrite Hc. simpl. eexists. split; [reflexivity|].
      now apply wf_subgraph.
Qed.

Lemma candidates_loop_cons cur irs e rest st h g' lg o :
  NX.remove_edge (deref h cur) (fst e) (snd e) = Ok g' ->
  largest_cc g' = Ok lg ->
  rs_after pinv lg = Ok o ->
  candidates_loop pinv cur irs (e :: rest) st h
  = candidates_loop pinv cur irs rest
      match o with
      | None => st
      | Some rs_after_removal =>
          if ext_gt (rs_after_removal - irs) (max_delta_rs st)
          then mkCand (Some e) (Fin (rs_after_removal - irs)) rs_after_removal
          else st
      end
      (h ++ [g']).
Proof.
  intros HR HL HO. simpl.
  unfold mbind, G_copy, G_remove_edge, read, alloc, write, lift, mbind.
  rewrite deref_app_new, HR, update_app_new, deref_app_new, HL, HO.
  destruct o as [r|]; [|reflexivity].
  destruct (ext_gt (r - irs) (max_delta_rs st)); reflexivity.
Qed.

Lemma candidates_loop_spec cands :
  forall cur irs st h,
    cur < length h ->
    wf (deref h cur) ->
    (forall e, In e cands ->
               NX.has_edge (deref h cur) (fst e) (snd e) = true) ->
    exists st' ext,
      candidates_loop pinv cur irs cands st h = Ok (st', h ++ ext)
      /\ (best_edge_to_remove st' = best_edge_to_remove st
          \/ exists e, best_edge_to_remove st' = Some e /\ In e cands).
Proof.
  induction cands as [|e rest IH]; intros cur irs st h Hcur W HE.
  - exists st, []. rewrite app_nil_r. split; [reflexivity | now left].
  - assert (He : NX.has_edge (deref h cur) (fst e) (snd e) = true)
      by (apply HE; now left).
    pose proof (remove_edge_ok _ _ _ He) as HR.
    pose proof (wf_remove_edge _ _ _ _ W HR) as W'.
    assert (NE : rewrite_adj (rm (fst e) (snd e)) (deref h cur) <> []).
    { intros E. apply has_edge_node in He.
      rewrite <- (nodes_remove _ _ _ _ HR), E in He. contradiction. }
    destruct (largest_cc_total _ W' NE) as [lg [HL Wl]].
    destruct (rs_after_total lg Wl) as [o HO].
    rewrite (candidates_loop_cons cur irs e rest st h _ _ _ HR HL HO).
    match goal with
    | |- context [candidates_loop _ _ _ _ ?s _] => set (st1 := s)
    end.
    destruct (IH cur irs st1 (h ++ [rewrite_adj (rm (fst e) (snd e)) (deref h cur)]))
      as [st' [ext [E B]]].
    + rewrite length_app. lia.
    + now rewrite deref_app_old.
    + intros x Hx. rewrite deref_app_old by assumption. apply HE. now right.
    + exists st', ([rewrite_adj (rm (fst e) (snd e)) (deref h cur)] ++ ext).
      rewrite app_assoc. split; [exact E|].
      destruct B as [B | [x [B Hx]]].
      * rewrite B. unfold st1. destruct o as [r|]; [|now left].
        destruct (ext_gt (r - irs) (max_delta_rs st)); [|now left].
        right. exists e. split; [reflexivity | now left].
      * right. exists x. split; [assumption | now right].
Qed.

Lemma greedy_loop_spec iters :
  forall cur st h,
    cur < length h ->
    wf (deref h cur) ->
    exists st' h',
      greedy_loop pinv iters cur st h = Ok (st', h')
      /\ frame_except cur h h'
      /\ exists ts ds,
           best_targets st' = best_targets st ++ ts
           /\ delta_rs_history st' = delta_rs_history st ++ ds
           /\ length ds = length ts
           /\ length ts <= iters
           /\ removal_chain (deref h cur) ts (deref h' cur).
Proof.
  induction iters as [|k IH]; intros cur st h Hcur W.
  - exists st, h. split; [reflexivity|]. split; [apply frame_except_refl|].
    exists [], []. rewrite !app_nil_r. repeat split; auto. constructor.
  - simpl. unfold mbind at 1. unfold read at 1.
    destruct (NX.edges (deref h cur)) as [|e0 es0] eqn:EE.
    + exists st, h. split; [reflexivity|]. split; [apply frame_except_refl|].
      exists [], []. rewrite !app_nil_r. repeat split; auto; [simpl; lia|].
      constructor.
    + rewrite <- EE.
      destruct (candidates_loop_spec (NX.edges (deref h cur)) cur
                  (initial_rs st) (mkCand None NegInf (initial_rs st)) h Hcur W)
        as [c [ext [EC B]]].
      { intros [a b] Hin. simpl. apply edges_has_edge; [|assumption].
        now apply wf_nodes. }
      unfold mbind at 1. rewrite EC.
      destruct B as [B | [e [B Hin]]]; simpl in B; rewrite B.
      * exists st, (h ++ ext). split; [reflexivity|].
        split; [apply frame_except_app|].
        exists [], []. rewrite !app_nil_r. repeat split; auto; [simpl; lia|].
        rewrite deref_app_old by assumption. constructor.
      * assert (He : NX.has_edge (deref h cur) (fst e) (snd e) = true).
        { destruct e as [a b]. apply edges_has_edge; [|assumption].
          now apply wf_nodes. }
        pose proof (remove_edge_ok _ _ _ He) as HR.
        pose proof (wf_remove_edge _ _ _ _ W HR) as W'.
        set (g' := rewrite_adj (rm (fst e) (snd e)) (deref h cur)) in *.
        unfold mbind at 1, G_remove_edge, mbind, read, lift, write.
        rewrite deref_app_old, HR by assumption.
        set (st1 := mkGreedy _ _ _).
        destruct (IH cur st1 (update (h ++ ext) cur g'))
          as [st' [h' [EL [F [ts [ds [T1 [T2 [T3 [T4 T5]]]]]]]]]].
        { rewrite update_length, length_app. lia. }
        { rewrite deref_update_eq; [assumption | rewrite length_app; lia]. }
        exists st', h'. split; [exact EL|]. split.
        { eapply frame_except_trans; [apply frame_except_app|].
          eapply frame_except_trans; [apply frame_except_update | exact F]. }
        exists (e :: ts), (max_delta_rs c :: ds).
        unfold st1 in T1, T2. simpl in T1, T2.
        rewrite <- app_assoc in T1, T2.
        repeat split; auto; [simpl; lia | simpl; lia |].
        rewrite deref_update_eq in T5 by (rewrite length_app; lia).
        econstructor; eauto.
Qed.

Lemma greedy_spec G num_targets budget h :
  G < length h ->
  wf (deref h G) ->
  NX.is_connected (deref h G) = Ok true ->
  exists ts ds h',
    find_optimal_targets_greedy pinv G num_targets budget h
    = Ok ((ts, ds, length h), h')
    /\ (forall r, r < length h -> deref h' r = deref h r)
    /\ length ds = length ts
    /\ length ts <= Z.to_nat match budget with
                             | None => num_targets
                             | Some b => Z.min num_targets (py_int b)
                             end
    /\ removal_chain (deref h G) ts (deref h' (length h)).
Proof.
  intros HG W C. unfold find_optimal_targets_greedy.
  unfold mbind at 1, read at 1. unfold mbind at 1, lift at 1. rewrite C.
  cbn [negb]. unfold mbind at 1, G_copy, mbind, read, alloc.
  rewrite deref_app_new, (calculate_Rs_refine pinv pinv_shape _ W C).
  set (iters := Z.to_nat _).
  destruct (greedy_loop_spec iters (length h)
              (mkGreedy (spec_rs pinv (deref h G)) [] [])
              (h ++ [deref h G]))
    as [st' [h' [EL [[FL F] [ts [ds [T1 [T2 [T3 [T4 T5]]]]]]]]]].
  { rewrite length_app. simpl. lia. }
  { now rewrite deref_app_new. }
  rewrite EL. simpl in T1, T2. rewrite T1, T2.
  exists ts, ds, h'. split; [reflexivity|].
  rewrite deref_app_new in T5.
  repeat split; auto.
  intros r Hr. rewrite F.
  - now apply deref_app_old.
  - rewrite length_app. lia.
  - lia.
Qed.

End GreedyFacts.

(* ------------------------------------------------------------------ *)
(** ** Degrees under edge removal and insertion *)

Lemma length_drop_in b l :
  NoDup l -> In b l -> length (NX.drop b l) + 1 = length l.
Proof.
  unfold NX.drop. induction l as [|x l IH]; simpl; intros ND H; [contradiction|].
  inversion ND as [|? ? N ND']; subst.
  destruct (x =? b) eqn:E; simpl.
  - apply Nat.eqb_eq in E. subst x.
    assert (F : filter (fun m => negb (m =? b)) l = l).
    { apply forallb_filter_id. apply forallb_forall. intros y Hy.
      apply negb_true_iff, Nat.eqb_neq. intros ->. contradiction. }
    rewrite F. lia.
  - apply Nat.eqb_neq in E. destruct H as [H | H]; [congruence|].
    rewrite <- (IH ND' H). lia.
Qed.

Lemma nbrs_of_rewrite f G n :
  f n [] = [] -> NX.nbrs_of (rewrite_adj f G) n = f n (NX.nbrs_of G n).
Proof.
  intros H. unfold NX.nbrs_of. rewrite rewrite_adj_adj.
  destruct (NX.adj G n); simpl; [reflexivity | now rewrite H].
Qed.

Lemma nbrs_of_NoDup G n : wf G -> NoDup (NX.nbrs_of G n).
Proof.
  intros W. unfold NX.nbrs_of. destruct (NX.adj G n) as [l|] eqn:E.
  - apply adj_Some_In in E. now destruct (wf_entry_facts _ _ _ W E).
  - constructor.
Qed.

Lemma len_remove G a b G' n :
  wf G -> NX.remove_edge G a b = Ok G' -> len G' n + inc a b n = len G n.
Proof.
  intros W H. apply remove_edge_eq in H. destruct H as [He ->].
  unfold len. rewrite nbrs_of_rewrite by apply rm_nil.
  pose proof (nbrs_of_NoDup G n W) as ND.
  pose proof (wf_sym _ _ _ W He) as He'.
  unfold rm, inc.
  destruct (n =? a) eqn:Ea; simpl.
  - apply Nat.eqb_eq in Ea. subst n.
    apply length_drop_in; [assumption | now apply nbrs_of_In].
  - destruct (n =? b) eqn:Eb; simpl; [|lia].
    apply Nat.eqb_eq in Eb. subst n.
    apply length_drop_in; [assumption | now apply nbrs_of_In].
Qed.

Lemma ad_nil_other a b n : n <> a -> ad a b n [] = [].
Proof.
  intros N. unfold ad. apply Nat.eqb_neq in N. now rewrite N.
Qed.

Lemma nbrs_of_add G a b n :
  In a (NX.nodes G) -> In b (NX.nodes G) ->
  NX.nbrs_of (NX.add_edge G a b) n = ad b a n (ad a b n (NX.nbrs_of G n)).
Proof.
  intros Ha Hb. rewrite add_edge_eq by assumption.
  unfold NX.nbrs_of. rewrite !rewrite_adj_adj.
  destruct (NX.adj G n) as [l|] eqn:E; simpl; [reflexivity|].
  apply adj_None in E.
  rewrite (ad_nil_other a b n) by (intros ->; contradiction).
  rewrite (ad_nil_other b a n) by (intros ->; contradiction).
  reflexivity.
Qed.

Lemma len_add G a b n :
  wf G -> a <> b -> In a (NX.nodes G) -> In b (NX.nodes G) ->
  NX.has_edge G a b = false ->
  len (NX.add_edge G a b) n = len G n + inc a b n.
Proof.
  intros W Hab Ha Hb He. unfold len. rewrite nbrs_of_add by assumption.
  assert (He' : NX.has_edge G b a = false).
  { destruct (NX.has_edge G b a) eqn:E; [|reflexivity].
    apply wf_sym in E; [congruence | assumption]. }
  unfold ad, inc.
  destruct (n =? a) eqn:Ea; simpl.
  - apply Nat.eqb_eq in Ea. subst n.
    assert (Hm : mem b (NX.nbrs_of G a) = false).
    { apply mem_false. rewrite nbrs_of_In. congruence. }
    rewrite Hm. simpl.
    replace (a =? b) with false by (symmetry; now apply Nat.eqb_neq).
    simpl. rewrite length_app. simpl. lia.
  - destruct (n =? b) eqn:Eb; simpl; [|lia].
    apply Nat.eqb_eq in Eb. subst n.
    assert (Hm : mem a (NX.nbrs_of G b) = false).
    { apply mem_false. rewrite nbrs_of_In. congruence. }
    rewrite Hm. simpl. rewrite length_app. simpl. lia.
Qed.

Lemma degree_of_len G G' :
  wf G -> wf G' -> NX.nodes G = NX.nodes G' ->
  (forall n, len G n = len G' n) ->
  NX.degree G = NX.degree G'.
Proof.
  intros W W' HN HL.
  assert (D : forall H, wf H -> forall e, In e H ->
            NX.degree_of (fst e) (snd e) = len H (fst e)).
  { intros H WH [n l] Hin. simpl. unfold len, NX.nbrs_of, NX.degree_of.
    rewrite (adj_In H n l (wf_nodes H WH) Hin).
    destruct (wf_entry_facts _ _ _ WH Hin) as [_ [NI _]].
    apply mem_false in NI. rewrite NI. lia. }
  assert (E : forall H, wf H ->
            NX.degree H = map (fun n => (n, len H n)) (NX.nodes H)).
  { intros H WH. unfold NX.degree, NX.nodes. rewrite map_map.
    apply map_ext_in. intros [n l] Hin.
    rewrite <- (D H WH (n, l) Hin). reflexivity. }
  rewrite (E G W), (E G' W'), HN. apply map_ext. intros n. now rewrite HL.
Qed.

Lemma len_equiv G G' n :
  wf G -> wf G' -> graph_equiv G G' -> len G n = len G' n.
Proof.
  intros W W' [_ HE]. unfold len.
  apply Permutation_length, NoDup_Permutation.
  - now apply nbrs_of_NoDup.
  - now apply nbrs_of_NoDup.
  - intros x. now rewrite !nbrs_of_In, HE.
Qed.

Lemma degree_equiv G G' :
  wf G -> wf G' -> graph_equiv G G' -> NX.degree G = NX.degree G'.
Proof.
  intros W W' HEq. apply degree_of_len; auto.
  - now destruct HEq.
  - intros n. now apply len_equiv.
Qed.

Lemma has_edge_equiv_true G G' u v :
  graph_equiv G G' -> NX.has_edge G u v = true -> NX.has_edge G' u v = true.
Proof. intros [_ HE] H. now rewrite <- HE. Qed.

(* ------------------------------------------------------------------ *)
(** ** Rewiring: two removals followed by two insertions *)

Lemma keeps_unfold a b p q :
  negb (((p =? a) && (q =? b)) || ((p =? b) && (q =? a))) = keeps a b (p, q).
Proof. reflexivity. Qed.

Lemma rewire_spec g a1 b1 a2 b2 c1 d1 c2 d2 :
  wf g ->
  NX.has_edge g a1 b1 = true ->
  NX.has_edge g a2 b2 = true ->
  keeps a1 b1 (a2, b2) = true ->
  NX.has_edge g c1 d1 = false -> c1 <> d1 ->
  In c1 (NX.nodes g) -> In d1 (NX.nodes g) ->
  NX.has_edge g c2 d2 = false -> c2 <> d2 ->
  In c2 (NX.nodes g) -> In d2 (NX.nodes g) ->
  keeps c1 d1 (c2, d2) = true ->
  exists g',
    rewire g a1 b1 a2 b2 c1 d1 c2 d2 = Ok g'
    /\ wf g'
    /\ NX.nodes g' = NX.nodes g
    /\ (forall p q,
          NX.has_edge g' p q
          = (NX.has_edge g p q && keeps a1 b1 (p, q) && keeps a2 b2 (p, q))
            || negb (keeps c1 d1 (p, q)) || negb (keeps c2 d2 (p, q)))
    /\ (forall n,
          len g' n + inc a1 b1 n + inc a2 b2 n
          = len g n + inc c1 d1 n + inc c2 d2 n).
Proof.
  intros W P1 P2 K12 A1 N1 Hc1 Hd1 A2 N2 Hc2 Hd2 K34.
  unfold rewire.
  pose proof (remove_edge_ok _ _ _ P1) as R1. rewrite R1. simpl.
  set (g1 := rewrite_adj (rm a1 b1) g) in *.
  pose proof (wf_remove_edge _ _ _ _ W R1) as W1.
  pose proof (fun p q => has_edge_remove g a1 b1 g1 p q R1) as E1.
  pose proof (nodes_remove _ _ _ _ R1) as NN1.
  assert (P2' : NX.has_edge g1 a2 b2 = true).
  { rewrite E1, P2. unfold keeps, edge_eqb in K12. simpl in K12.
    rewrite K12. reflexivity. }
  pose proof (remove_edge_ok _ _ _ P2') as R2. rewrite R2. simpl.
  set (g2 := rewrite_adj (rm a2 b2) g1) in *.
  pose proof (wf_remove_edge _ _ _ _ W1 R2) as W2.
  pose proof (fun p q => has_edge_remove g1 a2 b2 g2 p q R2) as E2.
  pose proof (nodes_remove _ _ _ _ R2) as NN2.
  assert (Hc1' : In c1 (NX.nodes g2)) by (now rewrite NN2, NN1).
  assert (Hd1' : In d1 (NX.nodes g2)) by (now rewrite NN2, NN1).
  assert (Hc2' : In c2 (NX.nodes g2)) by (now rewrite NN2, NN1).
  assert (Hd2' : In d2 (NX.nodes g2)) by (now rewrite NN2, NN1).
  pose proof (wf_add_edge g2 c1 d1 W2 N1 Hc1' Hd1') as W3.
  pose proof (fun p q => has_edge_add g2 c1 d1 p q Hc1' Hd1') as E3.
  pose proof (nodes_add g2 c1 d1 Hc1' Hd1') as NN3.
  set (g3 := NX.add_edge g2 c1 d1) in *.
  assert (Hc2'' : In c2 (NX.nodes g3)) by (now rewrite NN3).
  assert (Hd2'' : In d2 (NX.nodes g3)) by (now rewrite NN3).
  pose proof (wf_add_edge g3 c2 d2 W3 N2 Hc2'' Hd2'') as W4.
  pose proof (fun p q => has_edge_add g3 c2 d2 p q Hc2'' Hd2'') as E4.
  pose proof (nodes_add g3 c2 d2 Hc2'' Hd2'') as NN4.
  assert (A1' : NX.has_edge g2 c1 d1 = false).
  { rewrite E2, E1, A1. reflexivity. }
  assert (A2' : NX.has_edge g3 c2 d2 = false).
  { rewrite E3, E2, E1, A2. simpl.
    unfold keeps, edge_eqb in K34. simpl in K34.
    now apply negb_true_iff in K34. }
  eexists. split; [reflexivity|]. split; [exact W4|].
  split; [now rewrite NN4, NN3, NN2, NN1|]. split.
  - intros p q. rewrite E4, E3, E2, E1.
    unfold keeps, edge_eqb. simpl.
    rewrite !negb_involutive, <- !orb_assoc. reflexivity.
  - intros n.
    pose proof (len_remove g a1 b1 g1 n W R1).
    pose proof (len_remove g1 a2 b2 g2 n W1 R2).
    pose proof (len_add g2 c1 d1 n W2 N1 Hc1' Hd1' A1').
    pose proof (len_add g3 c2 d2 n W3 N2 Hc2'' Hd2'' A2').
    fold g3 in H1. lia.
Qed.

Lemma wf_sym_eq G u v : wf G -> NX.has_edge G u v = NX.has_edge G v u.
Proof.
  intros W. destruct (NX.has_edge G u v) eqn:E1, (NX.has_edge G v u) eqn:E2;
    try reflexivity.
  - apply wf_sym in E1; [congruence | assumption].
  - apply wf_sym in E2; [congruence | assumption].
Qed.

Lemma keeps_false_edge G a b p q :
  wf G -> keeps a b (p, q) = false -> NX.has_edge G p q = NX.has_edge G a b.
Proof.
  intros W K. unfold keeps in K. apply negb_false_iff, orb_true_iff in K.
  destruct K as [K | K]; apply edge_eqb_eq in K; inversion K; subst.
  - reflexivity.
  - now apply wf_sym_eq.
Qed.

Ltac eqb_simpl :=
  repeat match goal with
         | |- context [?a =? ?a] => rewrite (Nat.eqb_refl a)
         | |- context [?a =? ?b] =>
             rewrite (proj2 (Nat.eqb_neq a b)) by congruence
         end.

Lemma nodup4 (u v x y : node) :
  length (nodup Nat.eq_dec [u; v; x; y]) = 4 ->
  u <> v /\ u <> x /\ u <> y /\ v <> x /\ v <> y /\ x <> y.
Proof.
  simpl.
  destruct (Nat.eq_dec v u), (Nat.eq_dec x u), (Nat.eq_dec y u),
    (Nat.eq_dec x v), (Nat.eq_dec y v), (Nat.eq_dec y x);
    simpl; intros H; try discriminate H;
    repeat split; congruence.
Qed.

Lemma swap_ok g u v x y :
  wf g ->
  u <> v /\ u <> x /\ u <> y /\ v <> x /\ v <> y /\ x <> y ->
  NX.has_edge g u v = true -> NX.has_edge g x y = true ->
  NX.has_edge g u y = false -> NX.has_edge g v x = false ->
  exists g',
    rewire g u v x y u y v x = Ok g'
    /\ wf g' /\ NX.nodes g' = NX.nodes g /\ NX.degree g' = NX.degree g
    /\ exists g'',
         rewire g' u y v x u v x y = Ok g''
         /\ wf g'' /\ graph_equiv g g''.
Proof.
  intros W [Nuv [Nux [Nuy [Nvx [Nvy Nxy]]]]] Puv Pxy Auy Avx.
  pose proof (has_edge_node _ _ _ Puv) as Hu.
  pose proof (has_edge_node _ _ _ Pxy) as Hx.
  pose proof (has_edge_node _ _ _ (wf_sym _ _ _ W Puv)) as Hv.
  pose proof (has_edge_node _ _ _ (wf_sym _ _ _ W Pxy)) as Hy.
  destruct (rewire_spec g u v x y u y v x) as [g' [R [W' [NN [HE HL]]]]];
    auto; try (unfold keeps, edge_eqb; simpl; eqb_simpl; reflexivity).
  exists g'. split; [exact R|]. split; [exact W'|]. split; [exact NN|]. split.
  { apply degree_of_len; auto. intros n. specialize (HL n).
    unfold inc, node in *.
    destruct (Nat.eqb_spec n u), (Nat.eqb_spec n v), (Nat.eqb_spec n x),
      (Nat.eqb_spec n y); simpl in HL; subst; try contradiction; lia. }
  assert (Puy : NX.has_edge g' u y = true).
  { rewrite HE. unfold keeps, edge_eqb. simpl. eqb_simpl. simpl.
    now rewrite orb_true_r. }
  assert (Pvx : NX.has_edge g' v x = true).
  { rewrite HE. unfold keeps, edge_eqb. simpl. eqb_simpl. simpl.
    now rewrite orb_true_r. }
  assert (Auv : NX.has_edge g' u v = false).
  { rewrite HE. unfold keeps, edge_eqb. simpl. eqb_simpl. simpl.
    now rewrite andb_false_r. }
  assert (Axy : NX.has_edge g' x y = false).
  { rewrite HE. unfold keeps, edge_eqb. simpl. eqb_simpl. simpl.
    now rewrite andb_false_r. }
  destruct (rewire_spec g' u y v x u v x y)
    as [g'' [R' [W'' [NN' [HE' _]]]]];
    auto; try (rewrite NN; assumption);
    try (unfold keeps, edge_eqb; simpl; eqb_simpl; reflexivity).
  exists g''. split; [exact R'|]. split; [exact W''|]. split.
  - now rewrite NN', NN.
  - intros p q. rewrite HE', HE.
    destruct (keeps u v (p, q)) eqn:KA.
    2:{ rewrite (keeps_false_edge g u v p q W KA), Puv. simpl.
        now rewrite orb_true_r. }
    destruct (keeps x y (p, q)) eqn:KB.
    2:{ rewrite (keeps_false_edge g x y p q W KB), Pxy. simpl.
        now rewrite orb_true_r. }
    destruct (keeps u y (p, q)) eqn:KC.
    2:{ rewrite (keeps_false_edge g u y p q W KC), Auy. reflexivity. }
    destruct (keeps v x (p, q)) eqn:KD.
    2:{ rewrite (keeps_false_edge g v x p q W KD), Avx. reflexivity. }
    simpl. now rewrite !andb_true_r, !orb_false_r.
Qed.

Lemma update_update h r a b : update (update h r a) r b = update h r b.
Proof.
  revert r. induction h as [|g0 h IH]; intros [|r]; simpl; auto.
  now rewrite IH.
Qed.

Lemma rewire_run G a1 b1 a2 b2 c1 d1 c2 d2 h g' :
  G < length h ->
  rewire (deref h G) a1 b1 a2 b2 c1 d1 c2 d2 = Ok g' ->
  (G_remove_edge G a1 b1 ;;; G_remove_edge G a2 b2 ;;;
   G_add_edge G c1 d1 ;;; G_add_edge G c2 d2)%heap h
  = Ok (tt, update h G g').
Proof.
  intros HG H. unfold rewire in H.
  destruct (NX.remove_edge (deref h G) a1 b1) as [g1|] eqn:R1;
    [|discriminate]. simpl in H.
  destruct (NX.remove_edge g1 a2 b2) as [g2|] eqn:R2; [|discriminate].
  simpl in H. inversion H; subst g'. clear H.
  unfold mbind, G_remove_edge, G_add_edge, mbind, read, lift, write.
  rewrite R1. rewrite deref_update_eq by assumption. rewrite R2.
  rewrite ?update_update.
  rewrite deref_update_eq by assumption.
  rewrite ?update_update.
  rewrite deref_update_eq by assumption.
  now rewrite ?update_update.
Qed.

Lemma strictly_increasing_snoc l d x :
  strictly_increasing l -> l <> [] -> (last l d < x)%R ->
  strictly_increasing (l ++ [x]).
Proof.
  induction l as [|a l IH]; intros S N L; [contradiction|].
  destruct l as [|b l].
  - simpl in *. split; [assumption | trivial].
  - destruct S as [S1 S2]. split; [assumption|].
    apply IH; [assumption | discriminate | exact L].
Qed.

Lemma strictly_increasing_non_decreasing l :
  strictly_increasing l -> non_decreasing l.
Proof.
  induction l as [|a l IH]; [trivial|].
  destruct l as [|b l]; [trivial|].
  intros [S1 S2]. split; [lra | now apply IH].
Qed.

Lemma hd_error_snoc (l : list R) x a : hd_error l = Some a -> hd_error (l ++ [x]) = Some a.
Proof. destruct l; [discriminate | trivial]. Qed.

(* ------------------------------------------------------------------ *)
(** ** The rewiring optimizer *)

Section RegoFacts.

Variable pinv : Matrix -> Matrix.
Hypothesis pinv_shape : forall n M, is_square n M -> is_square n (pinv M).

Variable sample2 : nat -> nat -> nat * nat.
Hypothesis sample2_range :
  forall k n, 2 <= n -> fst (sample2 k n) < n /\ snd (sample2 k n) < n.

Lemma draw_loop_S a es n k :
  draw_loop sample2 (S a) es n k
  = (idx <- random_sample2 sample2 k n ;;
     e1 <- of_option IndexError (nth_error es (fst idx)) ;;
     e2 <- of_option IndexError (nth_error es (snd idx)) ;;
     if length (nodup Nat.eq_dec [fst e1; snd e1; fst e2; snd e2]) =? 4
     then Ok (Some (fst e1, snd e1, fst e2, snd e2), S k)
     else draw_loop sample2 a es n (S k))%result.
Proof.
  cbn [draw_loop]. destruct (random_sample2 sample2 k n) as [idx|]; [|reflexivity].
  cbn [rbind].
  destruct (nth_error es (fst idx)) as [[u v]|]; [|reflexivity].
  destruct (nth_error es (snd idx)) as [[x y]|]; reflexivity.
Qed.

Lemma draw_loop_spec attempts :
  forall es k,
    2 <= length es ->
    exists r k',
      draw_loop sample2 attempts es (length es) k = Ok (r, k')
      /\ match r with
         | None => True
         | Some (u, v, x, y) =>
             In (u, v) es /\ In (x, y) es
             /\ (u <> v /\ u <> x /\ u <> y /\ v <> x /\ v <> y /\ x <> y)
         end.
Proof.
  induction attempts as [|a IH]; intros es k L.
  - exists None, k. split; [reflexivity | trivial].
  - rewrite draw_loop_S. unfold random_sample2.
    replace (length es <? 2) with false
      by (symmetry; apply Nat.ltb_ge; lia).
    cbn [rbind]. destruct (sample2_range k (length es) L) as [L1 L2].
    destruct (nth_error es (fst (sample2 k (length es)))) as [[u v]|] eqn:E1;
      [|apply nth_error_None in E1; lia].
    destruct (nth_error es (snd (sample2 k (length es)))) as [[x y]|] eqn:E2;
      [|apply nth_error_None in E2; lia].
    cbn [rbind of_option fst snd].
    destruct (length (nodup Nat.eq_dec [u; v; x; y]) =? 4) eqn:E4.
    + exists (Some (u, v, x, y)), (S k). split; [reflexivity|].
      apply Nat.eqb_eq in E4. apply nodup4 in E4.
      repeat split; try tauto; eapply nth_error_In; eauto.
    + apply IH. exact L.
Qed.

Lemma rego_inv_draws degrees rs0 g st k :
  rego_inv degrees rs0 g st -> rego_inv degrees rs0 g (with_draws st k).
Proof. intros H. exact H. Qed.

Lemma rego_inv_equiv degrees rs0 g g'' st :
  rego_inv degrees rs0 g st -> wf g'' -> graph_equiv g g'' ->
  rego_inv degrees rs0 g'' st.
Proof.
  intros [W [C [D [E [N H]]]]] W'' HEq.
  split; [assumption|]. split.
  { now rewrite <- (is_connected_equiv g g'' HEq). }
  split.
  { now rewrite <- (degree_equiv g g'' W W'' HEq). }
  split; [|now split].
  intros e He. eapply has_edge_equiv_true; eauto.
Qed.

Lemma rego_inv_accept degrees rs0 g g' st new_rs k :
  rego_inv degrees rs0 g st ->
  wf g' -> NX.is_connected g' = Ok true -> NX.degree g' = NX.degree g ->
  (new_rs > current_rs st)%R ->
  rego_inv degrees rs0 g'
    (mkRego new_rs (rs_history st ++ [new_rs]) (NX.edges g')
            (length (NX.edges g')) (S (accepted_swaps st)) k).
Proof.
  intros [W [C [D [E [N [H1 [H2 [H3 H4]]]]]]]] W' C' D' Hgt.
  split; [assumption|]. split; [assumption|]. split; [congruence|].
  split.
  { simpl. intros [a b] He. apply edges_has_edge; [now apply wf_nodes|].
    exact He. }
  split; [reflexivity|].
  unfold history_ok. simpl. split; [now apply hd_error_snoc|]. split.
  { apply last_last. } split.
  { apply (strictly_increasing_snoc _ rs0); auto.
    - destruct (rs_history st); discriminate.
    - rewrite H2. lra. }
  rewrite length_app. simpl. lia.
Qed.

Lemma rego_loop_spec degrees rs0 n_iter :
  forall G st h,
    G < length h ->
    rego_inv degrees rs0 (deref h G) st ->
    exists st' h',
      rego_loop pinv sample2 n_iter G st h = Ok (st', h')
      /\ frame_except G h h'
      /\ rego_inv degrees rs0 (deref h' G) st'.
Proof.
  induction n_iter as [|n IH]; intros G st h HG I.
  - exists st, h. split; [reflexivity|].
    split; [apply frame_except_refl | assumption].
  - assert (K : forall st1 h1,
               G < length h1 -> frame_except G h h1 ->
               rego_inv degrees rs0 (deref h1 G) st1 ->
               exists st' h',
                 rego_loop pinv sample2 n G st1 h1 = Ok (st', h')
                 /\ frame_except G h h'
                 /\ rego_inv degrees rs0 (deref h' G) st').
    { intros st1 h1 HG1 F1 I1.
      destruct (IH G st1 h1 HG1 I1) as [st' [h' [E [F I']]]].
      exists st', h'. split; [assumption|]. split; [|assumption].
      eapply frame_except_trans; eauto. }
    cbn [rego_loop]. destruct (n_edges st <? 2) eqn:E2.
    { exists st, h. split; [reflexivity|].
      split; [apply frame_except_refl | assumption]. }
    apply Nat.ltb_ge in E2.
    pose proof I as [W [C [D [E [N H]]]]].
    rewrite N in E2 |- *.
    destruct (draw_loop_spec 100 (edges st) (draws st) E2) as [r [k' [ED P]]].
    unfold mbind at 1, lift at 1. rewrite ED. cbn [fst snd].
    pose proof (rego_inv_draws degrees rs0 _ st k' I) as I1.
    destruct r as [[[[u v] x] y]|];
      [|apply K; [assumption | apply frame_except_refl | assumption]].
    destruct P as [Huv [Hxy ND]].
    unfold mbind at 1, read at 1.
    destruct (NX.has_edge (deref h G) u y || NX.has_edge (deref h G) v x)
      eqn:EH;
      [apply K; [assumption | apply frame_except_refl | assumption]|].
    apply orb_false_iff in EH. destruct EH as [Auy Avx].
    destruct (swap_ok (deref h G) u v x y W ND (E _ Huv) (E _ Hxy) Auy Avx)
      as [g' [R [W' [NN [DD [g'' [R' [W'' HEq]]]]]]]].
    unfold mbind at 1. unfold apply_swap.
    rewrite (rewire_run G u v x y u y v x h g' HG R).
    set (h1 := update h G g').
    assert (HG1 : G < length h1) by (unfold h1; now rewrite update_length).
    assert (D1 : deref h1 G = g') by (unfold h1; now apply deref_update_eq).
    assert (REV : revert_swap G u v x y h1 = Ok (tt, update h G g'')).
    { unfold revert_swap. rewrite (rewire_run G u y v x u v x y h1 g'' HG1).
      - unfold h1. now rewrite update_update.
      - now rewrite D1. }
    assert (KREV : exists st' h',
               rego_loop pinv sample2 n G (with_draws st k') (update h G g'')
               = Ok (st', h')
               /\ frame_except G h h'
               /\ rego_inv degrees rs0 (deref h' G) st').
    { apply K.
      - now rewrite update_length.
      - apply frame_except_update.
      - rewrite deref_update_eq by assumption.
        eapply rego_inv_equiv; eauto. }
    unfold mbind at 1, read at 1. rewrite D1.
    assert (NE : g' <> []).
    { intros ->. apply is_connected_nonempty in C.
      destruct (deref h G); [contradiction | discriminate]. }
    destruct (is_connected_total g' NE) as [b C'].
    unfold mbind at 1, lift at 1. rewrite C'.
    destruct b; cbn [negb].
    + rewrite (calculate_Rs_refine pinv pinv_shape g' W' C').
      destruct (Rgt_dec (spec_rs pinv g') (current_rs (with_draws st k')))
        as [Hgt | Hle].
      * apply K; [assumption | apply frame_except_update |].
        rewrite D1. apply rego_inv_accept with (g := deref h G); auto.
      * unfold mbind at 1. rewrite REV. exact KREV.
    + unfold mbind at 1. rewrite REV. exact KREV.
Qed.

Lemma rego_initial_inv g0 :
  wf g0 -> NX.is_connected g0 = Ok true ->
  rego_inv (NX.degree g0) (spec_rs pinv g0) g0
           (rego_initial_state (spec_rs pinv g0) g0).
Proof.
  intros W C. split; [assumption|]. split; [assumption|].
  split; [reflexivity|]. split.
  - simpl. intros [a b] He. apply edges_has_edge; [now apply wf_nodes|].
    exact He.
  - split; [reflexivity|]. unfold history_ok. simpl. tauto.
Qed.

Lemma rego_iterations G_initial h k :
  wf (deref h G_initial) ->
  NX.is_connected (deref h G_initial) = Ok true ->
  exists st_k h_k,
    rego_loop pinv sample2 k (length h)
      (rego_initial_state (spec_rs pinv (deref h G_initial))
                          (deref h G_initial))
      (h ++ [deref h G_initial])
    = Ok (st_k, h_k)
    /\ frame_except (length h) (h ++ [deref h G_initial]) h_k
    /\ rego_inv (NX.degree (deref h G_initial))
                (spec_rs pinv (deref h G_initial))
                (deref h_k (length h)) st_k.
Proof.
  intros W C. apply rego_loop_spec.
  - rewrite length_app. simpl. lia.
  - rewrite deref_app_new. now apply rego_initial_inv.
Qed.

Lemma rego_spec G_initial n_iter h :
  G_initial < length h ->
  wf (deref h G_initial) ->
  NX.is_connected (deref h G_initial) = Ok true ->
  exists history accepted h',
    rego_run pinv sample2 G_initial n_iter h
    = Ok ((length h, history, accepted), h')
    /\ (forall r, r < length h -> deref h' r = deref h r)
    /\ wf (deref h' (length h))
    /\ NX.is_connected (deref h' (length h)) = Ok true
    /\ NX.degree (deref h' (length h)) = NX.degree (deref h G_initial)
    /\ hd_error history = Some (spec_rs pinv (deref h G_initial))
    /\ strictly_increasing history
    /\ length history = S accepted.
Proof.
  intros HG W C. unfold rego_run.
  unfold mbind at 1, read at 1. unfold mbind at 1, lift at 1. rewrite C.
  cbn [negb]. unfold mbind at 1, G_copy, mbind, read, alloc.
  rewrite deref_app_new, (calculate_Rs_refine pinv pinv_shape _ W C).
  destruct (length (NX.edges (deref h G_initial)) <? 2) eqn:E2.
  - exists [spec_rs pinv (deref h G_initial)], 0, (h ++ [deref h G_initial]).
    unfold mret. rewrite deref_app_new.
    repeat split; auto. intros r Hr. now apply deref_app_old.
  - destruct (rego_iterations G_initial h (Z.to_nat n_iter) W C)
      as [st' [h' [EL [[FL F] [W' [C' [D' [_ [_ [H1 [_ [H3 H4]]]]]]]]]]]].
    unfold rego_initial_state in EL. rewrite EL. unfold mret.
    exists (rs_history st'), (accepted_swaps st'), h'.
    repeat split; auto.
    intros r Hr. rewrite F.
    + now apply deref_app_old.
    + rewrite length_app. lia.
    + lia.
Qed.

End RegoFacts.

(* ------------------------------------------------------------------ *)
(** ** Concrete instances *)

Lemma quarter_shape n M : is_square n M -> is_square n (quarter M).
Proof.
  intros [HL HR]. unfold is_square, quarter. split.
  - now rewrite length_map.
  - rewrite Forall_forall in *. intros row H. apply in_map_iff in H.
    destruct H as [row0 [<- H]]. rewrite length_map. now apply HR.
Qed.

Lemma first_and_last_range k n :
  2 <= n -> fst (first_and_last k n) < n /\ snd (first_and_last k n) < n.
Proof. intros H. unfold first_and_last. simpl. lia. Qed.

Lemma pinv_edge_and_isolated_square : is_square 3 pinv_edge_and_isolated.
Proof.
  split; [reflexivity|]. repeat constructor.
Qed.

(* ------------------------------------------------------------------ *)
(** ** Bounds *)

Lemma mean_degree_nonneg G : NX.nodes G <> [] -> (0 <= mean_degree G)%R.
Proof.
  intros NE. unfold mean_degree. apply Rmult_le_pos.
  - apply Rsum_nonneg. rewrite Forall_forall. intros x H.
    apply in_map_iff in H. destruct H as [u [<- _]]. apply pos_INR.
  - left. apply Rinv_0_lt_compat. apply lt_0_INR.
    destruct (NX.nodes G); [contradiction | simpl; lia].
Qed.

Lemma penalty_formula_le_1 G e :
  NX.nodes G <> [] -> mean_degree G <> 0%R -> (penalty_formula G e <= 1)%R.
Proof.
  intros NE NZ. unfold penalty_formula.
  pose proof (mean_degree_nonneg G NE) as HM.
  assert (HN : (0 < INR (length (NX.nodes G)))%R).
  { apply lt_0_INR. destruct (NX.nodes G); [contradiction | simpl; lia]. }
  assert (HD : (0 < 2 * INR (length (NX.nodes G)) * mean_degree G)%R).
  { apply Rmult_lt_0_compat; [lra | lra]. }
  assert (HQ : (0 <= (Rabs (INR (deg G (fst e)) - mean_degree G)
                      + Rabs (INR (deg G (snd e)) - mean_degree G))
                     / (2 * INR (length (NX.nodes G)) * mean_degree G))%R).
  { apply Rmult_le_pos.
    - pose proof (Rabs_pos (INR (deg G (fst e)) - mean_degree G)).
      pose proof (Rabs_pos (INR (deg G (snd e)) - mean_degree G)). lra.
    - left. now apply Rinv_0_lt_compat. }
  lra.
Qed.

Lemma spec_weight_le_1 G e : NX.nodes G <> [] -> (spec_weight G e <= 1)%R.
Proof.
  intros NE. unfold spec_weight.
  destruct (Req_dec_T (mean_degree G) 0); [lra|].
  now apply penalty_formula_le_1.
Qed.

Lemma Int_part_nonneg r : (0 <= r)%R -> (0 <= Int_part r)%Z.
Proof.
  intros H. destruct (base_Int_part r) as [_ B].
  assert (L : (IZR (-1) < IZR (Int_part r))%R) by (simpl; lra).
  apply lt_IZR in L. lia.
Qed.

Lemma py_int_le_floor b : (py_int b <= Z.max 0 (floor b))%Z.
Proof.
  unfold py_int, floor. destruct (Rle_dec 0 b) as [H | H].
  - lia.
  - assert (0 <= Int_part (- b))%Z by (apply Int_part_nonneg; lra). lia.
Qed.

Lemma iterations_bound num_targets budget :
  (Z.of_nat (Z.to_nat match budget with
                      | None => num_targets
                      | Some b => Z.min num_targets (py_int b)
                      end)
   <= Z.max 0 match budget with
              | None => num_targets
              | Some b => Z.min num_targets (floor b)
              end)%Z.
Proof.
  destruct budget as [b|].
  - pose proof (py_int_le_floor b). lia.
  - lia.
Qed.

Lemma rego_optimizer_run pinv sample2 G n_iter h optimized history accepted h' :
  rego_run pinv sample2 G n_iter h = Ok ((optimized, history, accepted), h') ->
  rego_optimizer pinv sample2 G n_iter h = Ok ((optimized, history), h').
Proof.
  intros H. unfold rego_optimizer, mbind. now rewrite H.
Qed.

(* ------------------------------------------------------------------ *)
(** ** ResistanceMetric *)

(** C1, amended. On a disconnected graph [calculate_Rs],
    [calculate_laplacian_pseudoinverse] and
    [calculate_all_pairs_effective_resistance] called without a
    pseudoinverse raise the [ValueError] that reports the graph as
    disconnected, and so return nothing. With a pseudoinverse supplied,
    [calculate_all_pairs_effective_resistance] makes no connectivity check:
    for a matrix of the graph's size it returns, for every edge, the clamped
    value read off that matrix. *)
Theorem C1_disconnected_input pinv G :
  NX.is_connected G = Ok false ->
  calculate_Rs pinv G
  = Raise (ValueError "Rs calculation requires a connected graph.")
  /\ calculate_laplacian_pseudoinverse pinv G
     = Raise (ValueError
         "Graph must be connected to calculate its Laplacian pseudoinverse.")
  /\ calculate_all_pairs_effective_resistance pinv G None
     = Raise (ValueError
         "Graph must be connected to calculate its Laplacian pseudoinverse.")
  /\ forall L,
       wf G -> is_square (length G) L ->
       calculate_all_pairs_effective_resistance pinv G (Some L)
       = Ok (map (fun e => (e, spec_omega L G e)) (NX.edges G)).
Proof.
  intros C. repeat split.
  - unfold calculate_Rs, calculate_Rs_traced. now rewrite C.
  - unfold calculate_laplacian_pseudoinverse. now rewrite C.
  - unfold calculate_all_pairs_effective_resistance,
      calculate_laplacian_pseudoinverse. now rewrite C.
  - intros L W SQ. now apply effective_resistance_supplied.
Qed.

Lemma C1_disconnected_input_witness :
  calculate_Rs quarter edge_and_isolated
  = Raise (ValueError "Rs calculation requires a connected graph.")
  /\ calculate_laplacian_pseudoinverse quarter edge_and_isolated
     = Raise (ValueError
         "Graph must be connected to calculate its Laplacian pseudoinverse.")
  /\ calculate_all_pairs_effective_resistance quarter edge_and_isolated None
     = Raise (ValueError
         "Graph must be connected to calculate its Laplacian pseudoinverse.")
  /\ forall L,
       wf edge_and_isolated -> is_square (length edge_and_isolated) L ->
       calculate_all_pairs_effective_resistance quarter edge_and_isolated
         (Some L)
       = Ok (map (fun e => (e, spec_omega L edge_and_isolated e))
                 (NX.edges edge_and_isolated)).
Proof.
  apply (C1_disconnected_input quarter edge_and_isolated). reflexivity.
Defined.

(** C1 as stated fails: [edge_and_isolated] (an edge 0-1 and an isolated
    node 2) is disconnected, yet with the pseudoinverse of its Laplacian
    supplied [calculate_all_pairs_effective_resistance] returns the mapping
    [{(0, 1): 1.0}] instead of raising. *)
Lemma C1_supplied_pseudoinverse_is_not_checked :
  NX.is_connected edge_and_isolated = Ok false
  /\ calculate_all_pairs_effective_resistance quarter edge_and_isolated
       (Some pinv_edge_and_isolated)
     = Ok [((0, 1), 1%R)].
Proof.
  split; [reflexivity|].
  rewrite effective_resistance_supplied;
    [| reflexivity | exact pinv_edge_and_isolated_square].
  simpl. unfold spec_omega, entry. simpl.
  rewrite Rmax_right by lra.
  do 3 f_equal. lra.
Qed.

(** C2. On a connected graph [calculate_Rs] returns 0 when there is no
    edge; otherwise, with the clamped resistances [Omega_uv] and their total
    [T], it returns 0 when [T = 0] and else the sum over the edges of
    [p ln(1/p) w] with [p = Omega_uv / T], a term with [p = 0] counting 0.
    Every argument it passes to [np.log] is positive, so never 0. *)
Theorem C2_rs_formula pinv G :
  (forall n M, is_square n M -> is_square n (pinv M)) ->
  wf G ->
  NX.is_connected G = Ok true ->
  calculate_Rs pinv G = Ok (spec_rs pinv G)
  /\ exists log_calls,
       calculate_Rs_traced pinv G = Ok (spec_rs pinv G, log_calls)
       /\ Forall (fun x => (0 < x)%R /\ x <> 0%R) log_calls.
Proof.
  intros SH W C. split; [now apply calculate_Rs_refine|].
  destruct (calculate_Rs_traced_refine pinv SH G W C) as [calls [E F]].
  exists calls. split; [assumption|].
  rewrite Forall_forall in *. intros x Hx. specialize (F x Hx). split; lra.
Qed.

Lemma C2_rs_formula_witness :
  calculate_Rs quarter single_edge = Ok (spec_rs quarter single_edge)
  /\ exists log_calls,
       calculate_Rs_traced quarter single_edge
       = Ok (spec_rs quarter single_edge, log_calls)
       /\ Forall (fun x => (0 < x)%R /\ x <> 0%R) log_calls.
Proof.
  apply (C2_rs_formula quarter single_edge quarter_shape); reflexivity.
Defined.

(** C8. [calculate_structural_penalty_weights] returns the empty mapping
    for a graph without nodes or without edges, weight 1 for every edge when
    the mean degree is 0, and otherwise
    [1 - (|d_u - d_bar| + |d_v - d_bar|) / (2 N d_bar)] for every edge
    [(u, v)]; every weight it returns is at most 1. *)
Theorem C8_structural_penalty_weights G :
  wf G ->
  (NX.nodes G = [] \/ NX.edges G = [] ->
   calculate_structural_penalty_weights G = Ok [])
  /\ (NX.nodes G <> [] -> NX.edges G <> [] -> mean_degree G = 0%R ->
      calculate_structural_penalty_weights G
      = Ok (map (fun e => (e, 1%R)) (NX.edges G)))
  /\ (NX.nodes G <> [] -> NX.edges G <> [] -> mean_degree G <> 0%R ->
      calculate_structural_penalty_weights G
      = Ok (map (fun e => (e, penalty_formula G e)) (NX.edges G)))
  /\ exists weights,
       calculate_structural_penalty_weights G = Ok weights
       /\ forall e w, In (e, w) weights -> (w <= 1)%R.
Proof.
  intros W. rewrite (structural_weights_refine G W).
  unfold spec_structuralPenaltyWeights.
  split; [|split; [|split]].
  - intros [-> | ->]; [reflexivity|]. now destruct (NX.nodes G).
  - intros NN NE Z. destruct (NX.nodes G); [contradiction|].
    destruct (NX.edges G) as [|e0 es0] eqn:EE; [contradiction|].
    f_equal. apply map_ext. intros x. unfold spec_weight.
    destruct (Req_dec_T (mean_degree G) 0); [reflexivity | contradiction].
  - intros NN NE NZ. destruct (NX.nodes G); [contradiction|].
    destruct (NX.edges G) as [|e0 es0] eqn:EE; [contradiction|].
    f_equal. apply map_ext. intros x. unfold spec_weight.
    destruct (Req_dec_T (mean_degree G) 0); [contradiction | reflexivity].
  - eexists. split; [reflexivity|]. intros e w H.
    destruct (NX.nodes G) as [|n0 ns0] eqn:EN; [contradiction|].
    destruct (NX.edges G) as [|e0 es0]; [contradiction|].
    apply in_map_iff in H. destruct H as [e' [E _]]. inversion E; subst.
    apply spec_weight_le_1. rewrite EN. discriminate.
Qed.

Lemma C8_structural_penalty_weights_witness :
  (NX.nodes cycle4 = [] \/ NX.edges cycle4 = [] ->
   calculate_structural_penalty_weights cycle4 = Ok [])
  /\ (NX.nodes cycle4 <> [] -> NX.edges cycle4 <> [] ->
      mean_degree cycle4 = 0%R ->
      calculate_structural_penalty_weights cycle4
      = Ok (map (fun e => (e, 1%R)) (NX.edges cycle4)))
  /\ (NX.nodes cycle4 <> [] -> NX.edges cycle4 <> [] ->
      mean_degree cycle4 <> 0%R ->
      calculate_structural_penalty_weights cycle4
      = Ok (map (fun e => (e, penalty_formula cycle4 e)) (NX.edges cycle4)))
  /\ exists weights,
       calculate_structural_penalty_weights cycle4 = Ok weights
       /\ forall e w, In (e, w) weights -> (w <= 1)%R.
Proof.
  apply (C8_structural_penalty_weights cycle4). reflexivity.
Defined.

Lemma spec_rs_single_edge pinv G e : NX.edges G = [e] -> spec_rs pinv G = 0%R.
Proof.
  intros E. unfold spec_rs. rewrite E. simpl.
  set (omega := spec_omega (pinv (NXL.laplacian_matrix G)) G e).
  destruct (Req_dec_T (omega + 0) 0) as [Z | NZ]; [reflexivity|].
  unfold spec_term.
  destruct (Req_dec_T (omega / (omega + 0)) 0) as [Z' | NZ']; [lra|].
  replace (omega / (omega + 0))%R with 1%R.
  - rewrite Rdiv_1_r, ln_1. lra.
  - rewrite Rplus_0_r in *. symmetry. now apply Rdiv_diag.
Qed.

(** C10. For a connected graph with exactly one edge [calculate_Rs]
    returns 0. *)
Theorem C10_single_edge_rs_zero pinv G :
  (forall n M, is_square n M -> is_square n (pinv M)) ->
  wf G ->
  NX.is_connected G = Ok true ->
  NX.number_of_edges G = 1 ->
  calculate_Rs pinv G = Ok 0%R.
Proof.
  intros SH W C N. rewrite (calculate_Rs_refine pinv SH G W C). f_equal.
  unfold NX.number_of_edges in N.
  destruct (NX.edges G) as [|e [|e' es]] eqn:E; try discriminate.
  now apply spec_rs_single_edge with (e := e).
Qed.

Lemma C10_single_edge_rs_zero_witness :
  calculate_Rs quarter single_edge = Ok 0%R.
Proof.
  apply (C10_single_edge_rs_zero quarter single_edge quarter_shape);
    reflexivity.
Defined.

(* ------------------------------------------------------------------ *)
(** ** GreedyTargetSearch *)

(** C3, amended. On a connected graph [find_optimal_targets_greedy]
    returns at most [max(0, min(num_targets, floor(budget)))] targets
    ([max(0, num_targets)] without a budget); the targets are selected in
    turn, each among the edges of the working graph as the removals before
    it have left it, and no edge occurs twice among them, in either
    direction. *)
Theorem C3_greedy_targets pinv G num_targets budget h :
  (forall n M, is_square n M -> is_square n (pinv M)) ->
  G < length h ->
  wf (deref h G) ->
  NX.is_connected (deref h G) = Ok true ->
  exists targets deltas final h',
    find_optimal_targets_greedy pinv G num_targets budget h
    = Ok ((targets, deltas, final), h')
    /\ (Z.of_nat (length targets)
        <= Z.max 0 match budget with
                   | None => num_targets
                   | Some b => Z.min num_targets (floor b)
                   end)%Z
    /\ removal_chain (deref h G) targets (deref h' final)
    /\ NoDup targets
    /\ forall u v, In (u, v) targets -> ~ In (v, u) targets.
Proof.
  intros SH HG W C.
  destruct (greedy_spec pinv SH G num_targets budget h HG W C)
    as [ts [ds [h' [E [_ [_ [L HC]]]]]]].
  exists ts, ds, (length h), h'. split; [exact E|]. split.
  - pose proof (iterations_bound num_targets budget). lia.
  - split; [exact HC|]. split; [eapply chain_NoDup; eauto|].
    intros u v H1 H2.
    pose proof (chain_targets _ _ _ HC _ H1) as E1.
    pose proof (chain_targets _ _ _ HC _ H2) as E2.
    apply (edges_distinct _ _ _ W E1).
    eapply edges_from_orient; eauto.
Qed.

Lemma C3_greedy_targets_witness :
  exists targets deltas final h',
    find_optimal_targets_greedy quarter 0 2 (Some (3 / 2)%R) [cycle4]
    = Ok ((targets, deltas, final), h')
    /\ (Z.of_nat (length targets)
        <= Z.max 0 (Z.min 2 (floor (3 / 2))))%Z
    /\ removal_chain (deref [cycle4] 0) targets (deref h' final)
    /\ NoDup targets
    /\ forall u v, In (u, v) targets -> ~ In (v, u) targets.
Proof.
  apply (C3_greedy_targets quarter 0 2 (Some (3 / 2)%R) [cycle4] quarter_shape);
    [simpl; lia | reflexivity | reflexivity].
Defined.

(** C3 as stated fails for a negative [num_targets]: with
    [num_targets = -1] and no budget, [range(-1)] is empty and the search
    returns an empty target list, which has 0 elements and not at most -1. *)
Lemma C3_negative_num_targets :
  find_optimal_targets_greedy quarter 0 (-1) None [single_edge]
  = Ok (([], [], 1), [single_edge; single_edge])
  /\ ~ (Z.of_nat (length (@nil edge)) <= -1)%Z.
Proof.
  split; [|simpl; lia].
  unfold find_optimal_targets_greedy.
  unfold mbind at 1, read at 1. unfold mbind at 1, lift at 1.
  change (NX.is_connected (deref [single_edge] 0)) with (@Ok bool true).
  cbn [negb]. unfold mbind at 1, G_copy, mbind, read, alloc.
  change (deref ([single_edge] ++ [deref [single_edge] 0])
                (length [single_edge])) with single_edge.
  rewrite (calculate_Rs_refine quarter quarter_shape single_edge);
    reflexivity.
Qed.

(** C9. The graph returned by [find_optimal_targets_greedy] has the nodes
    of the input graph, its edges are the edges of the input graph that are
    not among the returned targets, every target is an edge of the input
    graph, and there are as many deltas as targets. *)
Theorem C9_greedy_final_graph pinv G num_targets budget h :
  (forall n M, is_square n M -> is_square n (pinv M)) ->
  G < length h ->
  wf (deref h G) ->
  NX.is_connected (deref h G) = Ok true ->
  exists targets deltas final h',
    find_optimal_targets_greedy pinv G num_targets budget h
    = Ok ((targets, deltas, final), h')
    /\ NX.nodes (deref h' final) = NX.nodes (deref h G)
    /\ (forall e, In e targets -> In e (NX.edges (deref h G)))
    /\ (forall e, In e (NX.edges (deref h' final))
                  <-> In e (NX.edges (deref h G)) /\ ~ In e targets)
    /\ length deltas = length targets.
Proof.
  intros SH HG W C.
  destruct (greedy_spec pinv SH G num_targets budget h HG W C)
    as [ts [ds [h' [E [_ [LD [_ HC]]]]]]].
  exists ts, ds, (length h), h'. split; [exact E|]. split.
  - eapply chain_nodes; eauto.
  - split; [eapply chain_targets; eauto|].
    split; [eapply chain_edges_minus; eauto | exact LD].
Qed.

Lemma C9_greedy_final_graph_witness :
  exists targets deltas final h',
    find_optimal_targets_greedy quarter 0 2 None [cycle4]
    = Ok ((targets, deltas, final), h')
    /\ NX.nodes (deref h' final) = NX.nodes (deref [cycle4] 0)
    /\ (forall e, In e targets -> In e (NX.edges (deref [cycle4] 0)))
    /\ (forall e, In e (NX.edges (deref h' final))
                  <-> In e (NX.edges (deref [cycle4] 0)) /\ ~ In e targets)
    /\ length deltas = length targets.
Proof.
  apply (C9_greedy_final_graph quarter 0 2 None [cycle4] quarter_shape);
    [simpl; lia | reflexivity | reflexivity].
Defined.

(** A run: on a single edge with one target, the edge is selected (its
    removal leaves an isolated node as largest component, scored 0.0, against
    the baseline 0.0), and the working copy ends up without edges, the input
    object being left alone. *)
Example greedy_on_single_edge :
  find_optimal_targets_greedy quarter 0 1 None [single_edge]
  = Ok (([(0, 1)], [Fin (0 - 0)], 1),
        [single_edge; [(0, []); (1, [])]; [(0, []); (1, [])]]).
Proof.
  assert (RS : calculate_Rs quarter single_edge = Ok 0%R).
  { rewrite (calculate_Rs_refine quarter quarter_shape single_edge);
      [|reflexivity|reflexivity].
    f_equal. now apply spec_rs_single_edge with (e := (0, 1)). }
  unfold find_optimal_targets_greedy.
  unfold mbind at 1, read at 1. unfold mbind at 1, lift at 1.
  change (NX.is_connected (deref [single_edge] 0)) with (@Ok bool true).
  cbn [negb]. unfold mbind at 1, G_copy, mbind, read, alloc.
  change (deref ([single_edge] ++ [deref [single_edge] 0])
                (length [single_edge])) with single_edge.
  rewrite RS.
  change (Z.to_nat 1) with 1. cbn [greedy_loop initial_rs].
  unfold mbind at 1, read at 1.
  change (NX.edges (deref ([single_edge] ++ [deref [single_edge] 0])
                          (length [single_edge]))) with [(0, 1)].
  cbv iota.
  unfold mbind at 1.
  rewrite (candidates_loop_cons quarter 1 0%R (0, 1) [] _ _
             [(0, []); (1, [])] [(0, [])] (Some 0%R));
    [| reflexivity | reflexivity | reflexivity].
  reflexivity.
Qed.

(* ------------------------------------------------------------------ *)
(** ** RewireOptimizer *)

(** C4. The history returned by [rego_optimizer] on a connected graph is
    non-decreasing, indeed strictly increasing; its first element is
    [calculate_Rs] of the input graph; and it has one entry for every
    accepted swap next to that first one. *)
Theorem C4_rego_history pinv sample2 G_initial n_iter h :
  (forall n M, is_square n M -> is_square n (pinv M)) ->
  (forall k n, 2 <= n -> fst (sample2 k n) < n /\ snd (sample2 k n) < n) ->
  G_initial < length h ->
  wf (deref h G_initial) ->
  NX.is_connected (deref h G_initial) = Ok true ->
  exists optimized history accepted h',
    rego_run pinv sample2 G_initial n_iter h
    = Ok ((optimized, history, accepted), h')
    /\ rego_optimizer pinv sample2 G_initial n_iter h
       = Ok ((optimized, history), h')
    /\ non_decreasing history
    /\ strictly_increasing history
    /\ (exists rs0,
          calculate_Rs pinv (deref h G_initial) = Ok rs0
          /\ hd_error history = Some rs0)
    /\ length history = accepted + 1.
Proof.
  intros SH SR HG W C.
  destruct (rego_spec pinv SH sample2 SR G_initial n_iter h HG W C)
    as [hist [acc [h' [E [_ [_ [_ [_ [HD [SI L]]]]]]]]]].
  exists (length h), hist, acc, h'. split; [exact E|].
  split; [now apply rego_optimizer_run with (accepted := acc)|].
  split; [now apply strictly_increasing_non_decreasing|].
  split; [exact SI|]. split; [|lia].
  exists (spec_rs pinv (deref h G_initial)).
  split; [now apply calculate_Rs_refine | exact HD].
Qed.

Lemma C4_rego_history_witness :
  exists optimized history accepted h',
    rego_run quarter first_and_last 0 5 [path6]
    = Ok ((optimized, history, accepted), h')
    /\ rego_optimizer quarter first_and_last 0 5 [path6]
       = Ok ((optimized, history), h')
    /\ non_decreasing history
    /\ strictly_increasing history
    /\ (exists rs0,
          calculate_Rs quarter (deref [path6] 0) = Ok rs0
          /\ hd_error history = Some rs0)
    /\ length history = accepted + 1.
Proof.
  apply (C4_rego_history quarter first_and_last 0 5 [path6]
           quarter_shape first_and_last_range);
    [simpl; lia | reflexivity | reflexivity].
Defined.

(** C5. Every node has in the graph returned by [rego_optimizer] the
    degree it has in the input graph; and so it has in the working graph
    when any number [k] of iterations of the loop have run, whichever swaps
    were accepted, reverted or skipped. *)
Theorem C5_rego_degrees pinv sample2 G_initial n_iter h :
  (forall n M, is_square n M -> is_square n (pinv M)) ->
  (forall k n, 2 <= n -> fst (sample2 k n) < n /\ snd (sample2 k n) < n) ->
  G_initial < length h ->
  wf (deref h G_initial) ->
  NX.is_connected (deref h G_initial) = Ok true ->
  exists optimized history h' rs0,
    rego_optimizer pinv sample2 G_initial n_iter h
    = Ok ((optimized, history), h')
    /\ NX.degree (deref h' optimized) = NX.degree (deref h G_initial)
    /\ (forall u, deg (deref h' optimized) u = deg (deref h G_initial) u)
    /\ calculate_Rs pinv (deref h G_initial) = Ok rs0
    /\ forall k,
         exists st_k h_k,
           rego_loop pinv sample2 k optimized
             (rego_initial_state rs0 (deref h G_initial))
             (h ++ [deref h G_initial])
           = Ok (st_k, h_k)
           /\ NX.degree (deref h_k optimized)
              = NX.degree (deref h G_initial).
Proof.
  intros SH SR HG W C.
  destruct (rego_spec pinv SH sample2 SR G_initial n_iter h HG W C)
    as [hist [acc [h' [E [_ [_ [_ [D _]]]]]]]].
  exists (length h), hist, h', (spec_rs pinv (deref h G_initial)).
  split; [now apply rego_optimizer_run with (accepted := acc)|].
  split; [exact D|]. split; [intros u; unfold deg; now rewrite D|].
  split; [now apply calculate_Rs_refine|].
  intros k.
  destruct (rego_iterations pinv SH sample2 SR G_initial h k W C)
    as [st_k [h_k [E' [_ [_ [_ [D' _]]]]]]].
  exists st_k, h_k. split; [exact E' | exact D'].
Qed.

Lemma C5_rego_degrees_witness :
  exists optimized history h' rs0,
    rego_optimizer quarter first_and_last 0 5 [path6]
    = Ok ((optimized, history), h')
    /\ NX.degree (deref h' optimized) = NX.degree (deref [path6] 0)
    /\ (forall u, deg (deref h' optimized) u = deg (deref [path6] 0) u)
    /\ calculate_Rs quarter (deref [path6] 0) = Ok rs0
    /\ forall k,
         exists st_k h_k,
           rego_loop quarter first_and_last k optimized
             (rego_initial_state rs0 (deref [path6] 0))
             ([path6] ++ [deref [path6] 0])
           = Ok (st_k, h_k)
           /\ NX.degree (deref h_k optimized)
              = NX.degree (deref [path6] 0).
Proof.
  apply (C5_rego_degrees quarter first_and_last 0 5 [path6]
           quarter_shape first_and_last_range);
    [simpl; lia | reflexivity | reflexivity].
Defined.

(** C6. The working graph of [rego_optimizer] is connected when any
    number [k] of iterations of its loop have run (a swap that disconnects
    it is reverted within its iteration), and the graph it returns is
    connected. *)
Theorem C6_rego_connected pinv sample2 G_initial n_iter h :
  (forall n M, is_square n M -> is_square n (pinv M)) ->
  (forall k n, 2 <= n -> fst (sample2 k n) < n /\ snd (sample2 k n) < n) ->
  G_initial < length h ->
  wf (deref h G_initial) ->
  NX.is_connected (deref h G_initial) = Ok true ->
  exists optimized history h' rs0,
    rego_optimizer pinv sample2 G_initial n_iter h
    = Ok ((optimized, history), h')
    /\ NX.is_connected (deref h' optimized) = Ok true
    /\ calculate_Rs pinv (deref h G_initial) = Ok rs0
    /\ forall k,
         exists st_k h_k,
           rego_loop pinv sample2 k optimized
             (rego_initial_state rs0 (deref h G_initial))
             (h ++ [deref h G_initial])
           = Ok (st_k, h_k)
           /\ NX.is_connected (deref h_k optimized) = Ok true.
Proof.
  intros SH SR HG W C.
  destruct (rego_spec pinv SH sample2 SR G_initial n_iter h HG W C)
    as [hist [acc [h' [E [_ [_ [C' _]]]]]]].
  exists (length h), hist, h', (spec_rs pinv (deref h G_initial)).
  split; [now apply rego_optimizer_run with (accepted := acc)|].
  split; [exact C'|]. split; [now apply calculate_Rs_refine|].
  intros k.
  destruct (rego_iterations pinv SH sample2 SR G_initial h k W C)
    as [st_k [h_k [E' [_ [_ [C'' _]]]]]].
  exists st_k, h_k. split; [exact E' | exact C''].
Qed.

Lemma C6_rego_connected_witness :
  exists optimized history h' rs0,
    rego_optimizer quarter first_and_last 0 5 [path6]
    = Ok ((optimized, history), h')
    /\ NX.is_connected (deref h' optimized) = Ok true
    /\ calculate_Rs quarter (deref [path6] 0) = Ok rs0
    /\ forall k,
         exists st_k h_k,
           rego_loop quarter first_and_last k optimized
             (rego_initial_state rs0 (deref [path6] 0))
             ([path6] ++ [deref [path6] 0])
           = Ok (st_k, h_k)
           /\ NX.is_connected (deref h_k optimized) = Ok true.
Proof.
  apply (C6_rego_connected quarter first_and_last 0 5 [path6]
           quarter_shape first_and_last_range);
    [simpl; lia | reflexivity | reflexivity].
Defined.

(** A run: on the path 0-1-2-3-4-5 the first iteration draws the edges
    (0, 1) and (4, 5); the swap to (0, 5) and (1, 4) cuts the nodes 0 and 5
    off, so it is reverted. The working copy has its edges back, node 1 with
    its neighbours in another order, and the history is the initial score
    alone. *)
Example rego_on_path6 :
  rego_optimizer quarter first_and_last 0 1 [path6]
  = Ok ((1, [spec_rs quarter path6]),
        [path6;
         [(0, [1]); (1, [2; 0]); (2, [1; 3]); (3, [2; 4]); (4, [3; 5]);
          (5, [4])]]).
Proof.
  unfold rego_optimizer, rego_run.
  unfold mbind at 1. unfold mbind at 1, read at 1. unfold mbind at 1, lift at 1.
  change (NX.is_connected (deref [path6] 0)) with (@Ok bool true).
  cbn [negb]. unfold mbind at 1, G_copy, mbind, read, alloc.
  change (deref ([path6] ++ [deref [path6] 0]) (length [path6])) with path6.
  rewrite (calculate_Rs_refine quarter quarter_shape path6);
    [|reflexivity|reflexivity].
  generalize (spec_rs quarter path6). intros rs0.
  vm_compute. reflexivity.
Qed.

(* ------------------------------------------------------------------ *)
(** ** The caller's graph *)

(** C7. Neither search mutates the graph it is given: when
    [find_optimal_targets_greedy] or [rego_optimizer] returns, the input
    graph object, and with it its nodes and edges, is what it was before the
    call, as is every other graph object that existed then. *)
Theorem C7_input_graph_not_mutated
        pinv sample2 G num_targets budget n_iter h :
  (forall n M, is_square n M -> is_square n (pinv M)) ->
  (forall k n, 2 <= n -> fst (sample2 k n) < n /\ snd (sample2 k n) < n) ->
  G < length h ->
  wf (deref h G) ->
  NX.is_connected (deref h G) = Ok true ->
  (exists res h',
     find_optimal_targets_greedy pinv G num_targets budget h = Ok (res, h')
     /\ NX.nodes (deref h' G) = NX.nodes (deref h G)
     /\ NX.edges (deref h' G) = NX.edges (deref h G)
     /\ forall r, r < length h -> deref h' r = deref h r)
  /\ (exists res h',
        rego_optimizer pinv sample2 G n_iter h = Ok (res, h')
        /\ NX.nodes (deref h' G) = NX.nodes (deref h G)
        /\ NX.edges (deref h' G) = NX.edges (deref h G)
        /\ forall r, r < length h -> deref h' r = deref h r).
Proof.
  intros SH SR HG W C. split.
  - destruct (greedy_spec pinv SH G num_targets budget h HG W C)
      as [ts [ds [h' [E [F _]]]]].
    exists (ts, ds, length h), h'. split; [exact E|].
    rewrite (F G HG). auto.
  - destruct (rego_spec pinv SH sample2 SR G n_iter h HG W C)
      as [hist [acc [h' [E [F _]]]]].
    exists (length h, hist), h'.
    split; [now apply rego_optimizer_run with (accepted := acc)|].
    rewrite (F G HG). auto.
Qed.

Lemma C7_input_graph_not_mutated_witness :
  (exists res h',
     find_optimal_targets_greedy quarter 0 2 None [path6] = Ok (res, h')
     /\ NX.nodes (deref h' 0) = NX.nodes (deref [path6] 0)
     /\ NX.edges (deref h' 0) = NX.edges (deref [path6] 0)
     /\ forall r, r < length [path6] -> deref h' r = deref [path6] r)
  /\ (exists res h',
        rego_optimizer quarter first_and_last 0 5 [path6] = Ok (res, h')
        /\ NX.nodes (deref h' 0) = NX.nodes (deref [path6] 0)
        /\ NX.edges (deref h' 0) = NX.edges (deref [path6] 0)
        /\ forall r, r < length [path6] -> deref h' r = deref [path6] r).
Proof.
  apply (C7_input_graph_not_mutated quarter first_and_last 0 2 None 5 [path6]
           quarter_shape first_and_last_range);
    [simpl; lia | reflexivity | reflexivity].
Defined.

(* ------------------------------------------------------------------ *)
(** ** Undirected graphs *)

Lemma undirected_nodes G : undirected G -> NoDup (NX.nodes G).
Proof.
  unfold undirected, undirectedb. rewrite andb_true_iff, nodupb_NoDup. tauto.
Qed.

Lemma undirected_entry_facts G n l :
  undirected G -> In (n, l) G ->
  NoDup l /\ forall v, In v l -> NX.has_edge G v n = true.
Proof.
  unfold undirected, undirectedb. rewrite andb_true_iff, forallb_forall.
  intros [_ H] Hin. specialize (H _ Hin). unfold undirected_entry in H.
  simpl in H. rewrite andb_true_iff, nodupb_NoDup, forallb_forall in H.
  exact H.
Qed.

Lemma undirected_intro G :
  NoDup (NX.nodes G) ->
  (forall n l, In (n, l) G ->
     NoDup l /\ forall v, In v l -> NX.has_edge G v n = true) ->
  undirected G.
Proof.
  intros ND H. unfold undirected, undirectedb.
  rewrite andb_true_iff, nodupb_NoDup. split; [assumption|].
  rewrite forallb_forall. intros [n l] Hin. unfold undirected_entry. simpl.
  rewrite andb_true_iff, nodupb_NoDup, forallb_forall. now apply H.
Qed.

Lemma wf_undirected G : wf G -> undirected G.
Proof.
  intros W. apply undirected_intro; [now apply wf_nodes|].
  intros n l H. destruct (wf_entry_facts _ _ _ W H) as [ND [_ S]]. now split.
Qed.

Lemma undirected_wf G :
  undirected G -> (forall u, NX.has_edge G u u = false) -> wf G.
Proof.
  intros U L. apply wf_intro; [now apply undirected_nodes|].
  intros n l H. destruct (undirected_entry_facts _ _ _ U H) as [ND S].
  split; [assumption|]. split; [|assumption].
  intros Hin. specialize (S n Hin). rewrite L in S. discriminate.
Qed.

Lemma undirected_sym G u v :
  undirected G -> NX.has_edge G u v = true -> NX.has_edge G v u = true.
Proof.
  intros U H. apply has_edge_adj in H. destruct H as [l [E Hin]].
  apply adj_Some_In in E.
  destruct (undirected_entry_facts _ _ _ U E) as [_ S]. now apply S.
Qed.

Lemma undirected_target G u v :
  undirected G -> NX.has_edge G u v = true -> In v (NX.nodes G).
Proof.
  intros U H. apply undirected_sym in H; [|assumption].
  eapply has_edge_node; eauto.
Qed.

(* ------------------------------------------------------------------ *)
(** ** The search visits what is reachable *)

Lemma reachable_trans G a b c :
  reachable G a b -> reachable G b c -> reachable G a c.
Proof.
  intros H1 H2. induction H2 as [|u v _ IH E]; [assumption|].
  eapply reach_step; eauto.
Qed.

Lemma reachable_sym G a b : undirected G -> reachable G a b -> reachable G b a.
Proof.
  intros U H. induction H as [|u v _ IH E]; [constructor|].
  apply reachable_trans with (b := u); [|assumption].
  eapply reach_step; [constructor|]. now apply undirected_sym.
Qed.

Lemma expand_NoDup G S : NoDup (NX.expand G S).
Proof. unfold NX.expand. apply NoDup_nodup. Qed.

Lemma expand_incl G S : incl S (NX.expand G S).
Proof. intros x H. apply expand_In. now left. Qed.

Lemma reach_mono k G S : incl S (NX.reach k G S).
Proof.
  revert S. induction k as [|k IH]; simpl; intros S x H; [assumption|].
  apply IH. now apply expand_incl.
Qed.

Lemma closed_expand G S :
  closed G S -> forall x, In x (NX.expand G S) <-> In x S.
Proof.
  intros C x. rewrite expand_In. split; [|tauto].
  intros [H | [u [Hu E]]]; [assumption|]. eapply C; eauto.
Qed.

Lemma closed_equiv G S S' :
  (forall x, In x S <-> In x S') -> closed G S -> closed G S'.
Proof.
  intros E C u v Hu He. apply E. apply (C u v); [now apply E | assumption].
Qed.

Lemma closed_reach k G S :
  closed G S -> forall x, In x (NX.reach k G S) <-> In x S.
Proof.
  revert S. induction k as [|k IH]; simpl; intros S C x; [tauto|].
  rewrite IH.
  - now apply closed_expand.
  - apply closed_equiv with (S := S); [|assumption].
    intros y. symmetry. now apply closed_expand.
Qed.

Lemma expand_within G S :
  undirected G -> incl S (NX.nodes G) -> incl (NX.expand G S) (NX.nodes G).
Proof.
  intros U HS x H. apply expand_In in H. destruct H as [H | [u [_ E]]].
  - now apply HS.
  - eapply undirected_target; eauto.
Qed.

Lemma reach_within k G S :
  undirected G -> incl S (NX.nodes G) -> incl (NX.reach k G S) (NX.nodes G).
Proof.
  intros U. revert S. induction k as [|k IH]; simpl; intros S HS;
    [assumption|].
  apply IH. now apply expand_within.
Qed.

Lemma expand_stable G S :
  NoDup S -> length (NX.expand G S) <= length S -> closed G S.
Proof.
  intros ND L u v Hu E.
  assert (I : incl (NX.expand G S) S).
  { apply NoDup_length_incl; [assumption | assumption | apply expand_incl]. }
  apply I. apply expand_In. right. exists u. now split.
Qed.

Lemma nodes_closed G S :
  undirected G -> incl (NX.nodes G) S -> incl S (NX.nodes G) -> closed G S.
Proof.
  intros U I1 I2 u v _ E. apply I1. eapply undirected_target; eauto.
Qed.

Lemma reach_closed k :
  forall G S,
    undirected G -> NoDup S -> incl S (NX.nodes G) ->
    length G <= k + length S ->
    closed G (NX.reach k G S).
Proof.
  induction k as [|k IH]; intros G S U ND HS L; simpl.
  - apply nodes_closed; [assumption | | assumption].
    apply NoDup_length_incl; [assumption | | assumption].
    unfold NX.nodes. rewrite length_map. simpl in L. lia.
  - destruct (le_lt_dec (length (NX.expand G S)) (length S)) as [Hle | Hlt].
    + pose proof (expand_stable G S ND Hle) as C.
      apply closed_equiv with (S := S); [|assumption].
      intros x. symmetry. rewrite closed_reach.
      * now apply closed_expand.
      * apply closed_equiv with (S := S); [|assumption].
        intros y. symmetry. now apply closed_expand.
    + apply IH; [assumption | apply expand_NoDup | now apply expand_within |].
      lia.
Qed.

Lemma reach_sound k G S x :
  In x (NX.reach k G S) -> exists s, In s S /\ reachable G s x.
Proof.
  revert S. induction k as [|k IH]; simpl; intros S H.
  - exists x. split; [assumption | constructor].
  - apply IH in H. destruct H as [s [Hs R]].
    apply expand_In in Hs. destruct Hs as [Hs | [u [Hu E]]].
    + exists s. now split.
    + exists u. split; [assumption|].
      apply reachable_trans with (b := s); [|assumption].
      eapply reach_step; [constructor | assumption].
Qed.

Lemma component_NoDup G s : NoDup (NX.component G s).
Proof.
  unfold NX.component. apply reach_NoDup. repeat constructor. simpl. tauto.
Qed.

Lemma component_within G s :
  undirected G -> In s (NX.nodes G) -> incl (NX.component G s) (NX.nodes G).
Proof.
  intros U Hs. unfold NX.component. apply reach_within; [assumption|].
  intros x [<- | []]. assumption.
Qed.

Lemma component_root G s : In s (NX.component G s).
Proof. unfold NX.component. apply reach_mono. now left. Qed.

Lemma component_closed G s :
  undirected G -> In s (NX.nodes G) -> closed G (NX.component G s).
Proof.
  intros U Hs. unfold NX.component. apply reach_closed; auto.
  - repeat constructor. simpl. tauto.
  - intros x [<- | []]. assumption.
  - simpl. lia.
Qed.

Lemma component_reachable G s x :
  undirected G -> In s (NX.nodes G) ->
  (In x (NX.component G s) <-> reachable G s x).
Proof.
  intros U Hs. split.
  - intros H. unfold NX.component in H. apply reach_sound in H.
    destruct H as [s' [[<- | []] R]]. exact R.
  - intros R. induction R as [|u v _ IH E]; [apply component_root|].
    eapply component_closed; eauto.
Qed.

Lemma is_connected_reachable G s l G' :
  undirected G -> G = (s, l) :: G' ->
  (NX.is_connected G = Ok true <->
   forall x, In x (NX.nodes G) -> reachable G s x).
Proof.
  intros U EG.
  assert (Hs : In s (NX.nodes G)) by (rewrite EG; now left).
  assert (IC : NX.is_connected G
               = Ok (length (NX.component G s) =? length G))
    by (rewrite EG; reflexivity).
  rewrite IC.
  assert (LN : length (NX.nodes G) = length G)
    by (unfold NX.nodes; apply length_map).
  split.
  - intros H x Hx. inversion H as [H']. apply Nat.eqb_eq in H'.
    apply component_reachable; [assumption | assumption|].
    revert x Hx. apply NoDup_length_incl.
    + apply component_NoDup.
    + lia.
    + now apply component_within.
  - intros H. f_equal. apply Nat.eqb_eq. rewrite <- LN.
    apply Permutation_length, NoDup_Permutation.
    + apply component_NoDup.
    + now apply undirected_nodes.
    + intros x. split; [now apply component_within|].
      intros Hx. apply component_reachable; auto.
Qed.

(* ------------------------------------------------------------------ *)
(** ** The subgraph on a component is connected *)

Lemma mem_filter f v l : mem v (filter f l) = mem v l && f v.
Proof.
  induction l as [|x l IH]; simpl; [reflexivity|].
  destruct (f x) eqn:Fx; simpl.
  - rewrite IH. destruct (v =? x) eqn:E; simpl; [|reflexivity].
    apply Nat.eqb_eq in E. subst. now rewrite Fx.
  - rewrite IH. destruct (v =? x) eqn:E; simpl; [|reflexivity].
    apply Nat.eqb_eq in E. subst. rewrite Fx. now rewrite andb_false_r.
Qed.

Lemma subgraph_has_edge G C a b :
  NX.has_edge (NX.subgraph G C) a b
  = NX.has_edge G a b && mem a C && mem b C.
Proof.
  unfold NX.has_edge. rewrite subgraph_adj.
  destruct (mem a C); destruct (NX.adj G a) as [l|]; simpl;
    rewrite ?andb_false_r, ?andb_true_r; try reflexivity.
  apply mem_filter.
Qed.

Lemma subgraph_nodes G C :
  NX.nodes (NX.subgraph G C) = filter (fun n => mem n C) (NX.nodes G).
Proof.
  unfold NX.subgraph, NX.nodes. rewrite map_map.
  induction G as [|[n l] G IH]; simpl; [reflexivity|].
  destruct (mem n C); simpl; now rewrite IH.
Qed.

Lemma undirected_subgraph G C : undirected G -> undirected (NX.subgraph G C).
Proof.
  intros U. apply undirected_intro.
  - apply subgraph_nodes_NoDup. now apply undirected_nodes.
  - intros n l' Hin. unfold NX.subgraph in Hin.
    apply in_map_iff in Hin. destruct Hin as [[n0 l] [E Hin]].
    inversion E; subst. clear E.
    apply filter_In in Hin. destruct Hin as [Hin Hn].
    destruct (undirected_entry_facts _ _ _ U Hin) as [ND S].
    split; [now apply NoDup_filter|].
    intros v Hv. apply filter_In in Hv. destruct Hv as [Hv Hvn].
    rewrite subgraph_has_edge, (S v Hv), Hvn, Hn. reflexivity.
Qed.

Lemma reachable_inside G C a b :
  closed G C -> In a C -> reachable G a b ->
  reachable (NX.subgraph G C) a b /\ In b C.
Proof.
  intros HC Ha R. induction R as [|u v _ [IH1 IH2] E].
  - split; [constructor | assumption].
  - assert (Hv : In v C) by (eapply HC; eauto).
    split; [|assumption].
    eapply reach_step; [exact IH1|].
    rewrite subgraph_has_edge, E.
    apply mem_In in IH2. apply mem_In in Hv. now rewrite IH2, Hv.
Qed.

Lemma subgraph_component_connected G v :
  undirected G -> In v (NX.nodes G) ->
  NX.is_connected (NX.subgraph G (NX.component G v)) = Ok true.
Proof.
  intros U Hv. set (C := NX.component G v).
  assert (HvC : In v C) by apply component_root.
  pose proof (component_closed G v U Hv) as HC. fold C in HC.
  pose proof (undirected_subgraph G C U) as UH.
  destruct (NX.subgraph G C) as [|[s l] H'] eqn:EH.
  - exfalso.
    assert (Hn : In v (NX.nodes (NX.subgraph G C))).
    { rewrite subgraph_nodes. apply filter_In. split; [assumption|].
      now apply mem_In. }
    rewrite EH in Hn. contradiction.
  - rewrite <- EH in *.
    apply (is_connected_reachable _ s l H' UH EH).
    assert (InC : forall x, In x (NX.nodes (NX.subgraph G C)) -> In x C).
    { intros x Hx. rewrite subgraph_nodes in Hx. apply filter_In in Hx.
      now apply mem_In. }
    assert (Hs : In s C) by (apply InC; rewrite EH; now left).
    intros x Hx. apply InC in Hx.
    apply (reachable_inside G C s x HC Hs).
    apply reachable_trans with (b := v).
    + apply reachable_sym; [assumption|].
      now apply (component_reachable G v s U Hv).
    + now apply (component_reachable G v x U Hv).
Qed.

Lemma components_from_elems G todo seen c :
  In c (NX.components_from G todo seen) ->
  exists v, In v todo /\ c = NX.component G v.
Proof.
  revert seen. induction todo as [|v todo IH]; simpl; intros seen H;
    [contradiction|].
  destruct (mem v seen).
  - apply IH in H. destruct H as [w [Hw E]]. exists w. split; [now right | assumption].
  - destruct H as [<- | H].
    + exists v. split; [now left | reflexivity].
    + apply IH in H. destruct H as [w [Hw E]]. exists w.
      split; [now right | assumption].
Qed.

Lemma max_by_len_In cs c : NX.max_by_len cs = Some c -> In c cs.
Proof.
  revert c. induction cs as [|c0 cs IH]; simpl; intros c H; [discriminate|].
  destruct (NX.max_by_len cs) as [c'|].
  - destruct (length c0 <? length c'); inversion H; subst.
    + right. now apply IH.
    + now left.
  - inversion H. now left.
Qed.

Lemma max_by_len_max cs c :
  NX.max_by_len cs = Some c -> forall c', In c' cs -> length c' <= length c.
Proof.
  revert c. induction cs as [|c0 cs IH]; simpl; intros c H c' Hin;
    [contradiction|].
  destruct (NX.max_by_len cs) as [c1|] eqn:E.
  - specialize (IH c1 eq_refl).
    destruct (length c0 <? length c1) eqn:L; inversion H; subst.
    + apply Nat.ltb_lt in L. destruct Hin as [<- | Hin]; [lia | now apply IH].
    + apply Nat.ltb_ge in L. destruct Hin as [<- | Hin]; [lia|].
      specialize (IH c' Hin). lia.
  - inversion H; subst. destruct Hin as [<- | Hin]; [lia|].
    destruct cs; [contradiction|]. simpl in E.
    destruct (NX.max_by_len cs); [destruct (_ <? _)|]; discriminate.
Qed.

Lemma largest_cc_connected g :
  undirected g -> g <> [] ->
  exists lg,
    largest_cc g = Ok lg
    /\ undirected lg
    /\ NX.is_connected lg = Ok true
    /\ (wf g -> wf lg).
Proof.
  intros U NE. unfold largest_cc.
  destruct (is_connected_total g NE) as [[|] C]; rewrite C; simpl.
  - exists g. auto.
  - destruct (max_by_len_Some (NX.connected_components g)) as [c Hc].
    + unfold NX.connected_components.
      destruct g as [|[n l] g]; [contradiction|]. simpl NX.nodes.
      apply components_nonempty. simpl. tauto.
    + rewrite Hc. simpl. eexists. split; [reflexivity|].
      apply max_by_len_In in Hc.
      apply components_from_elems in Hc. destruct Hc as [v [Hv ->]].
      split; [now apply undirected_subgraph|].
      split; [now apply subgraph_component_connected|].
      intros W. now apply wf_subgraph.
Qed.

(* ------------------------------------------------------------------ *)
(** ** Graphs from adjacency matrices *)

Lemma undirected_add_edge G a b :
  undirected G -> In a (NX.nodes G) -> In b (NX.nodes G) ->
  undirected (NX.add_edge G a b).
Proof.
  intros U Ha Hb.
  pose proof (fun u v => has_edge_add G a b u v Ha Hb) as HE.
  pose proof (nodes_add G a b Ha Hb) as HN.
  apply undirected_intro.
  - rewrite HN. now apply undirected_nodes.
  - intros n l' Hin. rewrite add_edge_eq in Hin by assumption.
    apply rewrite_adj_In in Hin. destruct Hin as [l1 [Hin ->]].
    apply rewrite_adj_In in Hin. destruct Hin as [l [Hin ->]].
    destruct (undirected_entry_facts _ _ _ U Hin) as [ND S].
    split; [now apply NoDup_ad, NoDup_ad|].
    intros v Hv. rewrite !In_ad in Hv. rewrite HE.
    rewrite !orb_true_iff, !andb_true_iff, !Nat.eqb_eq.
    destruct Hv as [[H | [-> ->]] | [-> ->]]; auto.
Qed.

Lemma add_edges_spec es :
  forall G,
    undirected G ->
    (forall e, In e es -> In (fst e) (NX.nodes G) /\ In (snd e) (NX.nodes G)) ->
    let G' := fold_left (fun G e => NX.add_edge G (fst e) (snd e)) es G in
    undirected G'
    /\ NX.nodes G' = NX.nodes G
    /\ forall u v,
         NX.has_edge G' u v = true <->
         NX.has_edge G u v = true \/ In (u, v) es \/ In (v, u) es.
Proof.
  induction es as [|[a b] es IH]; intros G U HN; simpl.
  - split; [assumption|]. split; [reflexivity|]. intros u v. tauto.
  - destruct (HN (a, b) (or_introl eq_refl)) as [Ha Hb]. simpl in Ha, Hb.
    destruct (IH (NX.add_edge G a b)) as [U' [N' E']].
    + now apply undirected_add_edge.
    + intros e He. rewrite nodes_add by assumption. apply HN. now right.
    + split; [exact U'|]. split; [now rewrite N', nodes_add|].
      intros u v. rewrite E', has_edge_add by assumption.
      rewrite !orb_true_iff, !andb_true_iff, !Nat.eqb_eq.
      split.
      * intros [[[H | [-> ->]] | [-> ->]] | [H | H]]; auto.
      * intros [H | [[H | H] | [H | H]]]; auto;
          inversion H; subst; auto.
Qed.

Lemma In_combine_seq (A : Type) (l : list A) s i x :
  In (i, x) (combine (seq s (length l)) l) <->
  s <= i /\ nth_error l (i - s) = Some x.
Proof.
  revert s. induction l as [|y l IH]; simpl; intros s.
  - split; [contradiction|]. intros [_ H]. destruct (i - s); discriminate.
  - rewrite IH. split.
    + intros [H | [H1 H2]].
      * inversion H; subst. split; [lia|]. now rewrite Nat.sub_diag.
      * split; [lia|]. replace (i - s) with (S (i - S s)) by lia. exact H2.
    + intros [H1 H2]. destruct (Nat.eq_dec i s) as [-> | N].
      * left. rewrite Nat.sub_diag in H2. simpl in H2. now inversion H2.
      * right. split; [lia|].
        replace (i - s) with (S (i - S s)) in H2 by lia. exact H2.
Qed.

Lemma nonzero_In A i j :
  In (i, j) (nonzero A) <->
  exists row x,
    nth_error A i = Some row /\ nth_error row j = Some x /\ x <> 0%R.
Proof.
  unfold nonzero. rewrite in_flat_map. split.
  - intros [[i' row] [H1 H2]]. simpl in H2.
    apply In_combine_seq in H1. destruct H1 as [_ H1].
    rewrite Nat.sub_0_r in H1.
    unfold nonzero_row in H2. apply in_map_iff in H2.
    destruct H2 as [[j' x] [E H2]]. simpl in E. inversion E; subst.
    apply filter_In in H2. destruct H2 as [H2 H3]. simpl in H3.
    apply In_combine_seq in H2. destruct H2 as [_ H2].
    rewrite Nat.sub_0_r in H2.
    exists row, x. repeat split; auto.
    destruct (Req_dec_T x 0); [discriminate | assumption].
  - intros [row [x [H1 [H2 H3]]]]. exists (i, row). split.
    + apply In_combine_seq. split; [lia|]. now rewrite Nat.sub_0_r.
    + simpl. unfold nonzero_row. apply in_map_iff. exists (j, x).
      split; [reflexivity|]. apply filter_In. split.
      * apply In_combine_seq. split; [lia|]. now rewrite Nat.sub_0_r.
      * simpl. destruct (Req_dec_T x 0); [contradiction | reflexivity].
Qed.

Lemma square_check A :
  forallb (fun row => length row =? length A) A = true <->
  is_square (length A) A.
Proof.
  unfold is_square. rewrite forallb_forall, Forall_forall. split.
  - intros H. split; [reflexivity|]. intros row Hr.
    now apply Nat.eqb_eq, H.
  - intros [_ H] row Hr. now apply Nat.eqb_eq, H.
Qed.

Lemma nonzero_square A n i j :
  is_square n A ->
  (In (i, j) (nonzero A) <-> i < n /\ j < n /\ entry A i j <> 0%R).
Proof.
  intros [HL HR]. rewrite Forall_forall in HR. rewrite nonzero_In.
  unfold entry. split.
  - intros [row [x [H1 [H2 H3]]]].
    assert (Hrow : length row = n) by (apply HR; eapply nth_error_In; eauto).
    split; [rewrite <- HL; apply nth_error_Some; congruence|].
    split; [rewrite <- Hrow; apply nth_error_Some; congruence|].
    rewrite (nth_error_nth _ _ [] H1), (nth_error_nth _ _ 0%R H2).
    exact H3.
  - intros [Hi [Hj H]].
    destruct (nth_error A i) as [row|] eqn:E1;
      [|apply nth_error_None in E1; lia].
    assert (Hrow : length row = n) by (apply HR; eapply nth_error_In; eauto).
    destruct (nth_error row j) as [x|] eqn:E2;
      [|apply nth_error_None in E2; lia].
    exists row, x. repeat split; auto.
    rewrite (nth_error_nth _ _ [] E1), (nth_error_nth _ _ 0%R E2) in H.
    exact H.
Qed.

Lemma empty_graph_undirected n :
  undirected (map (fun i => (i, @nil node)) (seq 0 n)).
Proof.
  apply undirected_intro.
  - unfold NX.nodes. rewrite map_map. simpl. rewrite map_id. apply seq_NoDup.
  - intros m l H. apply in_map_iff in H. destruct H as [i [E _]].
    inversion E; subst. split; [constructor | contradiction].
Qed.

Lemma empty_graph_no_edge n u v :
  NX.has_edge (map (fun i => (i, @nil node)) (seq 0 n)) u v = false.
Proof.
  destruct (NX.has_edge _ u v) eqn:E; [|reflexivity].
  apply has_edge_adj in E. destruct E as [l [E Hin]].
  apply adj_Some_In in E. apply in_map_iff in E.
  destruct E as [i [E _]]. inversion E; subst. contradiction.
Qed.

Lemma from_numpy_array_spec A n :
  is_square n A ->
  exists G,
    from_numpy_array A = Ok G
    /\ undirected G
    /\ NX.nodes G = seq 0 n
    /\ forall u v,
         NX.has_edge G u v = true <->
         u < n /\ v < n /\ (entry A u v <> 0%R \/ entry A v u <> 0%R).
Proof.
  intros SQ. pose proof SQ as [HL _]. subst n.
  unfold from_numpy_array.
  rewrite (proj2 (square_check A) SQ).
  set (G0 := map (fun i => (i, @nil node)) (seq 0 (length A))).
  assert (N0 : NX.nodes G0 = seq 0 (length A)).
  { unfold G0, NX.nodes. rewrite map_map. simpl. apply map_id. }
  destruct (add_edges_spec (nonzero A) G0) as [U [N E]].
  - apply empty_graph_undirected.
  - intros [i j] H. apply (nonzero_square A (length A) i j SQ) in H.
    simpl. rewrite N0, !in_seq. lia.
  - eexists. split; [reflexivity|]. split; [exact U|].
    split; [now rewrite N, N0|].
    intros u v. rewrite E. unfold G0. rewrite empty_graph_no_edge.
    rewrite !(nonzero_square A (length A) _ _ SQ). split.
    + intros [H | [H | H]]; [discriminate | tauto | tauto].
    + intros [Hu [Hv [H | H]]]; tauto.
Qed.

Lemma from_numpy_array_not_square A :
  ~ is_square (length A) A -> from_numpy_array A = Raise NetworkXError.
Proof.
  intros H. unfold from_numpy_array.
  destruct (forallb (fun row => length row =? length A) A) eqn:E;
    [|reflexivity].
  apply square_check in E. contradiction.
Qed.

(* ------------------------------------------------------------------ *)
(** ** reconstruct_vascular_network *)

Lemma reconstruct_run A g0 lg h :
  from_numpy_array A = Ok g0 ->
  largest_cc g0 = Ok lg ->
  exists G ext,
    reconstruct_vascular_network A h = Ok (G, h ++ ext)
    /\ deref (h ++ ext) G = lg
    /\ length h <= G < length (h ++ ext).
Proof.
  intros EA EL. unfold reconstruct_vascular_network.
  unfold mbind at 1, lift at 1. rewrite EA.
  unfold mbind at 1, alloc at 1. unfold mbind at 1, read at 1.
  rewrite deref_app_new.
  unfold largest_cc in EL.
  destruct (NX.is_connected g0) as [[|]|e] eqn:C; simpl in EL;
    [| |discriminate].
  - inversion EL; subst lg. unfold mbind at 1, lift at 1. cbn [negb].
    exists (length h), [g0]. unfold mret.
    split; [reflexivity|]. split; [apply deref_app_new|].
    rewrite length_app. simpl. lia.
  - unfold mbind at 1, lift at 1. cbn [negb].
    destruct (NX.max_by_len (NX.connected_components g0)) as [c|];
      simpl in EL; [|discriminate].
    inversion EL; subst lg.
    unfold mbind, lift, alloc. simpl of_option.
    exists (length (h ++ [g0])), [g0; NX.subgraph g0 c].
    replace (h ++ [g0; NX.subgraph g0 c])
      with ((h ++ [g0]) ++ [NX.subgraph g0 c])
      by (now rewrite <- app_assoc).
    split; [reflexivity|]. split; [apply deref_app_new|].
    rewrite !length_app. simpl. lia.
Qed.

Lemma nonempty_square_graph n (g0 : Graph) :
  0 < n -> NX.nodes g0 = seq 0 n -> g0 <> [].
Proof.
  intros Hn HN ->. destruct n; [lia | discriminate].
Qed.

Lemma largest_cc_induced g lg :
  undirected g -> largest_cc g = Ok lg ->
  incl (NX.nodes lg) (NX.nodes g)
  /\ closed g (NX.nodes lg)
  /\ (forall u v,
        NX.has_edge lg u v = true <->
        In u (NX.nodes lg) /\ In v (NX.nodes lg) /\ NX.has_edge g u v = true)
  /\ (forall c, In c (NX.connected_components g) -> length c <= length lg).
Proof.
  intros U EL. unfold largest_cc in EL.
  assert (CL : forall c, In c (NX.connected_components g) ->
                         NoDup c /\ incl c (NX.nodes g)).
  { intros c Hc. apply components_from_elems in Hc.
    destruct Hc as [v [Hv ->]].
    split; [apply component_NoDup | now apply component_within]. }
  assert (LN : forall H : Graph, length (NX.nodes H) = length H)
    by (intros H; unfold NX.nodes; apply length_map).
  destruct (NX.is_connected g) as [[|]|e] eqn:C; simpl in EL;
    [| |discriminate].
  - inversion EL; subst lg. split; [apply incl_refl|].
    split; [apply nodes_closed; auto using incl_refl|]. split.
    + intros u v. split.
      * intros H. split; [eapply has_edge_node; eauto|].
        split; [eapply undirected_target; eauto | assumption].
      * tauto.
    + intros c Hc. destruct (CL c Hc) as [ND I]. rewrite <- LN.
      now apply NoDup_incl_length.
  - destruct (NX.max_by_len (NX.connected_components g)) as [c|] eqn:EM;
      simpl in EL; [|discriminate].
    inversion EL; subst lg.
    pose proof (max_by_len_max _ _ EM) as MX.
    apply max_by_len_In in EM. destruct (CL c EM) as [NDc Ic].
    apply components_from_elems in EM. destruct EM as [v [Hv Ec]].
    assert (IN : forall x, In x (NX.nodes (NX.subgraph g c)) <-> In x c).
    { intros x. rewrite subgraph_nodes, filter_In, mem_In. split; [tauto|].
      intros H. split; [now apply Ic | assumption]. }
    split; [intros x Hx; apply Ic; now apply IN|]. split.
    { apply closed_equiv with (S := c); [intros x; symmetry; apply IN|].
      rewrite Ec. now apply component_closed. }
    split.
    + intros u v'. rewrite subgraph_has_edge, !andb_true_iff, !mem_In, !IN.
      tauto.
    + intros c' Hc'. specialize (MX c' Hc').
      assert (length (NX.nodes (NX.subgraph g c)) = length c).
      { apply Permutation_length, NoDup_Permutation; auto.
        apply subgraph_nodes_NoDup. now apply undirected_nodes. }
      rewrite LN in H. lia.
Qed.

Lemma reconstruct_spec A n h :
  is_square n A -> 0 < n ->
  exists g0 G ext,
    from_numpy_array A = Ok g0
    /\ reconstruct_vascular_network A h = Ok (G, h ++ ext)
    /\ length h <= G < length (h ++ ext)
    /\ largest_cc g0 = Ok (deref (h ++ ext) G)
    /\ undirected g0
    /\ NX.nodes g0 = seq 0 n
    /\ (forall u v,
          NX.has_edge g0 u v = true <->
          u < n /\ v < n /\ (entry A u v <> 0%R \/ entry A v u <> 0%R))
    /\ undirected (deref (h ++ ext) G)
    /\ NX.is_connected (deref (h ++ ext) G) = Ok true.
Proof.
  intros SQ Hn.
  destruct (from_numpy_array_spec A n SQ) as [g0 [EA [U [HN HE]]]].
  pose proof (nonempty_square_graph n g0 Hn HN) as NE.
  destruct (largest_cc_connected g0 U NE) as [lg [EL [UL [CL _]]]].
  destruct (reconstruct_run A g0 lg h EA EL) as [G [ext [ER [ED LG]]]].
  exists g0, G, ext. rewrite ED.
  split; [exact EA|]. split; [exact ER|]. split; [exact LG|].
  split; [exact EL|]. split; [exact U|]. split; [exact HN|].
  split; [exact HE|]. split; [exact UL | exact CL].
Qed.

(* ------------------------------------------------------------------ *)
(** ** Which pairs the edge enumeration reports *)

Lemma edges_from_iff seen G u v :
  In (u, v) (NX.edges_from seen G) <->
  exists G1 l G2,
    G = G1 ++ (u, l) :: G2
    /\ In v l /\ ~ In v seen /\ ~ In v (NX.nodes G1).
Proof.
  revert seen. induction G as [|[n l0] G IH]; intros seen; simpl.
  - split; [contradiction|]. intros [G1 [l [G2 [E _]]]].
    destruct G1; discriminate.
  - rewrite in_app_iff, in_map_iff, IH. split.
    + intros [[m [E H]] | [G1 [l [G2 [E [H1 [H2 H3]]]]]]].
      * inversion E; subst. apply filter_In in H. destruct H as [H1 H2].
        apply negb_true_iff, mem_false in H2.
        exists [], l0, G. simpl. tauto.
      * exists ((n, l0) :: G1), l, G2. subst G. simpl.
        split; [reflexivity|]. split; [assumption|]. split.
        -- intros H. apply H2. now right.
        -- intros [-> | H]; [apply H2; now left | contradiction].
    + intros [G1 [l [G2 [E [H1 [H2 H3]]]]]].
      destruct G1 as [|[n' l'] G1]; simpl in E; inversion E; subst.
      * left. exists v. split; [reflexivity|]. apply filter_In.
        split; [assumption|]. now apply negb_true_iff, mem_false.
      * right. exists G1, l, G2. simpl in H3.
        split; [reflexivity|]. split; [assumption|]. split.
        -- intros [<- | H]; [apply H3; now left | contradiction].
        -- intros H. apply H3. now right.
Qed.

Lemma split_like (G' : Graph) a u b :
  NX.nodes G' = a ++ u :: b ->
  exists G1 l G2,
    G' = G1 ++ (u, l) :: G2 /\ NX.nodes G1 = a /\ NX.nodes G2 = b.
Proof.
  unfold NX.nodes. intros H. apply map_eq_app in H.
  destruct H as [G1 [R [E [H1 H2]]]]. apply map_eq_cons in H2.
  destruct H2 as [[u' l] [G2 [E2 [H2 H3]]]]. simpl in H2. subst.
  exists G1, l, G2. auto.
Qed.

Lemma edges_equiv_In G G' u v :
  NoDup (NX.nodes G) -> graph_equiv G G' ->
  In (u, v) (NX.edges G) -> In (u, v) (NX.edges G').
Proof.
  intros ND [HN HE] H. unfold NX.edges in *. apply edges_from_iff in H.
  destruct H as [G1 [l [G2 [E [H1 [_ H3]]]]]].
  assert (Huv : NX.has_edge G u v = true).
  { apply has_edge_adj. exists l. split; [|assumption].
    apply adj_In; [assumption|]. rewrite E. apply in_or_app. right. now left. }
  assert (EN : NX.nodes G' = NX.nodes G1 ++ u :: NX.nodes G2).
  { rewrite <- HN, E. unfold NX.nodes. now rewrite map_app. }
  destruct (split_like G' _ _ _ EN) as [G1' [l' [G2' [E' [N1 N2]]]]].
  apply edges_from_iff. exists G1', l', G2'.
  split; [assumption|]. split; [|split; [tauto | now rewrite N1]].
  rewrite HE in Huv. apply has_edge_adj in Huv.
  destruct Huv as [l'' [A Hin]].
  rewrite (adj_In G' u l') in A.
  - inversion A; subst. assumption.
  - now rewrite <- HN.
  - rewrite E'. apply in_or_app. right. now left.
Qed.

Lemma graph_equiv_sym G G' : graph_equiv G G' -> graph_equiv G' G.
Proof. intros [HN HE]. split; [now symmetry | intros u v; now rewrite HE]. Qed.

Lemma edges_equiv_Permutation G G' :
  wf G -> wf G' -> graph_equiv G G' -> Permutation (NX.edges G) (NX.edges G').
Proof.
  intros W W' HEq. apply NoDup_Permutation; try now apply edges_NoDup.
  intros [u v]. split.
  - apply edges_equiv_In; [now apply wf_nodes | assumption].
  - apply edges_equiv_In; [now apply wf_nodes | now apply graph_equiv_sym].
Qed.

Lemma nodes_before G1 u l G2 :
  NoDup (NX.nodes (G1 ++ (u, l) :: G2)) -> ~ In u (NX.nodes G1).
Proof.
  unfold NX.nodes. rewrite map_app. simpl. intros ND H.
  apply NoDup_remove_2 in ND. apply ND. apply in_or_app. now left.
Qed.

Lemma has_edge_edges G u v :
  undirected G -> NX.has_edge G u v = true ->
  In (u, v) (NX.edges G) \/ In (v, u) (NX.edges G).
Proof.
  intros U H. pose proof (undirected_nodes G U) as ND.
  pose proof (undirected_sym G u v U H) as H'.
  apply has_edge_adj in H. destruct H as [l [A Hv]].
  apply has_edge_adj in H'. destruct H' as [l' [A' Hu]].
  apply adj_Some_In in A. apply adj_Some_In in A'.
  destruct (in_split _ _ A) as [G1 [G2 E]].
  destruct (in_dec Nat.eq_dec v (NX.nodes G1)) as [Hin | Hout].
  - right. unfold NX.nodes in Hin. apply in_map_iff in Hin.
    destruct Hin as [[v0 l0] [Ev Hin]]. simpl in Ev. subst v0.
    destruct (in_split _ _ Hin) as [G1a [G1b E1]].
    assert (l0 = l').
    { assert (In (v, l0) G) by (rewrite E; apply in_or_app; now left).
      pose proof (adj_In G v l0 ND H) as X.
      pose proof (adj_In G v l' ND A') as Y. congruence. }
    subst l0.
    unfold NX.edges. apply edges_from_iff.
    exists G1a, l', (G1b ++ (u, l) :: G2).
    split; [rewrite E, E1, <- app_assoc; reflexivity|].
    split; [assumption|]. split; [tauto|].
    intros Hua. rewrite E in ND. apply (nodes_before _ _ _ _ ND).
    rewrite E1. unfold NX.nodes in *. rewrite map_app.
    apply in_or_app. now left.
  - left. unfold NX.edges. apply edges_from_iff.
    exists G1, l, G2. tauto.
Qed.

Lemma Rsum_Permutation l l' : Permutation l l' -> Rsum l = Rsum l'.
Proof.
  induction 1; simpl; try lra.
Qed.

(* ------------------------------------------------------------------ *)
(** ** The score does not depend on how neighbours are ordered *)

Lemma laplacian_equiv G G' :
  graph_equiv G G' -> NXL.laplacian_matrix G = NXL.laplacian_matrix G'.
Proof.
  intros [HN HE]. unfold NXL.laplacian_matrix. rewrite <- HN.
  assert (EA : forall u v, NXL.A G u v = NXL.A G' u v)
    by (intros u v; unfold NXL.A; now rewrite HE).
  apply map_ext. intros u. apply map_ext. intros v.
  rewrite EA. f_equal.
  destruct (u =? v); [|reflexivity]. f_equal. apply map_ext. apply EA.
Qed.

Lemma deg_equiv G G' u :
  wf G -> wf G' -> graph_equiv G G' -> deg G u = deg G' u.
Proof.
  intros W W' HEq. unfold deg. now rewrite (degree_equiv G G' W W' HEq).
Qed.

Lemma mean_degree_equiv G G' :
  wf G -> wf G' -> graph_equiv G G' -> mean_degree G = mean_degree G'.
Proof.
  intros W W' HEq. unfold mean_degree. destruct HEq as [HN HE].
  rewrite <- HN. do 2 f_equal. apply map_ext. intros u.
  f_equal. apply deg_equiv; auto. now split.
Qed.

Lemma spec_weight_equiv G G' e :
  wf G -> wf G' -> graph_equiv G G' -> spec_weight G e = spec_weight G' e.
Proof.
  intros W W' HEq. unfold spec_weight, penalty_formula.
  rewrite <- (mean_degree_equiv G G' W W' HEq).
  rewrite <- !(deg_equiv G G' _ W W' HEq).
  destruct HEq as [HN _]. now rewrite <- HN.
Qed.

Lemma spec_omega_equiv L G G' e :
  graph_equiv G G' -> spec_omega L G e = spec_omega L G' e.
Proof. intros [HN _]. unfold spec_omega. now rewrite HN. Qed.

Lemma spec_rs_equiv pinv G G' :
  wf G -> wf G' -> graph_equiv G G' -> spec_rs pinv G = spec_rs pinv G'.
Proof.
  intros W W' HEq.
  pose proof (edges_equiv_Permutation G G' W W' HEq) as P.
  unfold spec_rs. rewrite <- (laplacian_equiv G G' HEq).
  set (L := pinv (NXL.laplacian_matrix G)).
  assert (ET : Rsum (map (spec_omega L G) (NX.edges G))
               = Rsum (map (spec_omega L G') (NX.edges G'))).
  { rewrite (map_ext _ _ (fun e => eq_sym (spec_omega_equiv L G G' e HEq))).
    apply Rsum_Permutation. now apply Permutation_map. }
  destruct (NX.edges G) as [|e es] eqn:E, (NX.edges G') as [|e' es'] eqn:E'.
  - reflexivity.
  - apply Permutation_nil in P. discriminate.
  - apply Permutation_sym, Permutation_nil in P. discriminate.
  - cbv zeta. rewrite <- ET.
    destruct (Req_dec_T (Rsum (map (spec_omega L G) (e :: es))) 0);
      [reflexivity|].
    etransitivity;
      [apply Rsum_Permutation; apply Permutation_map; exact P|].
    f_equal. apply map_ext. intros x.
    now rewrite (spec_omega_equiv L G G' x HEq),
      (spec_weight_equiv G G' x W W' HEq).
Qed.

(* ------------------------------------------------------------------ *)
(** ** Degrees add up to twice the number of edges *)

Lemma degree_as_len G :
  wf G -> NX.degree G = map (fun n => (n, len G n)) (NX.nodes G).
Proof.
  intros W. unfold NX.degree, NX.nodes. rewrite map_map.
  apply map_ext_in. intros [n l] Hin. simpl. f_equal.
  unfold len, NX.nbrs_of, NX.degree_of.
  rewrite (adj_In G n l (wf_nodes G W) Hin).
  destruct (wf_entry_facts _ _ _ W Hin) as [_ [NI _]].
  apply mem_false in NI. rewrite NI. lia.
Qed.

Lemma sum_degrees G :
  wf G -> sum_nat (dict_values (NX.degree G)) = total (len G) (NX.nodes G).
Proof.
  intros W. unfold sum_nat, total. rewrite fold_left_add.
  rewrite (degree_as_len G W). unfold dict_values. rewrite map_map. simpl.
  reflexivity.
Qed.

Lemma total_inc a b ns :
  NoDup ns -> a <> b ->
  total (inc a b) ns
  = (if mem a ns then 1 else 0) + (if mem b ns then 1 else 0).
Proof.
  intros ND N. unfold total.
  induction ns as [|n ns IH]; simpl; [reflexivity|].
  apply NoDup_cons_iff in ND. destruct ND as [Hn ND']. rewrite (IH ND').
  unfold inc. rewrite (Nat.eqb_sym a n), (Nat.eqb_sym b n).
  apply mem_false in Hn.
  destruct (Nat.eqb_spec n a) as [Ea | Na], (Nat.eqb_spec n b) as [Eb | Nb];
    simpl; try congruence.
  - subst n. rewrite Hn. lia.
  - subst n. rewrite Hn. lia.
Qed.

Lemma total_add f g ns :
  total (fun n => f n + g n) ns = total f ns + total g ns.
Proof.
  unfold total. induction ns as [|n ns IH]; simpl; [reflexivity|].
  rewrite IH. lia.
Qed.

Lemma total_ext f g ns : (forall n, f n = g n) -> total f ns = total g ns.
Proof.
  intros H. unfold total. f_equal. apply map_ext. exact H.
Qed.

Lemma filter_one (l : list edge) f e :
  NoDup l -> In e l ->
  (forall x, In x l -> (f x = false <-> x = e)) ->
  length (filter f l) + 1 = length l.
Proof.
  induction l as [|y l IH]; simpl; intros ND Hin H; [contradiction|].
  inversion ND as [|? ? Hy ND']; subst.
  destruct (f y) eqn:Fy; simpl.
  - destruct Hin as [-> | Hin].
    + assert (f e = false) by (apply H; auto). congruence.
    + rewrite <- (IH ND' Hin); [lia|].
      intros x Hx. apply H. now right.
  - assert (y = e) by (apply H; auto). subst y.
    assert (F : filter f l = l).
    { apply forallb_filter_id. apply forallb_forall. intros x Hx.
      destruct (f x) eqn:Fx; [reflexivity|].
      assert (x = e) by (apply H; auto). subst. contradiction. }
    rewrite F. lia.
Qed.

Lemma edges_remove_length G u v G' :
  wf G -> In (u, v) (NX.edges G) -> NX.remove_edge G u v = Ok G' ->
  length (NX.edges G') + 1 = length (NX.edges G).
Proof.
  intros W Hin HR. rewrite (edges_remove _ _ _ _ HR).
  apply filter_one with (e := (u, v)); [now apply edges_NoDup | assumption|].
  intros x Hx. split.
  - intros K. destruct (keeps u v x) eqn:K'; [discriminate|].
    unfold keeps in K'. apply negb_false_iff, orb_true_iff in K'.
    destruct K' as [K' | K']; apply edge_eqb_eq in K'; [assumption|].
    subst x. exfalso. apply (edges_distinct G u v W Hin).
    eapply edges_from_orient; eauto.
  - intros ->. destruct (keeps u v (u, v)) eqn:K; [|reflexivity].
    apply keeps_iff in K. tauto.
Qed.

Lemma handshake_aux m :
  forall G, wf G -> length (NX.edges G) = m ->
            total (len G) (NX.nodes G) = 2 * m.
Proof.
  induction m as [|m IH]; intros G W L.
  - assert (Z : forall n, len G n = 0).
    { intros n. unfold len. destruct (NX.nbrs_of G n) as [|v l] eqn:E;
        [reflexivity|].
      exfalso. assert (H : NX.has_edge G n v = true).
      { apply nbrs_of_In. rewrite E. now left. }
      apply has_edge_edges in H; [|now apply wf_undirected].
      destruct (NX.edges G); [|discriminate]. destruct H as [[] | []]. }
    rewrite (total_ext _ (fun _ => 0) _ Z). unfold total.
    induction (NX.nodes G); simpl; auto.
  - destruct (NX.edges G) as [|[u v] es] eqn:E; [discriminate|].
    assert (Hin : In (u, v) (NX.edges G)) by (rewrite E; now left).
    pose proof (edges_has_edge G u v (wf_nodes G W) Hin) as He.
    pose proof (remove_edge_ok G u v He) as HR.
    set (G' := rewrite_adj (rm u v) G) in *.
    pose proof (wf_remove_edge _ _ _ _ W HR) as W'.
    pose proof (edges_remove_length G u v G' W Hin HR) as LE.
    rewrite E in LE. simpl in LE, L.
    assert (L' : length (NX.edges G') = m) by lia.
    pose proof (IH G' W' L') as S'.
    rewrite (nodes_remove _ _ _ _ HR) in S'.
    rewrite (total_ext (len G) (fun n => len G' n + inc u v n));
      [|intros n; symmetry; now apply len_remove].
    rewrite total_add, S', total_inc;
      [| now apply wf_nodes | now apply (edges_distinct G u v W) ].
    destruct (edges_endpoints G u v W Hin) as [Hu Hv].
    apply mem_In in Hu. apply mem_In in Hv. rewrite Hu, Hv. lia.
Qed.

Lemma handshake G :
  wf G ->
  sum_nat (dict_values (NX.degree G)) = 2 * NX.number_of_edges G.
Proof.
  intros W. rewrite sum_degrees by assumption.
  now apply handshake_aux.
Qed.

(* ------------------------------------------------------------------ *)
(** ** More on the resistance metric *)

Lemma dict_set_entries (d : dict edge R) k v kv :
  In kv (dict_set edge_eqb d k v) -> In kv d \/ snd kv = v.
Proof.
  induction d as [|[k' v'] d IH]; simpl.
  - intros [<- | []]. now right.
  - destruct (edge_eqb k k').
    + intros [<- | H]; [now right | left; now right].
    + intros [<- | H]; [left; now left|].
      destruct (IH H) as [H' | H']; [left; now right | now right].
Qed.

Lemma dict_set_keys (d : dict edge R) k v x :
  In x (dict_keys (dict_set edge_eqb d k v)) <-> x = k \/ In x (dict_keys d).
Proof.
  induction d as [|[k' v'] d IH]; simpl.
  - split; [intros [<- | []]; now left | intros [-> | []]; now left].
  - destruct (edge_eqb k k') eqn:E; simpl.
    + apply edge_eqb_eq in E. subst k'. intuition congruence.
    + rewrite IH. tauto.
Qed.

Lemma resistance_loop_result L node_map es :
  forall acc d,
    resistance_loop L node_map es acc = Ok d ->
    (forall x, In x (dict_keys d) <-> In x (dict_keys acc) \/ In x es)
    /\ (forall kv, In kv d -> In kv acc \/ (0 <= snd kv)%R).
Proof.
  induction es as [|[u v] es IH]; simpl; intros acc d H.
  - inversion H; subst. split; [tauto | auto].
  - destruct (dict_get Nat.eqb node_map u) as [i|]; [|discriminate].
    destruct (dict_get Nat.eqb node_map v) as [j|]; [|discriminate].
    simpl in H.
    destruct (mget L i i) as [a|]; [|discriminate].
    destruct (mget L j j) as [b|]; [|discriminate].
    destruct (mget L i j) as [c|]; [|discriminate].
    simpl in H. apply IH in H. destruct H as [K V]. split.
    + intros x. rewrite K, dict_set_keys. simpl. intuition (subst; auto).
    + intros kv Hkv. destruct (V kv Hkv) as [H | H]; [|now right].
      apply dict_set_entries in H. destruct H as [H | H]; [now left|].
      right. rewrite H. apply Rmax_l.
Qed.

Lemma mget_out_of_range L m i j :
  is_square m L -> m <= i \/ m <= j -> mget L i j = Raise IndexError.
Proof.
  intros [HL HR] H. unfold mget.
  destruct (nth_error L i) as [row|] eqn:E; [|reflexivity].
  assert (Hi : i < m) by (rewrite <- HL; apply nth_error_Some; congruence).
  assert (Hrow : length row = m).
  { rewrite Forall_forall in HR. apply HR. eapply nth_error_In; eauto. }
  destruct (nth_error row j) as [x|] eqn:E2; [|reflexivity].
  assert (j < m) by (rewrite <- Hrow; apply nth_error_Some; congruence).
  lia.
Qed.

Lemma resistance_loop_out_of_range G L m es :
  wf G -> is_square m L -> incl es (NX.edges G) ->
  (exists e, In e es
             /\ (m <= index_of (NX.nodes G) (fst e)
                 \/ m <= index_of (NX.nodes G) (snd e))) ->
  forall acc,
    resistance_loop L (make_node_map (NX.nodes G)) es acc = Raise IndexError.
Proof.
  intros W SQ. induction es as [|[u v] es IH]; intros HI [e [He Hb]] acc.
  - contradiction.
  - assert (Hin : In (u, v) (NX.edges G)) by (apply HI; now left).
    destruct (edges_endpoints G u v W Hin) as [Hu Hv].
    pose proof (wf_nodes G W) as NDn.
    simpl. rewrite !make_node_map_get by assumption. simpl.
    set (i := index_of (NX.nodes G) u). set (j := index_of (NX.nodes G) v).
    destruct (le_lt_dec m i) as [Li | Li].
    { rewrite (mget_out_of_range L m i i SQ); auto. }
    rewrite (mget_entry L m i i SQ Li Li). simpl.
    destruct (le_lt_dec m j) as [Lj | Lj].
    { rewrite (mget_out_of_range L m j j SQ); auto. }
    rewrite (mget_entry L m j j SQ Lj Lj), (mget_entry L m i j SQ Li Lj).
    simpl. apply IH.
    + intros x Hx. apply HI. now right.
    + exists e. split; [|assumption].
      destruct He as [<- | He]; [|assumption].
      simpl in Hb. fold i j in Hb. lia.
Qed.

Lemma mean_degree_handshake G :
  wf G ->
  mean_degree G
  = (2 * INR (NX.number_of_edges G) / INR (NX.number_of_nodes G))%R.
Proof.
  intros W. rewrite <- (mean_degree_eq G (wf_nodes G W)).
  rewrite (handshake G W), mult_INR. simpl. reflexivity.
Qed.

Lemma mean_degree_pos G :
  wf G -> NX.edges G <> [] -> (0 < mean_degree G)%R.
Proof.
  intros W NE. rewrite (mean_degree_handshake G W).
  assert (HE : (0 < INR (NX.number_of_edges G))%R).
  { apply lt_0_INR. unfold NX.number_of_edges.
    destruct (NX.edges G); [contradiction | simpl; lia]. }
  assert (HN : (0 < INR (NX.number_of_nodes G))%R).
  { apply lt_0_INR. unfold NX.number_of_nodes.
    destruct G; [contradiction NE; reflexivity | simpl; lia]. }
  apply Rmult_lt_0_compat; [lra | now apply Rinv_0_lt_compat].
Qed.

Lemma Rsum_const (c : R) (ns : list node) (f : node -> R) :
  (forall n, In n ns -> f n = c) ->
  Rsum (map f ns) = (INR (length ns) * c)%R.
Proof.
  induction ns as [|n ns IH]; intros H.
  - simpl. lra.
  - cbn [map Rsum fold_right length]. fold (Rsum (map f ns)).
    rewrite IH by (intros m Hm; apply H; now right).
    rewrite (H n (or_introl eq_refl)), S_INR. lra.
Qed.

Lemma mean_degree_regular G d :
  NX.nodes G <> [] ->
  (forall u, In u (NX.nodes G) -> deg G u = d) ->
  mean_degree G = INR d.
Proof.
  intros NE H. unfold mean_degree.
  rewrite (Rsum_const (INR d)) by (intros n Hn; now rewrite H).
  assert (INR (length (NX.nodes G)) <> 0)%R.
  { apply not_0_INR. destruct (NX.nodes G); [contradiction | discriminate]. }
  field. assumption.
Qed.

(* ------------------------------------------------------------------ *)
(** ** Bounds on the score *)

Lemma Rsum_elem (f : edge -> R) es e :
  (forall x, In x es -> (0 <= f x)%R) -> In e es ->
  (f e <= Rsum (map f es))%R.
Proof.
  induction es as [|y es IH]; simpl; intros H Hin; [contradiction|].
  assert (0 <= Rsum (map f es))%R.
  { apply Rsum_nonneg. rewrite Forall_forall. intros x Hx.
    apply in_map_iff in Hx. destruct Hx as [z [<- Hz]]. apply H. now right. }
  destruct Hin as [-> | Hin].
  - lra.
  - assert (0 <= f y)%R by (apply H; now left).
    assert (f e <= Rsum (map f es))%R
      by (apply IH; [intros x Hx; apply H; now right | assumption]).
    lra.
Qed.

Lemma Rsum_le (f g : edge -> R) es :
  (forall x, In x es -> (f x <= g x)%R) ->
  (Rsum (map f es) <= Rsum (map g es))%R.
Proof.
  induction es as [|y es IH]; simpl; intros H; [lra|].
  assert (f y <= g y)%R by (apply H; now left).
  assert (Rsum (map f es) <= Rsum (map g es))%R
    by (apply IH; intros x Hx; apply H; now right).
  lra.
Qed.

Lemma Rsum_linear (f : edge -> R) (a b c : R) es :
  Rsum (map (fun e => f e * a + (b - f e * c)) es)%R
  = (Rsum (map f es) * a + (INR (length es) * b - Rsum (map f es) * c))%R.
Proof.
  induction es as [|y es IH].
  - simpl. lra.
  - cbn [map Rsum fold_right length].
    fold (Rsum (map (fun e => f e * a + (b - f e * c))%R es)).
    fold (Rsum (map f es)). rewrite IH, S_INR. lra.
Qed.

Lemma Rsum_scale (f : edge -> R) (c : R) es :
  Rsum (map (fun e => f e / c) es)%R = (Rsum (map f es) / c)%R.
Proof.
  induction es as [|y es IH].
  - simpl. lra.
  - cbn [map Rsum fold_right].
    fold (Rsum (map (fun e => f e / c)%R es)). fold (Rsum (map f es)).
    rewrite IH. lra.
Qed.

Lemma ln_nonneg x : (1 <= x)%R -> (0 <= ln x)%R.
Proof.
  intros H. destruct (Req_dec_T x 1) as [-> | N].
  - rewrite ln_1. lra.
  - left. rewrite <- ln_1. apply ln_increasing; lra.
Qed.

Lemma ln_le_minus_1 x : (0 < x)%R -> (ln x <= x - 1)%R.
Proof.
  intros H. pose proof (exp_ineq1_le (ln x)) as E.
  rewrite exp_ln in E by assumption. lra.
Qed.

Lemma entropy_term_nonneg p :
  (0 <= p <= 1)%R -> (0 <= spec_term p 1)%R.
Proof.
  intros [H0 H1]. unfold spec_term.
  destruct (Req_dec_T p 0) as [_ | N]; [lra|].
  assert (0 < p)%R by lra.
  assert (0 <= ln (1 / p))%R.
  { apply ln_nonneg. unfold Rdiv. rewrite Rmult_1_l.
    rewrite <- Rinv_1. apply Rinv_le_contravar; lra. }
  rewrite Rmult_1_r. apply Rmult_le_pos; lra.
Qed.

Lemma spec_term_weight p w : spec_term p w = (spec_term p 1 * w)%R.
Proof.
  unfold spec_term. destruct (Req_dec_T p 0); lra.
Qed.

Lemma entropy_term_gibbs p m :
  (0 <= p)%R -> (0 < m)%R ->
  (spec_term p 1 <= p * ln m + (/ m - p * 1))%R.
Proof.
  intros H0 Hm. unfold spec_term.
  destruct (Req_dec_T p 0) as [-> | N].
  - assert (0 < / m)%R by (now apply Rinv_0_lt_compat). lra.
  - assert (Hp : (0 < p)%R) by lra.
    assert (Hi : (0 < / p)%R) by (now apply Rinv_0_lt_compat).
    assert (Him : (0 < / m)%R) by (now apply Rinv_0_lt_compat).
    assert (Hx : (0 < / m * / p)%R) by (now apply Rmult_lt_0_compat).
    pose proof (ln_le_minus_1 _ Hx) as G.
    rewrite ln_mult, !ln_Rinv in G by assumption.
    unfold Rdiv. rewrite Rmult_1_l, ln_Rinv by assumption.
    assert (E : (p * (/ m * / p) = / m)%R) by (field; split; lra).
    assert (p * (- ln m + - ln p) <= p * (/ m * / p - 1))%R
      by (apply Rmult_le_compat_l; lra).
    lra.
Qed.

Section ScoreBounds.

Variable pinv : Matrix -> Matrix.
Variable G : Graph.

Hypothesis T_pos : (0 < omega_total pinv G)%R.

Lemma probability_range e :
  In e (NX.edges G) -> (0 <= omega_share pinv G e <= 1)%R.
Proof.
  intros Hin. unfold omega_share.
  set (L := pinv (NXL.laplacian_matrix G)).
  assert (0 <= spec_omega L G e)%R by apply spec_omega_nonneg.
  assert (spec_omega L G e <= omega_total pinv G)%R.
  { unfold omega_total. apply (Rsum_elem (spec_omega L G)); [|assumption].
    intros x _. apply spec_omega_nonneg. }
  pose proof T_pos as TP.
  assert (0 < / omega_total pinv G)%R by (now apply Rinv_0_lt_compat).
  split.
  - apply Rmult_le_pos; lra.
  - apply Rmult_le_reg_r with (r := omega_total pinv G); [assumption|].
    unfold Rdiv. rewrite Rmult_assoc, Rinv_l by lra. lra.
Qed.

Lemma probabilities_sum : Rsum (map (omega_share pinv G) (NX.edges G)) = 1%R.
Proof.
  pose proof T_pos as TP.
  unfold omega_share. rewrite Rsum_scale. fold (omega_total pinv G).
  field. lra.
Qed.

Lemma spec_rs_unfold :
  spec_rs pinv G
  = Rsum (map (fun e => spec_term (omega_share pinv G e) (spec_weight G e))
              (NX.edges G)).
Proof.
  pose proof T_pos as TP. unfold spec_rs, omega_share, omega_total in *.
  destruct (NX.edges G) as [|e es] eqn:E.
  - simpl in TP. lra.
  - cbv zeta.
    destruct (Req_dec_T
                (Rsum (map (spec_omega (pinv (NXL.laplacian_matrix G)) G)
                           (e :: es))) 0);
      [lra | reflexivity].
Qed.

Lemma spec_rs_nonneg :
  (forall e, In e (NX.edges G) -> (0 <= spec_weight G e)%R) ->
  (0 <= spec_rs pinv G)%R.
Proof.
  intros HW. rewrite spec_rs_unfold. apply Rsum_nonneg.
  rewrite Forall_forall. intros x Hx. apply in_map_iff in Hx.
  destruct Hx as [e [<- He]]. rewrite spec_term_weight.
  apply Rmult_le_pos; [|now apply HW].
  apply entropy_term_nonneg. now apply probability_range.
Qed.

Lemma spec_rs_le_ln :
  NX.nodes G <> [] ->
  (spec_rs pinv G <= ln (INR (length (NX.edges G))))%R.
Proof.
  intros NN. rewrite spec_rs_unfold.
  assert (Hm : (0 < INR (length (NX.edges G)))%R).
  { apply lt_0_INR. pose proof T_pos as TP. unfold omega_total in TP.
    destruct (NX.edges G); [simpl in TP; lra | simpl; lia]. }
  set (m := INR (length (NX.edges G))) in *.
  apply Rle_trans
    with (Rsum (map (fun e => omega_share pinv G e * ln m
                              + (/ m - omega_share pinv G e * 1))%R
                    (NX.edges G))).
  - apply Rsum_le. intros e He.
    pose proof (probability_range e He) as [P0 P1].
    apply Rle_trans with (spec_term (omega_share pinv G e) 1).
    + rewrite spec_term_weight.
      pose proof (entropy_term_nonneg (omega_share pinv G e) (conj P0 P1)).
      pose proof (spec_weight_le_1 G e NN).
      rewrite <- (Rmult_1_r (spec_term (omega_share pinv G e) 1)) at 2.
      apply Rmult_le_compat_l; assumption.
    + now apply entropy_term_gibbs.
  - rewrite (Rsum_linear (omega_share pinv G) (ln m) (/ m) 1),
      probabilities_sum.
    fold m. assert (m * / m = 1)%R by (apply Rinv_r; lra). lra.
Qed.

End ScoreBounds.

(* ------------------------------------------------------------------ *)
(** ** Structural weights lie between 0 and 1 *)

Lemma total_one f ns u : In u ns -> f u <= total f ns.
Proof.
  unfold total. induction ns as [|n ns IH]; simpl; intros H; [contradiction|].
  destruct H as [-> | H]; [lia|]. specialize (IH H). lia.
Qed.

Lemma total_two f ns u v :
  In u ns -> In v ns -> u <> v -> f u + f v <= total f ns.
Proof.
  induction ns as [|n ns IH]; intros Hu Hv N; [contradiction|].
  unfold total. simpl. fold (total f ns).
  destruct Hu as [-> | Hu], Hv as [-> | Hv].
  - contradiction.
  - pose proof (total_one f ns v Hv). lia.
  - pose proof (total_one f ns u Hu). lia.
  - specialize (IH Hu Hv N). lia.
Qed.

Lemma two_elements (ns : list node) u v :
  In u ns -> In v ns -> u <> v -> 2 <= length ns.
Proof.
  destruct ns as [|a [|b ns]]; simpl; intros Hu Hv N.
  - contradiction.
  - destruct Hu as [<- | []], Hv as [<- | []]. contradiction.
  - lia.
Qed.

Lemma degrees_of_an_edge G u v :
  wf G -> In (u, v) (NX.edges G) ->
  deg G u + deg G v <= 2 * NX.number_of_edges G.
Proof.
  intros W Hin.
  destruct (edges_endpoints G u v W Hin) as [Hu Hv].
  pose proof (edges_distinct G u v W Hin) as Huv.
  pose proof (wf_nodes G W) as ND.
  rewrite <- (handshake G W), (degree_values G ND).
  unfold sum_nat. rewrite fold_left_add, Nat.add_0_l.
  now apply (total_two (deg G)).
Qed.

Lemma weights_by_formula G :
  wf G -> NX.edges G <> [] ->
  calculate_structural_penalty_weights G
  = Ok (map (fun e => (e, penalty_formula G e)) (NX.edges G)).
Proof.
  intros W NE. rewrite (structural_weights_refine G W).
  unfold spec_structuralPenaltyWeights.
  pose proof (mean_degree_pos G W NE) as MP.
  destruct (NX.nodes G) as [|n0 ns0] eqn:EN.
  - destruct G; [contradiction NE; reflexivity | discriminate].
  - destruct (NX.edges G) as [|e0 es0] eqn:EE; [contradiction|].
    f_equal. apply map_ext. intros e. unfold spec_weight.
    destruct (Req_dec_T (mean_degree G) 0); [lra | reflexivity].
Qed.

Lemma penalty_formula_nonneg G e :
  wf G -> In e (NX.edges G) -> (0 <= penalty_formula G e)%R.
Proof.
  intros W Hin. destruct e as [u v].
  destruct (edges_endpoints G u v W Hin) as [Hu Hv].
  pose proof (edges_distinct G u v W Hin) as Huv.
  pose proof (degrees_of_an_edge G u v W Hin) as HS.
  pose proof (two_elements _ u v Hu Hv Huv) as H2.
  assert (NE : NX.edges G <> []) by (intros E; rewrite E in Hin; contradiction).
  pose proof (mean_degree_pos G W NE) as MP.
  pose proof (mean_degree_handshake G W) as MH.
  unfold penalty_formula. simpl fst. simpl snd.
  assert (LN : length (NX.nodes G) = NX.number_of_nodes G)
    by (unfold NX.nodes, NX.number_of_nodes; apply length_map).
  rewrite LN in *.
  apply le_INR in HS. apply le_INR in H2.
  rewrite plus_INR, mult_INR in HS. simpl in HS, H2.
  set (a := INR (deg G u)) in *. set (b := INR (deg G v)) in *.
  set (E := INR (NX.number_of_edges G)) in *.
  set (N := INR (NX.number_of_nodes G)) in *.
  set (m := mean_degree G) in *.
  assert (Ha : (0 <= a)%R) by apply pos_INR.
  assert (Hb : (0 <= b)%R) by apply pos_INR.
  assert (HN : (0 < N)%R) by lra.
  assert (HD : (N * m = 2 * E)%R) by (rewrite MH; field; lra).
  assert (HmE : (m <= E)%R) by nra.
  assert (A1 : (Rabs (a - m) <= a + m)%R) by (apply Rabs_le; lra).
  assert (A2 : (Rabs (b - m) <= b + m)%R) by (apply Rabs_le; lra).
  assert (Dp : (0 < 2 * N * m)%R) by nra.
  assert (Q : ((Rabs (a - m) + Rabs (b - m)) / (2 * N * m) <= 1)%R).
  { apply Rmult_le_reg_r with (r := (2 * N * m)%R); [assumption|].
    unfold Rdiv. rewrite Rmult_assoc, Rinv_l by lra. nra. }
  lra.
Qed.

(* ------------------------------------------------------------------ *)
(** ** calculate_Rs.py: further properties *)

(** X1. Whether the pseudoinverse is supplied or computed, and whatever
    its entries are, a dictionary that
    [calculate_all_pairs_effective_resistance] returns has the edges that
    [G.edges()] reports as its keys, and none of its values is negative. *)
Theorem X1_effective_resistance_keys_and_sign pinv G L_plus d :
  calculate_all_pairs_effective_resistance pinv G L_plus = Ok d ->
  (forall e, In e (dict_keys d) <-> In e (NX.edges G))
  /\ (forall e r, In (e, r) d -> (0 <= r)%R).
Proof.
  unfold calculate_all_pairs_effective_resistance. intros H.
  destruct (match L_plus with
            | Some L => Ok L
            | None => calculate_laplacian_pseudoinverse pinv G
            end) as [L|]; [|discriminate].
  simpl in H. apply resistance_loop_result in H. destruct H as [K V]. split.
  - intros e. rewrite K. simpl. tauto.
  - intros e r Hin. destruct (V _ Hin) as [[] | H]. exact H.
Qed.

Lemma X1_effective_resistance_keys_and_sign_witness :
  (forall e, In e (dict_keys [((0, 1), Rmax 0 (1 + 1 - 2 * 0))])
             <-> In e (NX.edges single_edge))
  /\ (forall e r, In (e, r) [((0, 1), Rmax 0 (1 + 1 - 2 * 0))] -> (0 <= r)%R).
Proof.
  apply (X1_effective_resistance_keys_and_sign
           quarter single_edge (Some identity2)).
  reflexivity.
Defined.

(** X2. A supplied pseudoinverse with fewer rows and columns than the graph
    has nodes makes [calculate_all_pairs_effective_resistance] fail with
    [IndexError] as soon as some edge has an endpoint whose position in
    [G.nodes()] is outside the matrix. *)
Theorem X2_undersized_pseudoinverse pinv G L m :
  wf G -> is_square m L ->
  (exists e, In e (NX.edges G)
             /\ (m <= index_of (NX.nodes G) (fst e)
                 \/ m <= index_of (NX.nodes G) (snd e))) ->
  calculate_all_pairs_effective_resistance pinv G (Some L) = Raise IndexError.
Proof.
  intros W SQ HE. unfold calculate_all_pairs_effective_resistance. simpl.
  apply (resistance_loop_out_of_range G L m); auto. apply incl_refl.
Qed.

Lemma X2_undersized_pseudoinverse_witness :
  calculate_all_pairs_effective_resistance quarter path3 (Some identity2)
  = Raise IndexError.
Proof.
  apply (X2_undersized_pseudoinverse quarter path3 identity2 2).
  - reflexivity.
  - split; [reflexivity | repeat constructor].
  - exists (1, 2). split; [simpl; tauto | right; simpl; lia].
Defined.

(** X3. In a simple graph with at least one edge the mean degree that
    [calculate_structural_penalty_weights] computes is [2 |E| / N] and so
    positive: neither of its two fall-backs to weight 1 is taken, and every
    edge gets the weight of the formula. *)
Theorem X3_penalty_fallbacks_unused G :
  wf G -> NX.edges G <> [] ->
  (INR (sum_nat (dict_values (NX.degree G))) / INR (NX.number_of_nodes G)
   = 2 * INR (NX.number_of_edges G) / INR (NX.number_of_nodes G))%R
  /\ (0 < INR (sum_nat (dict_values (NX.degree G)))
          / INR (NX.number_of_nodes G))%R
  /\ calculate_structural_penalty_weights G
     = Ok (map (fun e => (e, penalty_formula G e)) (NX.edges G)).
Proof.
  intros W NE. rewrite (mean_degree_eq G (wf_nodes G W)).
  split; [now apply mean_degree_handshake|].
  split; [now apply mean_degree_pos | now apply weights_by_formula].
Qed.

Lemma X3_penalty_fallbacks_unused_witness :
  (INR (sum_nat (dict_values (NX.degree path3))) / INR (NX.number_of_nodes path3)
   = 2 * INR (NX.number_of_edges path3) / INR (NX.number_of_nodes path3))%R
  /\ (0 < INR (sum_nat (dict_values (NX.degree path3)))
          / INR (NX.number_of_nodes path3))%R
  /\ calculate_structural_penalty_weights path3
     = Ok (map (fun e => (e, penalty_formula path3 e)) (NX.edges path3)).
Proof.
  apply (X3_penalty_fallbacks_unused path3); [reflexivity | discriminate].
Defined.

(** X4. In a regular graph, where every node has the same degree, every
    edge gets structural weight 1. *)
Theorem X4_regular_graph_weights G d :
  wf G -> NX.edges G <> [] ->
  (forall u, In u (NX.nodes G) -> deg G u = d) ->
  calculate_structural_penalty_weights G
  = Ok (map (fun e => (e, 1%R)) (NX.edges G)).
Proof.
  intros W NE R. rewrite (weights_by_formula G W NE). f_equal.
  apply map_ext_in. intros [u v] Hin. f_equal.
  destruct (edges_endpoints G u v W Hin) as [Hu Hv].
  assert (NN : NX.nodes G <> []) by (intros E; rewrite E in Hu; contradiction).
  unfold penalty_formula. simpl fst. simpl snd.
  rewrite (mean_degree_regular G d NN R), (R u Hu), (R v Hv).
  rewrite Rminus_diag, Rabs_R0. unfold Rdiv. lra.
Qed.

Lemma X4_regular_graph_weights_witness :
  calculate_structural_penalty_weights cycle4
  = Ok (map (fun e => (e, 1%R)) (NX.edges cycle4)).
Proof.
  apply (X4_regular_graph_weights cycle4 2); [reflexivity | discriminate |].
  intros u [<- | [<- | [<- | [<- | []]]]]; reflexivity.
Defined.

(** X5. Every structural weight of a simple graph lies between 0 and 1. *)
Theorem X5_weights_between_0_and_1 G weights :
  wf G ->
  calculate_structural_penalty_weights G = Ok weights ->
  forall e w, In (e, w) weights -> (0 <= w <= 1)%R.
Proof.
  intros W H e w Hin.
  destruct (NX.edges G) as [|e0 es0] eqn:EE.
  - rewrite (structural_weights_refine G W) in H.
    unfold spec_structuralPenaltyWeights in H. rewrite EE in H.
    destruct (NX.nodes G); inversion H; subst; contradiction.
  - assert (NE : NX.edges G <> []) by (rewrite EE; discriminate).
    rewrite (weights_by_formula G W NE) in H. inversion H; subst.
    apply in_map_iff in Hin. destruct Hin as [x [E Hx]].
    inversion E; subst e w. split.
    + now apply penalty_formula_nonneg.
    + destruct x as [u v]. destruct (edges_endpoints G u v W Hx) as [Hu _].
      apply penalty_formula_le_1.
      * intros Z. rewrite Z in Hu. contradiction.
      * pose proof (mean_degree_pos G W NE). lra.
Qed.

Lemma X5_weights_between_0_and_1_witness :
  (0 <= penalty_formula path3 (0%nat, 1%nat) <= 1)%R.
Proof.
  apply (X5_weights_between_0_and_1 path3
           (map (fun e => (e, penalty_formula path3 e)) (NX.edges path3)))
    with (e := (0, 1)).
  - reflexivity.
  - apply (weights_by_formula path3); [reflexivity | discriminate].
  - left. reflexivity.
Defined.

Lemma spec_rs_degenerate pinv G :
  Rsum (map (spec_omega (pinv (NXL.laplacian_matrix G)) G) (NX.edges G)) = 0%R ->
  spec_rs pinv G = 0%R.
Proof.
  unfold spec_rs. destruct (NX.edges G) as [|e es]; [reflexivity|].
  intros Z. cbv zeta.
  destruct (Req_dec_T _ 0); [reflexivity | contradiction].
Qed.

Lemma spec_rs_range pinv G :
  wf G ->
  (0 <= spec_rs pinv G)%R
  /\ (NX.edges G <> [] ->
      (spec_rs pinv G <= ln (INR (NX.number_of_edges G)))%R).
Proof.
  intros W.
  set (T := Rsum (map (spec_omega (pinv (NXL.laplacian_matrix G)) G)
                      (NX.edges G))).
  assert (HT : (0 <= T)%R).
  { apply Rsum_nonneg. rewrite Forall_forall. intros x Hx.
    apply in_map_iff in Hx. destruct Hx as [e [<- _]].
    apply spec_omega_nonneg. }
  destruct (Req_dec_T T 0) as [Z | NZ].
  - rewrite (spec_rs_degenerate pinv G Z). split; [lra|].
    intros NE. apply ln_nonneg. change 1%R with (INR 1). apply le_INR.
    unfold NX.number_of_edges. destruct (NX.edges G); [contradiction|].
    simpl. lia.
  - assert (TP : (0 < T)%R) by lra. split.
    + apply spec_rs_nonneg; [exact TP|].
      intros e He. unfold spec_weight.
      destruct (Req_dec_T (mean_degree G) 0); [lra|].
      now apply penalty_formula_nonneg.
    + intros NE. apply spec_rs_le_ln; [exact TP|].
      intros E. destruct G; [contradiction NE; reflexivity | discriminate].
Qed.





(* ------------------------------------------------------------------ *)
(** ** clinical_analysis.py: reconstruct_vascular_network *)

Lemma components_from_cover G todo seen s :
  In s todo ->
  In s seen \/ exists c, In c (NX.components_from G todo seen) /\ In s c.
Proof.
  revert seen. induction todo as [|v todo IH]; simpl; intros seen H;
    [contradiction|].
  destruct (mem v seen) eqn:M.
  - destruct H as [-> | H]; [left; now apply mem_In | now apply IH].
  - destruct H as [-> | H].
    + right. exists (NX.component G s).
      split; [now left | apply component_root].
    + destruct (IH (NX.component G v ++ seen) H) as [H1 | [c [Hc Hs]]].
      * apply in_app_or in H1. destruct H1 as [H1 | H1]; [|now left].
        right. exists (NX.component G v). split; [now left | assumption].
      * right. exists c. split; [now right | assumption].
Qed.

Lemma largest_cc_covers g lg s c :
  undirected g -> largest_cc g = Ok lg ->
  In s (NX.nodes g) -> NoDup c -> (forall x, In x c -> reachable g s x) ->
  length c <= NX.number_of_nodes lg.
Proof.
  intros U EL Hs ND R.
  destruct (largest_cc_induced g lg U EL) as [_ [_ [_ MX]]].
  destruct (components_from_cover g (NX.nodes g) [] s Hs)
    as [[] | [c' [Hc' Hsc]]].
  fold (NX.connected_components g) in Hc'.
  specialize (MX c' Hc'). apply components_from_elems in Hc'.
  destruct Hc' as [v [Hv ->]].
  apply (component_reachable g v s U Hv) in Hsc.
  assert (I : incl c (NX.component g v)).
  { intros x Hx. apply (component_reachable g v x U Hv).
    eapply reachable_trans; eauto. }
  pose proof (NoDup_incl_length ND I). unfold NX.number_of_nodes. lia.
Qed.

Lemma matrix_graph_simple A n g0 :
  (forall u v,
     NX.has_edge g0 u v = true <->
     u < n /\ v < n /\ (entry A u v <> 0%R \/ entry A v u <> 0%R)) ->
  (forall i, i < n -> entry A i i = 0%R) ->
  forall u, NX.has_edge g0 u u = false.
Proof.
  intros HE Z u. destruct (NX.has_edge g0 u u) eqn:E; [|reflexivity].
  apply HE in E. destruct E as [Hu [_ [E | E]]]; specialize (Z u Hu);
    contradiction.
Qed.

Lemma reconstruct_simple A n h :
  is_square n A -> 0 < n -> (forall i, i < n -> entry A i i = 0%R) ->
  exists G ext,
    reconstruct_vascular_network A h = Ok (G, h ++ ext)
    /\ length h <= G < length (h ++ ext)
    /\ wf (deref (h ++ ext) G)
    /\ NX.is_connected (deref (h ++ ext) G) = Ok true.
Proof.
  intros SQ Hn Z.
  destruct (from_numpy_array_spec A n SQ) as [g0 [EA [U [HN HE]]]].
  pose proof (nonempty_square_graph n g0 Hn HN) as NE.
  destruct (largest_cc_connected g0 U NE) as [lg [EL [UL [CL WL]]]].
  destruct (reconstruct_run A g0 lg h EA EL) as [G [ext [ER [ED LG]]]].
  exists G, ext. rewrite ED.
  split; [exact ER|]. split; [exact LG|]. split; [|exact CL].
  apply WL. apply undirected_wf; [exact U|].
  now apply (matrix_graph_simple A n).
Qed.

Lemma adjacency3_square : is_square 3 adjacency3.
Proof. split; [reflexivity | repeat constructor]. Qed.

Lemma adjacency3_diagonal i : i < 3 -> entry adjacency3 i i = 0%R.
Proof. destruct i as [|[|[|i]]]; intros H; try reflexivity. lia. Qed.

(** X8. A matrix whose number of columns differs from its number of rows
    is refused: [reconstruct_vascular_network] raises the [NetworkXError] of
    [nx.from_numpy_array] and returns no graph. *)
Theorem X8_reconstruct_rejects_non_square A m h :
  A <> [] -> Forall (fun row => length row = m) A -> m <> length A ->
  reconstruct_vascular_network A h = Raise NetworkXError.
Proof.
  intros NE R N. unfold reconstruct_vascular_network, mbind, lift.
  rewrite from_numpy_array_not_square; [reflexivity|].
  intros [_ SQ]. destruct A as [|row A]; [contradiction|].
  inversion R; subst. inversion SQ; subst. contradiction.
Qed.

Lemma X8_reconstruct_rejects_non_square_witness :
  reconstruct_vascular_network two_by_three [] = Raise NetworkXError.
Proof.
  apply (X8_reconstruct_rejects_non_square two_by_three 3 []).
  - discriminate.
  - repeat constructor.
  - simpl. lia.
Defined.

(** X9. For every non-empty square matrix [reconstruct_vascular_network]
    returns a new graph object and leaves the objects that existed before
    the call as they were; the graph it returns is undirected and connected,
    and it is simple (no self-loop) when the diagonal of the matrix is
    zero. *)
Theorem X9_reconstruct_returns_connected_graph A n h :
  is_square n A -> 0 < n ->
  exists G h',
    reconstruct_vascular_network A h = Ok (G, h')
    /\ length h <= G < length h'
    /\ (forall r, r < length h -> deref h' r = deref h r)
    /\ undirected (deref h' G)
    /\ NX.is_connected (deref h' G) = Ok true
    /\ ((forall i, i < n -> entry A i i = 0%R) -> wf (deref h' G)).
Proof.
  intros SQ Hn.
  destruct (reconstruct_spec A n h SQ Hn)
    as [g0 [G [ext [EA [ER [LG [EL [U [HN [HE [UL CL]]]]]]]]]]].
  exists G, (h ++ ext).
  split; [exact ER|]. split; [exact LG|].
  split; [intros r Hr; now apply deref_app_old|].
  split; [exact UL|]. split; [exact CL|].
  intros Z. pose proof (nonempty_square_graph n g0 Hn HN) as NE.
  destruct (largest_cc_connected g0 U NE) as [lg [EL' [_ [_ WL]]]].
  rewrite EL in EL'. inversion EL' as [E]. rewrite E. apply WL.
  apply undirected_wf; [exact U|]. now apply (matrix_graph_simple A n).
Qed.

Lemma X9_reconstruct_returns_connected_graph_witness :
  exists G h',
    reconstruct_vascular_network adjacency3 [path3] = Ok (G, h')
    /\ length [path3] <= G < length h'
    /\ (forall r, r < length [path3] -> deref h' r = deref [path3] r)
    /\ undirected (deref h' G)
    /\ NX.is_connected (deref h' G) = Ok true
    /\ ((forall i, i < 3 -> entry adjacency3 i i = 0%R) -> wf (deref h' G)).
Proof.
  apply (X9_reconstruct_returns_connected_graph adjacency3 3 [path3]).
  - exact adjacency3_square.
  - lia.
Defined.

(** X10. The graph that [reconstruct_vascular_network] returns is an
    induced subgraph of the graph of the matrix, cut off from the rest: its
    nodes are row indices; two of its nodes are adjacent exactly when the
    matrix has a non-zero entry for the pair, in either position; and every
    index that the matrix links to one of its nodes is one of its nodes. *)
Theorem X10_reconstruct_induced_subgraph A n h :
  is_square n A -> 0 < n ->
  exists G h',
    reconstruct_vascular_network A h = Ok (G, h')
    /\ (forall u, In u (NX.nodes (deref h' G)) -> u < n)
    /\ (forall u v,
          NX.has_edge (deref h' G) u v = true <->
          In u (NX.nodes (deref h' G)) /\ In v (NX.nodes (deref h' G))
          /\ (entry A u v <> 0%R \/ entry A v u <> 0%R))
    /\ (forall u v,
          In u (NX.nodes (deref h' G)) -> v < n ->
          entry A u v <> 0%R \/ entry A v u <> 0%R ->
          In v (NX.nodes (deref h' G))).
Proof.
  intros SQ Hn.
  destruct (reconstruct_spec A n h SQ Hn)
    as [g0 [G [ext [EA [ER [LG [EL [U [HN [HE [UL CL]]]]]]]]]]].
  destruct (largest_cc_induced g0 _ U EL) as [I [CLO [HEL _]]].
  assert (B : forall u, In u (NX.nodes (deref (h ++ ext) G)) -> u < n).
  { intros u Hu. apply I in Hu. rewrite HN in Hu. apply in_seq in Hu. lia. }
  exists G, (h ++ ext).
  split; [exact ER|]. split; [exact B|]. split.
  - intros u v. rewrite HEL, HE. split.
    + tauto.
    + intros [Hu [Hv H]]. repeat split; auto.
  - intros u v Hu Hv H. apply (CLO u v Hu). apply HE. repeat split; auto.
Qed.

Lemma X10_reconstruct_induced_subgraph_witness :
  exists G h',
    reconstruct_vascular_network adjacency3 [] = Ok (G, h')
    /\ (forall u, In u (NX.nodes (deref h' G)) -> u < 3)
    /\ (forall u v,
          NX.has_edge (deref h' G) u v = true <->
          In u (NX.nodes (deref h' G)) /\ In v (NX.nodes (deref h' G))
          /\ (entry adjacency3 u v <> 0%R \/ entry adjacency3 v u <> 0%R))
    /\ (forall u v,
          In u (NX.nodes (deref h' G)) -> v < 3 ->
          entry adjacency3 u v <> 0%R \/ entry adjacency3 v u <> 0%R ->
          In v (NX.nodes (deref h' G))).
Proof.
  apply (X10_reconstruct_induced_subgraph adjacency3 3 []).
  - exact adjacency3_square.
  - lia.
Defined.

(** X11. No connected part of the graph of the matrix is larger than the
    graph that [reconstruct_vascular_network] returns: a duplicate-free list
    of nodes that can all be reached from one row index along non-zero
    entries is never longer than the returned graph has nodes. *)
Theorem X11_reconstruct_keeps_a_largest_component A n h :
  is_square n A -> 0 < n ->
  exists G h' g0,
    reconstruct_vascular_network A h = Ok (G, h')
    /\ from_numpy_array A = Ok g0
    /\ forall s c,
         s < n -> NoDup c -> (forall x, In x c -> reachable g0 s x) ->
         length c <= NX.number_of_nodes (deref h' G).
Proof.
  intros SQ Hn.
  destruct (reconstruct_spec A n h SQ Hn)
    as [g0 [G [ext [EA [ER [LG [EL [U [HN [HE [UL CL]]]]]]]]]]].
  exists G, (h ++ ext), g0.
  split; [exact ER|]. split; [exact EA|].
  intros s c Hs ND R. apply (largest_cc_covers g0 _ s c U EL); auto.
  rewrite HN. apply in_seq. lia.
Qed.

Lemma X11_reconstruct_keeps_a_largest_component_witness :
  exists G h' g0,
    reconstruct_vascular_network adjacency3 [] = Ok (G, h')
    /\ from_numpy_array adjacency3 = Ok g0
    /\ forall s c,
         s < 3 -> NoDup c -> (forall x, In x c -> reachable g0 s x) ->
         length c <= NX.number_of_nodes (deref h' G).
Proof.
  apply (X11_reconstruct_keeps_a_largest_component adjacency3 3 []).
  - exact adjacency3_square.
  - lia.
Defined.



(* ------------------------------------------------------------------ *)
(** ** clinical_analysis.py: what the greedy search selects *)

Section GreedySelection.

Variable pinv : Matrix -> Matrix.
Hypothesis pinv_shape : forall n M, is_square n M -> is_square n (pinv M).

Lemma score_parts g e :
  wf g -> NX.has_edge g (fst e) (snd e) = true ->
  exists g' lg r,
    NX.remove_edge g (fst e) (snd e) = Ok g'
    /\ wf g'
    /\ largest_cc g' = Ok lg
    /\ rs_after pinv lg = Ok (Some r).
Proof.
  intros W He.
  pose proof (remove_edge_ok _ _ _ He) as HR.
  pose proof (wf_remove_edge _ _ _ _ W HR) as W'.
  assert (NE : rewrite_adj (rm (fst e) (snd e)) g <> []).
  { intros E. apply has_edge_node in He.
    rewrite <- (nodes_remove _ _ _ _ HR), E in He. contradiction. }
  destruct (largest_cc_connected _ (wf_undirected _ W') NE)
    as [lg [HL [_ [CL WL]]]].
  specialize (WL W').
  exists (rewrite_adj (rm (fst e) (snd e)) g), lg.
  unfold rs_after. destruct (NX.number_of_edges lg =? 0).
  - exists 0%R. auto.
  - exists (spec_rs pinv lg).
    rewrite (calculate_Rs_refine pinv pinv_shape lg WL CL). auto.
Qed.

Lemma score_without_run g e g' lg o :
  NX.remove_edge g (fst e) (snd e) = Ok g' ->
  largest_cc g' = Ok lg ->
  rs_after pinv lg = Ok o ->
  score_without pinv g e = Ok o.
Proof.
  intros HR HL HO. unfold score_without. rewrite HR. simpl.
  rewrite HL. simpl. exact HO.
Qed.

Lemma ext_gt_Fin x y : ext_gt x (Fin y) = true <-> (x > y)%R.
Proof.
  simpl. destruct (Rgt_dec x y); split; auto; discriminate.
Qed.

Lemma ext_gt_trans x y m :
  ext_gt x m = true -> (y > x)%R -> ext_gt y m = true.
Proof.
  destruct m as [|z]; [reflexivity|].
  rewrite !ext_gt_Fin. lra.
Qed.

Lemma ext_gt_between x y m :
  ext_gt x m = false -> ext_gt y m = true -> (x < y)%R.
Proof.
  destruct m as [|z]; [discriminate|].
  intros H1 H2. apply ext_gt_Fin in H2.
  simpl in H1. destruct (Rgt_dec x z); [discriminate | lra].
Qed.

Lemma candidates_loop_selects cands :
  forall cur irs st h,
    cur < length h ->
    wf (deref h cur) ->
    (forall e, In e cands ->
               NX.has_edge (deref h cur) (fst e) (snd e) = true) ->
    exists st' ext,
      candidates_loop pinv cur irs cands st h = Ok (st', h ++ ext)
      /\ selected pinv (deref h cur) irs cands st st'.
Proof.
  induction cands as [|e rest IH]; intros cur irs st h Hcur W HE.
  - exists st, []. rewrite app_nil_r. split; [reflexivity|].
    left. split; [reflexivity | contradiction].
  - assert (He : NX.has_edge (deref h cur) (fst e) (snd e) = true)
      by (apply HE; now left).
    destruct (score_parts _ e W He) as [g' [lg [r [HR [_ [HL HO]]]]]].
    pose proof (score_without_run _ e _ _ _ HR HL HO) as HS.
    rewrite (candidates_loop_cons pinv cur irs e rest st h _ _ _ HR HL HO).
    match goal with
    | |- context [candidates_loop _ _ _ _ ?s _] => set (st1 := s)
    end.
    destruct (IH cur irs st1 (h ++ [g'])) as [st' [ext [E B]]].
    + rewrite length_app. lia.
    + now rewrite deref_app_old.
    + intros x Hx. rewrite deref_app_old by assumption. apply HE. now right.
    + exists st', ([g'] ++ ext). rewrite app_assoc. split; [exact E|].
      rewrite deref_app_old in B by assumption.
      unfold st1 in B. clear E st1.
      destruct (ext_gt (r - irs) (max_delta_rs st)) eqn:GT.
      * right.
        destruct B as [[-> B] | [pre [e2 [post [r2 [-> [-> [S2 [G2 [P1 P2]]]]]]]]]].
        -- exists [], e, rest, r. simpl.
           repeat split; auto; [contradiction|].
           intros e' He'. destruct (B e' He') as [r' [S' G']].
           exists r'. split; [assumption|].
           simpl in G'. destruct (Rgt_dec (r' - irs) (r - irs)); [discriminate|].
           lra.
        -- simpl in G2. apply ext_gt_Fin in G2.
           exists (e :: pre), e2, post, r2. simpl.
           repeat split; auto.
           ++ eapply ext_gt_trans; eauto.
           ++ intros e' [<- | He']; [|now apply P1].
              exists r. split; [assumption | lra].
      * destruct B as [[-> B] | [pre [e2 [post [r2 [-> [-> [S2 [G2 [P1 P2]]]]]]]]]].
        -- left. split; [reflexivity|].
           intros e' [<- | He']; [|now apply B].
           exists r. split; assumption.
        -- right. exists (e :: pre), e2, post, r2. simpl.
           repeat split; auto.
           intros e' [<- | He']; [|now apply P1].
           exists r. split; [assumption|].
           pose proof (ext_gt_between _ _ _ GT G2). lra.
Qed.

Lemma greedy_loop_trace iters :
  forall cur st h,
    cur < length h ->
    wf (deref h cur) ->
    exists st' h',
      greedy_loop pinv iters cur st h = Ok (st', h')
      /\ exists ts ds,
           best_targets st' = best_targets st ++ ts
           /\ delta_rs_history st' = delta_rs_history st ++ ds
           /\ length ts = Nat.min iters (length (NX.edges (deref h cur)))
           /\ greedy_trace pinv (initial_rs st) (deref h cur) ts ds
                           (deref h' cur).
Proof.
  induction iters as [|k IH]; intros cur st h Hcur W.
  - exists st, h. split; [reflexivity|].
    exists [], []. rewrite !app_nil_r. repeat split; auto. constructor.
  - simpl greedy_loop. unfold mbind at 1. unfold read at 1.
    destruct (NX.edges (deref h cur)) as [|e0 es0] eqn:EE.
    + exists st, h. split; [reflexivity|].
      exists [], []. rewrite !app_nil_r. repeat split; auto. constructor.
    + rewrite <- EE.
      destruct (candidates_loop_selects (NX.edges (deref h cur)) cur
                  (initial_rs st) (mkCand None NegInf (initial_rs st)) h Hcur W)
        as [c [ext [EC B]]].
      { intros [a b] Hin. simpl. apply edges_has_edge; [|assumption].
        now apply wf_nodes. }
      unfold mbind at 1. rewrite EC.
      destruct B as [[_ B] | [pre [e [post [r [EP [-> [S1 [_ [P1 P2]]]]]]]]]].
      { exfalso. destruct (B e0) as [r [_ F]]; [rewrite EE; now left|].
        discriminate. }
      cbn [best_edge_to_remove next_rs max_delta_rs].
      assert (Hin : In e (NX.edges (deref h cur)))
        by (rewrite EP; apply in_or_app; right; now left).
      assert (He : NX.has_edge (deref h cur) (fst e) (snd e) = true).
      { destruct e as [a b]. apply edges_has_edge; [|assumption].
        now apply wf_nodes. }
      pose proof (remove_edge_ok _ _ _ He) as HR.
      pose proof (wf_remove_edge _ _ _ _ W HR) as W'.
      assert (LE : length (NX.edges (rewrite_adj (rm (fst e) (snd e))
                                                 (deref h cur))) + 1
                   = length (NX.edges (deref h cur))).
      { destruct e as [a b]. now apply (edges_remove_length _ a b). }
      set (g' := rewrite_adj (rm (fst e) (snd e)) (deref h cur)) in *.
      unfold mbind at 1, G_remove_edge, mbind, read, lift, write.
      rewrite deref_app_old, HR by assumption.
      set (st1 := mkGreedy _ _ _).
      destruct (IH cur st1 (update (h ++ ext) cur g'))
        as [st' [h' [EL [ts [ds [T1 [T2 [T3 T4]]]]]]]].
      { rewrite update_length, length_app. lia. }
      { rewrite deref_update_eq; [assumption | rewrite length_app; lia]. }
      exists st', h'. split; [exact EL|].
      exists (e :: ts), (Fin (r - initial_rs st) :: ds).
      unfold st1 in T1, T2, T4. simpl in T1, T2, T4.
      rewrite <- app_assoc in T1, T2.
      rewrite deref_update_eq in T3, T4 by (rewrite length_app; lia).
      split; [exact T1|]. split; [exact T2|]. split.
      * simpl length. rewrite T3. lia.
      * eapply trace_step; eauto.
Qed.

Lemma greedy_trace_spec G num_targets budget h :
  G < length h ->
  wf (deref h G) ->
  NX.is_connected (deref h G) = Ok true ->
  exists ts ds h',
    find_optimal_targets_greedy pinv G num_targets budget h
    = Ok ((ts, ds, length h), h')
    /\ length ts
       = Nat.min (Z.to_nat match budget with
                           | None => num_targets
                           | Some b => Z.min num_targets (py_int b)
                           end)
                 (NX.number_of_edges (deref h G))
    /\ greedy_trace pinv (spec_rs pinv (deref h G)) (deref h G) ts ds
                    (deref h' (length h)).
Proof.
  intros HG W C. unfold find_optimal_targets_greedy.
  unfold mbind at 1, read at 1. unfold mbind at 1, lift at 1. rewrite C.
  cbn [negb]. unfold mbind at 1, G_copy, mbind, read, alloc.
  rewrite deref_app_new, (calculate_Rs_refine pinv pinv_shape _ W C).
  set (iters := Z.to_nat _).
  destruct (greedy_loop_trace iters (length h)
              (mkGreedy (spec_rs pinv (deref h G)) [] [])
              (h ++ [deref h G]))
    as [st' [h' [EL [ts [ds [T1 [T2 [T3 T4]]]]]]]].
  { rewrite length_app. simpl. lia. }
  { now rewrite deref_app_new. }
  rewrite EL. simpl in T1, T2, T4. rewrite T1, T2.
  exists ts, ds, h'. split; [reflexivity|].
  rewrite deref_app_new in T3, T4. split; [exact T3 | exact T4].
Qed.

End GreedySelection.

(** X13. On a connected simple graph the greedy search never stops early:
    with [iterations] the requested number of rounds ([num_targets], or the
    smaller of it and [int(budget)]), it returns exactly
    [min(max(0, iterations), |E|)] targets and as many gains. *)
Theorem X13_greedy_number_of_targets pinv G num_targets budget h :
  (forall n M, is_square n M -> is_square n (pinv M)) ->
  G < length h ->
  wf (deref h G) ->
  NX.is_connected (deref h G) = Ok true ->
  exists targets deltas final h',
    find_optimal_targets_greedy pinv G num_targets budget h
    = Ok ((targets, deltas, final), h')
    /\ length targets
       = Nat.min (Z.to_nat match budget with
                           | None => num_targets
                           | Some b => Z.min num_targets (py_int b)
                           end)
                 (NX.number_of_edges (deref h G))
    /\ length deltas = length targets.
Proof.
  intros SH HG W C.
  destruct (greedy_trace_spec pinv SH G num_targets budget h HG W C)
    as [ts [ds [h' [E [L _]]]]].
  destruct (greedy_spec pinv SH G num_targets budget h HG W C)
    as [ts2 [ds2 [h2 [E2 [_ [L2 _]]]]]].
  rewrite E in E2. inversion E2; subst ts2 ds2 h2.
  exists ts, ds, (length h), h'. auto.
Qed.

Lemma X13_greedy_number_of_targets_witness :
  exists targets deltas final h',
    find_optimal_targets_greedy quarter 0 5 None [path3]
    = Ok ((targets, deltas, final), h')
    /\ length targets
       = Nat.min (Z.to_nat 5) (NX.number_of_edges (deref [path3] 0))
    /\ length deltas = length targets.
Proof.
  apply (X13_greedy_number_of_targets quarter 0 5%Z None [path3]
           quarter_shape).
  - simpl. lia.
  - reflexivity.
  - reflexivity.
Defined.

(** X14. In every round the greedy search selects the candidate edge with
    the highest score, where the score of a candidate is [calculate_Rs] of
    the largest component that its removal leaves; among several such it
    takes the first in [edges()] order. No candidate is skipped, every
    recorded gain is finite, and a gain is the selected score minus the
    score selected in the round before (the score of the input in the first
    round). *)
Theorem X14_greedy_selects_highest_score pinv G num_targets budget h :
  (forall n M, is_square n M -> is_square n (pinv M)) ->
  G < length h ->
  wf (deref h G) ->
  NX.is_connected (deref h G) = Ok true ->
  exists initial targets deltas final h',
    calculate_Rs pinv (deref h G) = Ok initial
    /\ find_optimal_targets_greedy pinv G num_targets budget h
       = Ok ((targets, deltas, final), h')
    /\ greedy_trace pinv initial (deref h G) targets deltas (deref h' final).
Proof.
  intros SH HG W C.
  destruct (greedy_trace_spec pinv SH G num_targets budget h HG W C)
    as [ts [ds [h' [E [_ T]]]]].
  exists (spec_rs pinv (deref h G)), ts, ds, (length h), h'.
  split; [now apply calculate_Rs_refine|]. split; assumption.
Qed.

Lemma X14_greedy_selects_highest_score_witness :
  exists initial targets deltas final h',
    calculate_Rs quarter (deref [cycle4] 0) = Ok initial
    /\ find_optimal_targets_greedy quarter 0 2 (Some 3%R) [cycle4]
       = Ok ((targets, deltas, final), h')
    /\ greedy_trace quarter initial (deref [cycle4] 0) targets deltas
                    (deref h' final).
Proof.
  apply (X14_greedy_selects_highest_score quarter 0 2%Z (Some 3%R) [cycle4]
           quarter_shape).
  - simpl. lia.
  - reflexivity.
  - reflexivity.
Defined.

Lemma score_without_parts pinv g e g1 o :
  NX.remove_edge g (fst e) (snd e) = Ok g1 ->
  score_without pinv g e = Ok o ->
  exists lg, largest_cc g1 = Ok lg /\ rs_after pinv lg = Ok o.
Proof.
  intros HR HS. unfold score_without in HS. rewrite HR in HS. simpl in HS.
  destruct (largest_cc g1) as [lg|]; [|discriminate]. simpl in HS. eauto.
Qed.

Lemma greedy_trace_gains pinv base g ts ds g' :
  greedy_trace pinv base g ts ds g' ->
  exists gains,
    ds = map Fin gains
    /\ ((ts = [] /\ gains = [] /\ g' = g)
        \/ exists lg r,
             largest_cc g' = Ok lg
             /\ rs_after pinv lg = Ok (Some r)
             /\ Rsum gains = (r - base)%R).
Proof.
  induction 1 as [base g | base g pre e post r g1 ts ds g' EP S1 P1 P2 HR T IH].
  - exists []. split; [reflexivity|]. left. auto.
  - destruct IH as [gains [-> IH]].
    exists ((r - base)%R :: gains). split; [reflexivity|]. right.
    destruct IH as [[_ [-> ->]] | [lg [r' [HL [HO HS]]]]].
    + destruct (score_without_parts pinv g e g1 _ HR S1) as [lg [HL HO]].
      exists lg, r. split; [assumption|]. split; [assumption|].
      simpl. lra.
    + exists lg, r'. split; [assumption|]. split; [assumption|].
      cbn [Rsum fold_right]. fold (Rsum gains). rewrite HS. lra.
Qed.

(** X15. The gains that the greedy search records add up: when at least
    one target is returned, their sum is the score of the largest component
    of the returned graph minus the score of the input graph. *)
Theorem X15_greedy_gains_add_up pinv G num_targets budget h :
  (forall n M, is_square n M -> is_square n (pinv M)) ->
  G < length h ->
  wf (deref h G) ->
  NX.is_connected (deref h G) = Ok true ->
  exists initial targets gains final h',
    calculate_Rs pinv (deref h G) = Ok initial
    /\ find_optimal_targets_greedy pinv G num_targets budget h
       = Ok ((targets, map Fin gains, final), h')
    /\ (targets <> [] ->
        exists largest_cc_graph r,
          largest_cc (deref h' final) = Ok largest_cc_graph
          /\ rs_after pinv largest_cc_graph = Ok (Some r)
          /\ Rsum gains = (r - initial)%R).
Proof.
  intros SH HG W C.
  destruct (greedy_trace_spec pinv SH G num_targets budget h HG W C)
    as [ts [ds [h' [E [_ T]]]]].
  destruct (greedy_trace_gains _ _ _ _ _ _ T) as [gains [-> GS]].
  exists (spec_rs pinv (deref h G)), ts, gains, (length h), h'.
  split; [now apply calculate_Rs_refine|]. split; [assumption|].
  intros NE. destruct GS as [[-> _] | GS]; [contradiction | exact GS].
Qed.

Lemma X15_greedy_gains_add_up_witness :
  exists initial targets gains final h',
    calculate_Rs quarter (deref [cycle4] 0) = Ok initial
    /\ find_optimal_targets_greedy quarter 0 2 None [cycle4]
       = Ok ((targets, map Fin gains, final), h')
    /\ (targets <> [] ->
        exists largest_cc_graph r,
          largest_cc (deref h' final) = Ok largest_cc_graph
          /\ rs_after quarter largest_cc_graph = Ok (Some r)
          /\ Rsum gains = (r - initial)%R).
Proof.
  apply (X15_greedy_gains_add_up quarter 0 2%Z None [cycle4] quarter_shape).
  - simpl. lia.
  - reflexivity.
  - reflexivity.
Defined.

(* ------------------------------------------------------------------ *)
(** ** rego_optimizer.py: the score that the loop carries along *)

Lemma graph_equiv_refl G : graph_equiv G G.
Proof. split; reflexivity. Qed.

Lemma graph_equiv_trans G1 G2 G3 :
  graph_equiv G1 G2 -> graph_equiv G2 G3 -> graph_equiv G1 G3.
Proof.
  intros [N1 E1] [N2 E2]. split; [congruence|].
  intros u v. now rewrite E1.
Qed.

Lemma last_default (l : list R) x a b : last (x :: l) a = last (x :: l) b.
Proof.
  revert x. induction l as [|y l IH]; intros x; [reflexivity|].
  change (last (x :: y :: l) a) with (last (y :: l) a).
  change (last (x :: y :: l) b) with (last (y :: l) b).
  apply IH.
Qed.

Lemma strictly_increasing_last l a :
  strictly_increasing l -> hd_error l = Some a ->
  (a <= last l a)%R /\ (2 <= length l -> (a < last l a)%R).
Proof.
  revert a. induction l as [|x l IH]; intros a S H; [discriminate|].
  inversion H; subst x. destruct l as [|y l].
  - simpl. split; [lra | lia].
  - destruct S as [S1 S2]. destruct (IH y S2 eq_refl) as [L _].
    change (last (a :: y :: l) a) with (last (y :: l) a).
    rewrite (last_default l y a y). split; [lra | intros _; lra].
Qed.

Section RegoScore.

Variable pinv : Matrix -> Matrix.
Hypothesis pinv_shape : forall n M, is_square n M -> is_square n (pinv M).

Variable sample2 : nat -> nat -> nat * nat.
Hypothesis sample2_range :
  forall k n, 2 <= n -> fst (sample2 k n) < n /\ snd (sample2 k n) < n.

Lemma rego_loop_score degrees rs0 n_iter :
  forall G st h,
    G < length h ->
    rego_inv degrees rs0 (deref h G) st ->
    current_rs st = spec_rs pinv (deref h G) ->
    exists st' h',
      rego_loop pinv sample2 n_iter G st h = Ok (st', h')
      /\ rego_inv degrees rs0 (deref h' G) st'
      /\ current_rs st' = spec_rs pinv (deref h' G)
      /\ accepted_swaps st <= accepted_swaps st' <= accepted_swaps st + n_iter
      /\ (accepted_swaps st' = accepted_swaps st ->
          graph_equiv (deref h G) (deref h' G)).
Proof.
  induction n_iter as [|n IH]; intros G st h HG I RS.
  - exists st, h. split; [reflexivity|]. split; [assumption|].
    split; [assumption|]. split; [lia|]. intros _. apply graph_equiv_refl.
  - assert (K : forall st1 h1,
               G < length h1 ->
               rego_inv degrees rs0 (deref h1 G) st1 ->
               current_rs st1 = spec_rs pinv (deref h1 G) ->
               accepted_swaps st1 = accepted_swaps st ->
               graph_equiv (deref h G) (deref h1 G) ->
               exists st' h',
                 rego_loop pinv sample2 n G st1 h1 = Ok (st', h')
                 /\ rego_inv degrees rs0 (deref h' G) st'
                 /\ current_rs st' = spec_rs pinv (deref h' G)
                 /\ accepted_swaps st <= accepted_swaps st'
                    <= accepted_swaps st + S n
                 /\ (accepted_swaps st' = accepted_swaps st ->
                     graph_equiv (deref h G) (deref h' G))).
    { intros st1 h1 HG1 I1 RS1 A1 Q1.
      destruct (IH G st1 h1 HG1 I1 RS1) as [st' [h' [E [I' [RS' [A' Q']]]]]].
      exists st', h'. split; [assumption|]. split; [assumption|].
      split; [assumption|]. split; [lia|].
      intros EA. eapply graph_equiv_trans; [exact Q1|]. apply Q'. lia. }
    cbn [rego_loop]. destruct (n_edges st <? 2) eqn:E2.
    { exists st, h. split; [reflexivity|]. split; [assumption|].
      split; [assumption|]. split; [lia|]. intros _. apply graph_equiv_refl. }
    apply Nat.ltb_ge in E2.
    pose proof I as [W [C [D [E [N H]]]]].
    rewrite N in E2 |- *.
    destruct (draw_loop_spec sample2 sample2_range 100 (edges st) (draws st) E2)
      as [r [k' [ED P]]].
    unfold mbind at 1, lift at 1. rewrite ED. cbn [fst snd].
    pose proof (rego_inv_draws degrees rs0 _ st k' I) as I1.
    destruct r as [[[[u v] x] y]|];
      [|apply K; auto using graph_equiv_refl].
    destruct P as [Huv [Hxy ND]].
    unfold mbind at 1, read at 1.
    destruct (NX.has_edge (deref h G) u y || NX.has_edge (deref h G) v x)
      eqn:EH;
      [apply K; auto using graph_equiv_refl|].
    apply orb_false_iff in EH. destruct EH as [Auy Avx].
    destruct (swap_ok (deref h G) u v x y W ND (E _ Huv) (E _ Hxy) Auy Avx)
      as [g' [R [W' [NN [DD [g'' [R' [W'' HEq]]]]]]]].
    unfold mbind at 1. unfold apply_swap.
    rewrite (rewire_run G u v x y u y v x h g' HG R).
    set (h1 := update h G g').
    assert (HG1 : G < length h1) by (unfold h1; now rewrite update_length).
    assert (D1 : deref h1 G = g') by (unfold h1; now apply deref_update_eq).
    assert (REV : revert_swap G u v x y h1 = Ok (tt, update h G g'')).
    { unfold revert_swap. rewrite (rewire_run G u y v x u v x y h1 g'' HG1).
      - unfold h1. now rewrite update_update.
      - now rewrite D1. }
    assert (KREV : exists st' h',
               rego_loop pinv sample2 n G (with_draws st k') (update h G g'')
               = Ok (st', h')
               /\ rego_inv degrees rs0 (deref h' G) st'
               /\ current_rs st' = spec_rs pinv (deref h' G)
               /\ accepted_swaps st <= accepted_swaps st'
                  <= accepted_swaps st + S n
               /\ (accepted_swaps st' = accepted_swaps st ->
                   graph_equiv (deref h G) (deref h' G))).
    { apply K.
      - now rewrite update_length.
      - rewrite deref_update_eq by assumption.
        eapply rego_inv_equiv; eauto.
      - rewrite deref_update_eq by assumption. simpl. rewrite RS.
        now apply spec_rs_equiv.
      - reflexivity.
      - now rewrite deref_update_eq. }
    unfold mbind at 1, read at 1. rewrite D1.
    assert (NE : g' <> []).
    { intros ->. apply is_connected_nonempty in C.
      destruct (deref h G); [contradiction | discriminate]. }
    destruct (is_connected_total g' NE) as [b C'].
    unfold mbind at 1, lift at 1. rewrite C'.
    destruct b; cbn [negb].
    + rewrite (calculate_Rs_refine pinv pinv_shape g' W' C').
      destruct (Rgt_dec (spec_rs pinv g') (current_rs (with_draws st k')))
        as [Hgt | Hle].
      * set (st2 := mkRego _ _ _ _ _ _).
        destruct (IH G st2 h1 HG1) as [st' [h' [EL [I' [RS' [A' Q']]]]]].
        { rewrite D1. apply rego_inv_accept with (g := deref h G); auto. }
        { now rewrite D1. }
        exists st', h'. split; [exact EL|]. split; [exact I'|].
        split; [exact RS'|]. unfold st2 in A'. simpl in A'.
        split; [lia|]. intros EA. lia.
      * unfold mbind at 1. rewrite REV. exact KREV.
    + unfold mbind at 1. rewrite REV. exact KREV.
Qed.

Lemma rego_score_spec G_initial n_iter h :
  G_initial < length h ->
  wf (deref h G_initial) ->
  NX.is_connected (deref h G_initial) = Ok true ->
  exists history accepted h',
    rego_run pinv sample2 G_initial n_iter h
    = Ok ((length h, history, accepted), h')
    /\ wf (deref h' (length h))
    /\ NX.is_connected (deref h' (length h)) = Ok true
    /\ hd_error history = Some (spec_rs pinv (deref h G_initial))
    /\ strictly_increasing history
    /\ length history = S accepted
    /\ last history (spec_rs pinv (deref h G_initial))
       = spec_rs pinv (deref h' (length h))
    /\ accepted <= Z.to_nat n_iter
    /\ (accepted = 0 -> graph_equiv (deref h G_initial) (deref h' (length h)))
    /\ ((n_iter <= 0)%Z \/ NX.number_of_edges (deref h G_initial) < 2 ->
        deref h' (length h) = deref h G_initial).
Proof.
  intros HG W C. unfold rego_run.
  unfold mbind at 1, read at 1. unfold mbind at 1, lift at 1. rewrite C.
  cbn [negb]. unfold mbind at 1, G_copy, mbind, read, alloc.
  rewrite deref_app_new, (calculate_Rs_refine pinv pinv_shape _ W C).
  destruct (length (NX.edges (deref h G_initial)) <? 2) eqn:E2.
  - exists [spec_rs pinv (deref h G_initial)], 0, (h ++ [deref h G_initial]).
    unfold mret. rewrite deref_app_new.
    split; [reflexivity|]. split; [exact W|]. split; [exact C|].
    split; [reflexivity|]. split; [exact I|]. split; [reflexivity|].
    split; [reflexivity|]. split; [lia|].
    split; [intros _; apply graph_equiv_refl | reflexivity].
  - apply Nat.ltb_ge in E2.
    destruct (rego_loop_score (NX.degree (deref h G_initial))
                (spec_rs pinv (deref h G_initial)) (Z.to_nat n_iter)
                (length h)
                (rego_initial_state (spec_rs pinv (deref h G_initial))
                                    (deref h G_initial))
                (h ++ [deref h G_initial]))
      as [st' [h' [EL [I' [RS' [A' Q']]]]]].
    { rewrite length_app. simpl. lia. }
    { rewrite deref_app_new. now apply rego_initial_inv. }
    { now rewrite deref_app_new. }
    unfold rego_initial_state in EL. rewrite EL. unfold mret.
    destruct I' as [W' [C' [D' [_ [_ [H1 [H2 [H3 H4]]]]]]]].
    simpl in A'. rewrite deref_app_new in Q'.
    exists (rs_history st'), (accepted_swaps st'), h'.
    split; [reflexivity|]. split; [exact W'|]. split; [exact C'|].
    split; [exact H1|]. split; [exact H3|]. split; [exact H4|].
    split; [congruence|]. split; [lia|]. split; [exact Q'|].
    intros [NI | NE2]; [|unfold NX.number_of_edges in NE2; lia].
    replace (Z.to_nat n_iter) with 0 in EL by lia.
    simpl in EL. unfold mret in EL. inversion EL; subst.
    apply deref_app_new.
Qed.

End RegoScore.



(** X17. The graph that [rego_optimizer] returns is a simple graph on the
    nodes of the input, listed in the same order, with the same number of
    edges as the input. *)
Theorem X17_rego_keeps_nodes_and_edge_count
        pinv sample2 G_initial n_iter h :
  (forall n M, is_square n M -> is_square n (pinv M)) ->
  (forall k n, 2 <= n -> fst (sample2 k n) < n /\ snd (sample2 k n) < n) ->
  G_initial < length h ->
  wf (deref h G_initial) ->
  NX.is_connected (deref h G_initial) = Ok true ->
  exists optimized history h',
    rego_optimizer pinv sample2 G_initial n_iter h
    = Ok ((optimized, history), h')
    /\ wf (deref h' optimized)
    /\ NX.nodes (deref h' optimized) = NX.nodes (deref h G_initial)
    /\ NX.number_of_edges (deref h' optimized)
       = NX.number_of_edges (deref h G_initial).
Proof.
  intros SH SR HG W C.
  destruct (rego_spec pinv SH sample2 SR G_initial n_iter h HG W C)
    as [history [accepted [h' [E [_ [W' [_ [D _]]]]]]]].
  apply rego_optimizer_run in E.
  exists (length h), history, h'.
  split; [exact E|]. split; [exact W'|]. split.
  - now rewrite <- !degree_keys, D.
  - pose proof (handshake _ W) as H1. pose proof (handshake _ W') as H2.
    rewrite D in H2. lia.
Qed.

Lemma X17_rego_keeps_nodes_and_edge_count_witness :
  exists optimized history h',
    rego_optimizer quarter first_and_last 0 3 [path6]
    = Ok ((optimized, history), h')
    /\ wf (deref h' optimized)
    /\ NX.nodes (deref h' optimized) = NX.nodes (deref [path6] 0)
    /\ NX.number_of_edges (deref h' optimized)
       = NX.number_of_edges (deref [path6] 0).
Proof.
  apply (X17_rego_keeps_nodes_and_edge_count
           quarter first_and_last 0 3%Z [path6]
           quarter_shape first_and_last_range).
  - simpl. lia.
  - reflexivity.
  - reflexivity.
Defined.

(** X18. [rego_optimizer] accepts at most one swap per iteration: the
    history has at least one and at most [1 + max(0, n_iter)] entries. When
    it has one entry, no swap was kept, and the returned graph has the nodes
    and the adjacency relation of the input (reverted swaps may have changed
    the order of the neighbours). *)
Theorem X18_rego_history_length pinv sample2 G_initial n_iter h :
  (forall n M, is_square n M -> is_square n (pinv M)) ->
  (forall k n, 2 <= n -> fst (sample2 k n) < n /\ snd (sample2 k n) < n) ->
  G_initial < length h ->
  wf (deref h G_initial) ->
  NX.is_connected (deref h G_initial) = Ok true ->
  exists optimized history h',
    rego_optimizer pinv sample2 G_initial n_iter h
    = Ok ((optimized, history), h')
    /\ 1 <= length history <= 1 + Z.to_nat n_iter
    /\ (length history = 1 ->
        graph_equiv (deref h G_initial) (deref h' optimized)).
Proof.
  intros SH SR HG W C.
  destruct (rego_score_spec pinv SH sample2 SR G_initial n_iter h HG W C)
    as [history [accepted [h' [E [_ [_ [_ [_ [H4 [_ [A [Q _]]]]]]]]]]]].
  apply rego_optimizer_run in E.
  exists (length h), history, h'.
  split; [exact E|]. split; [lia|].
  intros L. apply Q. lia.
Qed.

Lemma X18_rego_history_length_witness :
  exists optimized history h',
    rego_optimizer quarter first_and_last 0 3 [path6]
    = Ok ((optimized, history), h')
    /\ 1 <= length history <= 1 + Z.to_nat 3
    /\ (length history = 1 ->
        graph_equiv (deref [path6] 0) (deref h' optimized)).
Proof.
  apply (X18_rego_history_length
           quarter first_and_last 0 3%Z [path6]
           quarter_shape first_and_last_range).
  - simpl. lia.
  - reflexivity.
  - reflexivity.
Defined.

(** X19. With [n_iter <= 0], or on a graph with fewer than two edges,
    [rego_optimizer] has nothing to do: it returns a new object that is an
    exact copy of the input graph, and the history has the score of the
    input as its only entry. *)
Theorem X19_rego_without_iterations pinv sample2 G_initial n_iter h :
  (forall n M, is_square n M -> is_square n (pinv M)) ->
  (forall k n, 2 <= n -> fst (sample2 k n) < n /\ snd (sample2 k n) < n) ->
  G_initial < length h ->
  wf (deref h G_initial) ->
  NX.is_connected (deref h G_initial) = Ok true ->
  (n_iter <= 0)%Z \/ NX.number_of_edges (deref h G_initial) < 2 ->
  exists optimized h' first,
    rego_optimizer pinv sample2 G_initial n_iter h
    = Ok ((optimized, [first]), h')
    /\ calculate_Rs pinv (deref h G_initial) = Ok first
    /\ length h <= optimized
    /\ deref h' optimized = deref h G_initial.
Proof.
  intros SH SR HG W C T.
  destruct (rego_score_spec pinv SH sample2 SR G_initial n_iter h HG W C)
    as [history [accepted [h' [E [_ [_ [H1 [_ [H4 [_ [A [_ X]]]]]]]]]]]].
  apply rego_optimizer_run in E. specialize (X T).
  assert (L : length history = 1).
  { destruct T as [T | T].
    - lia.
    - unfold rego_optimizer, rego_run in E. revert E.
      unfold mbind at 1. unfold mbind at 1, read at 1.
      unfold mbind at 1, lift at 1. rewrite C. cbn [negb].
      unfold mbind at 1, G_copy, mbind, read, alloc.
      rewrite deref_app_new, (calculate_Rs_refine pinv SH _ W C).
      unfold NX.number_of_edges in T. apply Nat.ltb_lt in T. rewrite T.
      unfold mret. intros E. inversion E. reflexivity. }
  destruct history as [|first [|second history]]; try discriminate.
  inversion H1; subst first.
  exists (length h), h', (spec_rs pinv (deref h G_initial)).
  split; [exact E|]. split; [now apply calculate_Rs_refine|].
  split; [lia | exact X].
Qed.

Lemma X19_rego_without_iterations_witness :
  exists optimized h' first,
    rego_optimizer quarter first_and_last 0 0 [path6]
    = Ok ((optimized, [first]), h')
    /\ calculate_Rs quarter (deref [path6] 0) = Ok first
    /\ length [path6] <= optimized
    /\ deref h' optimized = deref [path6] 0.
Proof.
  apply (X19_rego_without_iterations
           quarter first_and_last 0 0%Z [path6]
           quarter_shape first_and_last_range).
  - simpl. lia.
  - reflexivity.
  - reflexivity.
  - left. lia.
Defined.

Lemma chain_length G ts G' :
  removal_chain G ts G' -> wf G ->
  length (NX.edges G') + length ts = length (NX.edges G).
Proof.
  induction 1 as [G | G e G1 es G' Hin HR HC IH]; intros W.
  - simpl. lia.
  - pose proof (wf_remove_edge _ _ _ _ W HR) as W1.
    destruct e as [u v]. simpl in HR.
    pose proof (edges_remove_length G u v G1 W Hin HR).
    specialize (IH W1). simpl. lia.
Qed.

(** X20. The greedy search does not stop when removing an edge lowers the
    score or splits the graph: when the requested number of rounds is at
    least the number of edges of a connected simple graph, every edge of
    the input is returned as a target and the returned graph has no edge
    left. *)
Theorem X20_greedy_removes_every_edge pinv G num_targets budget h :
  (forall n M, is_square n M -> is_square n (pinv M)) ->
  G < length h ->
  wf (deref h G) ->
  NX.is_connected (deref h G) = Ok true ->
  NX.number_of_edges (deref h G)
  <= Z.to_nat match budget with
              | None => num_targets
              | Some b => Z.min num_targets (py_int b)
              end ->
  exists targets deltas final h',
    find_optimal_targets_greedy pinv G num_targets budget h
    = Ok ((targets, deltas, final), h')
    /\ (forall e, In e (NX.edges (deref h G)) <-> In e targets)
    /\ NX.edges (deref h' final) = [].
Proof.
  intros SH HG W C B.
  destruct (greedy_trace_spec pinv SH G num_targets budget h HG W C)
    as [ts [ds [h' [E [L _]]]]].
  destruct (greedy_spec pinv SH G num_targets budget h HG W C)
    as [ts2 [ds2 [h2 [E2 [_ [_ [_ HC]]]]]]].
  rewrite E in E2. inversion E2; subst ts2 ds2 h2.
  pose proof (chain_length _ _ _ HC W) as CL.
  unfold NX.number_of_edges in *.
  assert (EF : NX.edges (deref h' (length h)) = []).
  { destruct (NX.edges (deref h' (length h))); [reflexivity|].
    simpl in CL. lia. }
  exists ts, ds, (length h), h'.
  split; [exact E|]. split; [|exact EF].
  intros e. split.
  - intros Hin.
    destruct (in_dec (fun a b : edge =>
                        ltac:(decide equality; apply Nat.eq_dec)) e ts)
      as [H | H]; [assumption|].
    assert (F : In e (NX.edges (deref h' (length h))))
      by (apply (chain_edges_minus _ _ _ HC); now split).
    rewrite EF in F. contradiction.
  - apply (chain_targets _ _ _ HC).
Qed.

Lemma X20_greedy_removes_every_edge_witness :
  exists targets deltas final h',
    find_optimal_targets_greedy quarter 0 7 None [cycle4]
    = Ok ((targets, deltas, final), h')
    /\ (forall e, In e (NX.edges (deref [cycle4] 0)) <-> In e targets)
    /\ NX.edges (deref h' final) = [].
Proof.
  apply (X20_greedy_removes_every_edge quarter 0 7%Z None [cycle4]
           quarter_shape).
  - simpl. lia.
  - reflexivity.
  - reflexivity.
  - vm_compute. lia.
Defined.

Section RegoSmall.

Variable pinv : Matrix -> Matrix.
Hypothesis pinv_shape : forall n M, is_square n M -> is_square n (pinv M).

Variable sample2 : nat -> nat -> nat * nat.
Hypothesis sample2_range :
  forall k n, 2 <= n -> fst (sample2 k n) < n /\ snd (sample2 k n) < n.

Lemma rego_loop_no_disjoint_edges n_iter :
  forall G st h,
    n_edges st = length (edges st) ->
    (forall e1 e2, In e1 (edges st) -> In e2 (edges st) -> share_node e1 e2) ->
    exists st',
      rego_loop pinv sample2 n_iter G st h = Ok (st', h)
      /\ rs_history st' = rs_history st.
Proof.
  induction n_iter as [|n IH]; intros G st h N S.
  - exists st. auto.
  - cbn [rego_loop]. destruct (n_edges st <? 2) eqn:E2.
    { exists st. auto. }
    apply Nat.ltb_ge in E2. rewrite N in E2 |- *.
    destruct (draw_loop_spec sample2 sample2_range 100 (edges st) (draws st) E2)
      as [r [k' [ED P]]].
    unfold mbind at 1, lift at 1. rewrite ED. cbn [fst snd].
    destruct r as [[[[u v] x] y]|].
    + exfalso. destruct P as [Huv [Hxy ND]].
      destruct (S _ _ Huv Hxy) as [H | [H | [H | H]]]; simpl in H; tauto.
    + destruct (IH G (with_draws st k') h N S) as [st' [EL H1]].
      exists st'. auto.
Qed.

Lemma rego_no_disjoint_edges_spec G_initial n_iter h :
  wf (deref h G_initial) ->
  NX.is_connected (deref h G_initial) = Ok true ->
  (forall e1 e2,
     In e1 (NX.edges (deref h G_initial)) ->
     In e2 (NX.edges (deref h G_initial)) -> share_node e1 e2) ->
  rego_optimizer pinv sample2 G_initial n_iter h
  = Ok ((length h, [spec_rs pinv (deref h G_initial)]),
        h ++ [deref h G_initial]).
Proof.
  intros W C S. unfold rego_optimizer, rego_run.
  unfold mbind at 1. unfold mbind at 1, read at 1.
  unfold mbind at 1, lift at 1. rewrite C.
  cbn [negb]. unfold mbind at 1, G_copy, mbind, read, alloc.
  rewrite deref_app_new, (calculate_Rs_refine pinv pinv_shape _ W C).
  destruct (length (NX.edges (deref h G_initial)) <? 2) eqn:E2.
  - reflexivity.
  - destruct (rego_loop_no_disjoint_edges (Z.to_nat n_iter) (length h)
                (rego_initial_state (spec_rs pinv (deref h G_initial))
                                    (deref h G_initial))
                (h ++ [deref h G_initial]))
      as [st' [EL H1]].
    + reflexivity.
    + exact S.
    + unfold rego_initial_state in EL. rewrite EL. unfold mret.
      simpl in H1. simpl. now rewrite H1.
Qed.

End RegoSmall.

(** X21. A swap needs two edges without a common node. On a connected
    simple graph in which every two edges share a node, a star for one,
    [rego_optimizer] changes nothing, however many iterations are requested:
    it returns an exact copy of the input as a new object, and a history
    whose only entry is the score of the input. *)
Theorem X21_rego_needs_disjoint_edges pinv sample2 G_initial n_iter h :
  (forall n M, is_square n M -> is_square n (pinv M)) ->
  (forall k n, 2 <= n -> fst (sample2 k n) < n /\ snd (sample2 k n) < n) ->
  wf (deref h G_initial) ->
  NX.is_connected (deref h G_initial) = Ok true ->
  (forall e1 e2,
     In e1 (NX.edges (deref h G_initial)) ->
     In e2 (NX.edges (deref h G_initial)) -> share_node e1 e2) ->
  exists optimized h' first,
    rego_optimizer pinv sample2 G_initial n_iter h
    = Ok ((optimized, [first]), h')
    /\ calculate_Rs pinv (deref h G_initial) = Ok first
    /\ length h <= optimized
    /\ deref h' optimized = deref h G_initial.
Proof.
  intros SH SR W C S.
  exists (length h), (h ++ [deref h G_initial]),
    (spec_rs pinv (deref h G_initial)).
  split; [now apply (rego_no_disjoint_edges_spec pinv SH sample2 SR)|].
  split; [now apply calculate_Rs_refine|].
  split; [lia | apply deref_app_new].
Qed.

Lemma X21_rego_needs_disjoint_edges_witness :
  exists optimized h' first,
    rego_optimizer quarter first_and_last 0 10 [star5]
    = Ok ((optimized, [first]), h')
    /\ calculate_Rs quarter (deref [star5] 0) = Ok first
    /\ length [star5] <= optimized
    /\ deref h' optimized = deref [star5] 0.
Proof.
  apply (X21_rego_needs_disjoint_edges quarter first_and_last 0 10%Z [star5]
           quarter_shape first_and_last_range).
  - reflexivity.
  - reflexivity.
  - intros e1 e2 H1 H2. left.
    destruct H1 as [<- | [<- | [<- | [<- | []]]]];
      destruct H2 as [<- | [<- | [<- | [<- | []]]]]; reflexivity.
Defined.

(** X22. Both searches refuse a disconnected input graph: each raises its
    [ValueError] before it copies the graph, so no result and no new object
    comes out of the call. *)
Theorem X22_searches_reject_disconnected_input
        pinv sample2 G num_targets budget n_iter h :
  NX.is_connected (deref h G) = Ok false ->
  find_optimal_targets_greedy pinv G num_targets budget h
  = Raise (ValueError "Input graph must be connected.")
  /\ rego_optimizer pinv sample2 G n_iter h
     = Raise (ValueError
         "Initial graph must be connected for REGO optimization.").
Proof.
  intros C. split.
  - unfold find_optimal_targets_greedy, mbind, read, lift. now rewrite C.
  - unfold rego_optimizer, rego_run, mbind, read, lift. now rewrite C.
Qed.

Lemma X22_searches_reject_disconnected_input_witness :
  find_optimal_targets_greedy quarter 0 1 None [edge_and_isolated]
  = Raise (ValueError "Input graph must be connected.")
  /\ rego_optimizer quarter first_and_last 0 10 [edge_and_isolated]
     = Raise (ValueError
         "Initial graph must be connected for REGO optimization.").
Proof.
  apply (X22_searches_reject_disconnected_input
           quarter first_and_last 0 1%Z None 10%Z [edge_and_isolated]).
  reflexivity.
Defined.

Lemma Rsum_const_edges (c : R) (es : list edge) (f : edge -> R) :
  (forall e, In e es -> f e = c) ->
  Rsum (map f es) = (INR (length es) * c)%R.
Proof.
  induction es as [|e es IH]; intros H.
  - simpl. lra.
  - cbn [map Rsum fold_right length]. fold (Rsum (map f es)).
    rewrite IH by (intros x Hx; apply H; now right).
    rewrite (H e (or_introl eq_refl)), S_INR. lra.
Qed.

Lemma spec_weight_regular G d e :
  wf G -> (forall u, In u (NX.nodes G) -> deg G u = d) ->
  In e (NX.edges G) -> spec_weight G e = 1%R.
Proof.
  intros W R Hin. unfold spec_weight.
  destruct (Req_dec_T (mean_degree G) 0); [reflexivity|].
  destruct e as [u v]. destruct (edges_endpoints G u v W Hin) as [Hu Hv].
  assert (NN : NX.nodes G <> []) by (intros E; rewrite E in Hu; contradiction).
  unfold penalty_formula. simpl fst. simpl snd.
  rewrite (mean_degree_regular G d NN R), (R u Hu), (R v Hv).
  rewrite Rminus_diag, Rabs_R0. unfold Rdiv. lra.
Qed.

Lemma cycle4_resistances e r :
  In (e, r)
     (map (fun e => (e, spec_omega (quarter (NXL.laplacian_matrix cycle4))
                                   cycle4 e))
          (NX.edges cycle4)) ->
  r = (3 / 2)%R.
Proof.
  intros H. apply in_map_iff in H. destruct H as [x [E Hx]].
  inversion E; subst e r. clear E.
  assert (Hx' : In x [(0, 1); (0, 3); (1, 2); (2, 3)]) by exact Hx.
  clear Hx.
  destruct Hx' as [<- | [<- | [<- | [<- | []]]]];
    unfold spec_omega, entry, quarter, NXL.laplacian_matrix, NXL.A, py_sum;
    simpl.
  all: rewrite Rmax_right by lra.
  all: lra.
Qed.


